(** * EMS3: edited motif search, the Python engines V1, V2, V2m and V2P

    A shallow embedding of [src/src/*.py] and the properties of the engines:
    the bit-packed motif keys of [motif_data.py], the brute-force counter of
    [ems1.py], the two sharing-mask tries of [motif_tree.py] with the trie
    engine of [ems2.py], and the packed sort-merge engine of [ems2p.py].

    Python values are modelled as follows: [int] is [Z] (unbounded), [str] is
    [string], a [list] is a [list], a [set] of strings a [gset string], a
    [dict] keyed by strings a [gmap string _].  An exception is a [Raise] in
    the [result] monad.  Objects that are mutated while shared (the nodes of
    [MotifTreeFast]) live in an explicit store. *)

From Stdlib Require Import ZArith Ascii String List Lia Sorting.Sorted.
From stdpp Require Import base option list gmap strings sorting fin_sets numbers.

Open Scope Z_scope.

(** ** Python primitives *)

Module Py.

Inductive exn := ValueError | IndexError | ZeroDivisionError.

Inductive result (A : Type) :=
| Ok (a : A)
| Raise (e : exn).
Arguments Ok {A} a.
Arguments Raise {A} e.

Definition bind {A B} (m : result A) (k : A -> result B) : result B :=
  match m with
  | Ok a => k a
  | Raise e => Raise e
  end.

(** [for x in xs: s = body x s], stopping at the first exception. *)
Fixpoint for_each {X S} (xs : list X) (body : X -> S -> result S) (s : S)
  : result S :=
  match xs with
  | [] => Ok s
  | x :: xs' => bind (body x s) (for_each xs' body)
  end.

(** [range(n)] and [range(a, b)]. *)
Definition range (n : nat) : list nat := seq 0 n.
Definition rangeZ (a b : Z) : list Z :=
  map (fun i => a + Z.of_nat i) (seq 0 (Z.to_nat (b - a))).

(** [len(s)], [s[i]], [s[:j]], [s[j:]] on [str]; slices clamp, indexing
    raises. *)
Definition len (s : string) : nat := String.length s.

Definition index (s : string) (i : nat) : result ascii :=
  match String.get i s with
  | Some c => Ok c
  | None => Raise IndexError
  end.

Fixpoint slice_to (j : nat) (s : string) : string :=
  match j, s with
  | S j', String c s' => String c (slice_to j' s')
  | _, _ => EmptyString
  end.

Fixpoint slice_from (j : nat) (s : string) : string :=
  match j, s with
  | S j', String _ s' => slice_from j' s'
  | _, _ => s
  end.

(** [s[i:j]] for non-negative [i], [j]. *)
Definition slice (i j : nat) (s : string) : string :=
  slice_to (j - i) (slice_from i s).

Definition chr1 (c : ascii) : string := String c EmptyString.

(** [c.isdigit()] and [int(c)] on a one-character ASCII string. *)
Definition digit_value (c : ascii) : option Z :=
  let n := nat_of_ascii c in
  if (48 <=? n)%nat && (n <=? 57)%nat then Some (Z.of_nat (n - 48)) else None.

Definition isdigit (c : ascii) : bool :=
  match digit_value c with Some _ => true | None => false end.

Definition int (c : ascii) : result Z :=
  match digit_value c with
  | Some v => Ok v
  | None => Raise ValueError
  end.

(** [str(k)] for the one-digit numbers the engines print (alphabet codes
    and the wildcard code); larger numbers do not occur. *)
Definition digit_char (k : Z) : ascii :=
  ascii_of_nat (48 + Z.to_nat k).

Definition str (k : Z) : string := chr1 (digit_char k).

(** [s[j]] as a one-character string, for an index the caller keeps in
    range ([j < len(s)]); out of range it is the empty string. *)
Definition char_at (j : nat) (s : string) : string := slice j (S j) s.

(** [join] of the empty separator: the concatenation of [parts]. *)
Definition join (parts : list string) : string :=
  fold_right String.append EmptyString parts.

(** Two runs end alike: in related states, or with the same exception. *)
Definition result_rel {A B} (R : A -> B -> Prop)
    (r1 : Py.result A) (r2 : Py.result B) : Prop :=
  match r1, r2 with
  | Py.Ok a, Py.Ok b => R a b
  | Py.Raise e1, Py.Raise e2 => e1 = e2
  | _, _ => False
  end.

End Py.

#[export] Instance exn_eq_dec : EqDecision Py.exn.
Proof. solve_decision. Defined.
#[export] Instance result_eq_dec {A} `{EqDecision A} : EqDecision (Py.result A).
Proof. solve_decision. Defined.
#[export] Instance result_ret : MRet Py.result := @Py.Ok.
#[export] Instance result_bind : MBind Py.result := fun A B k m => Py.bind m k.

Abbreviation Ok := Py.Ok.
Abbreviation Raise := Py.Raise.

(** ** utils.py *)

Module Utils.

Definition DNA_DOMAIN : string := "ACGT".
Definition domain_size : nat := Py.len DNA_DOMAIN.
Definition WILDCARD_CODE : Z := Z.of_nat (Py.len DNA_DOMAIN).

(** [edist]: the table [d] is a list of rows; [d[i][j]] is read with
    [cell] and written with [set_cell] (the loops stay in range). *)
Definition cell (d : list (list nat)) (i j : nat) : nat :=
  default 0%nat (row ← d !! i; row !! j).

Definition set_cell (d : list (list nat)) (i j : nat) (v : nat)
  : list (list nat) :=
  alter (fun row => <[j := v]> row) i d.

Definition edist (s1 s2 : string) : nat :=
  let len1 := Py.len s1 in
  let len2 := Py.len s2 in
  let d := replicate (len1 + 1) (replicate (len2 + 1) 0%nat) in
  let d := fold_left (fun d i => set_cell d i 0 i) (Py.range (len1 + 1)) d in
  let d := fold_left (fun d j => set_cell d 0 j j) (Py.range (len2 + 1)) d in
  let d :=
    fold_left
      (fun d i =>
         fold_left
           (fun d j =>
              let cost :=
                if decide (Py.char_at (i - 1) s1 = Py.char_at (j - 1) s2)
                then 0%nat else 1%nat in
              set_cell d i j
                (Nat.min (Nat.min (cell d (i - 1) j + 1) (cell d i (j - 1) + 1))
                   (cell d (i - 1) (j - 1) + cost)))
           (seq 1 len2) d)
      (seq 1 len1) d in
  cell d len1 len2.

(** [alignment s t n]: [t] is [s] after [n] single-character deletions,
    insertions and substitutions, the other characters kept in order. *)
Inductive alignment : list ascii -> list ascii -> nat -> Prop :=
| align_nil : alignment [] [] 0
| align_keep c s t n : alignment s t n -> alignment (c :: s) (c :: t) n
| align_subst c c' s t n : alignment s t n -> alignment (c :: s) (c' :: t) (S n)
| align_delete c s t n : alignment s t n -> alignment (c :: s) t (S n)
| align_insert c s t n : alignment s t n -> alignment s (c :: t) (S n).

(** The recurrence that fills the table of [edist], on the characters read
    from the front. *)
Fixpoint lev (s : list ascii) : list ascii -> nat :=
  match s with
  | [] => fun t => List.length t
  | a :: s' =>
      fix lev_a (t : list ascii) : nat :=
        match t with
        | [] => S (List.length s')
        | b :: t' =>
            Nat.min (Nat.min (lev s' t + 1) (lev_a t' + 1))
              (lev s' t' + (if decide (a = b) then 0 else 1))
        end
  end.

(** The table has [rows] rows of [cols] cells. *)
Definition dims (d : list (list nat)) (rows cols : nat) : Prop :=
  List.length d = rows /\ Forall (fun row => List.length row = cols) d.

(** All encoded strings of length [n], in lexicographic order. *)
Fixpoint all_strings (n : nat) : list string :=
  match n with
  | O => [EmptyString]
  | S n' =>
      k ← Py.range domain_size; s ← all_strings n';
      [String.append (Py.str (Z.of_nat k)) s]
  end.

(** The (l,d)-neighborhood of [x]: the strings of length [l] within edit
    distance [d] of [x]. *)
Definition neighborhood (l d : nat) (x : string) : list string :=
  filter (fun y => (edist x y <= d)%nat) (all_strings l).

(** [found_in_seq]: some substring of [seq] is within distance [d] of
    [candidate]. *)
Definition found_in_seq (candidate seq : string) (l d : nat) : bool :=
  let m := Py.len seq in
  let len_candi := Py.len candidate in
  existsb
    (fun q =>
       let k := Z.of_nat len_candi + q in
       if (k <=? 0) || (Z.of_nat m <? k) then false
       else
         let k := Z.to_nat k in
         existsb
           (fun i => (edist (Py.slice i (i + k) seq) candidate <=? d)%nat)
           (Py.range (m - k + 1)))
    (Py.rangeZ (- Z.of_nat d) (Z.of_nat d + 1)).

(** The edited motifs of [reads]: the strings of length [l] that every
    sequence contains within distance [d], in lexicographic order. *)
Definition edited_motifs (l d : nat) (reads : list string) : list string :=
  filter (fun m => forallb (fun seq => found_in_seq m seq l d) reads = true)
    (all_strings l).

(** [s.upper()] on ASCII text: the letters [a..z] become [A..Z]. *)
Definition upper_char (c : ascii) : ascii :=
  let n := nat_of_ascii c in
  if (97 <=? n)%nat && (n <=? 122)%nat then ascii_of_nat (n - 32) else c.

Fixpoint upper (s : string) : string :=
  match s with
  | EmptyString => EmptyString
  | String c s' => String (upper_char c) (upper s')
  end.

(** Every character of [s] is, in upper case, a letter of [domain]. *)
Fixpoint over_domain (domain : string) (s : string) : Prop :=
  match s with
  | EmptyString => True
  | String c s' =>
      upper_char c ∈ list_ascii_of_string domain /\ over_domain domain s'
  end.

(** [enumerate(domain)] *)
Definition enumerate (domain : string) : list (nat * ascii) :=
  imap (fun i c => (i, c)) (list_ascii_of_string domain).

(** [encode_strings]: the dictionary [encoding_map] (a later letter of
    [domain] overrides an equal earlier one) and the encoding of one read;
    [domain] has at most ten letters, so that [str(i)] is one digit. *)
Definition encoding_map (domain : string) : gmap ascii string :=
  fold_left (fun m ic => <[ic.2 := Py.str (Z.of_nat ic.1)]> m) (enumerate domain) ∅.

Definition encode_string (domain : string) (read_seq : string) : string :=
  Py.join (map (fun char => default "0"%string (encoding_map domain !! char))
             (list_ascii_of_string (upper read_seq))).


(** [decode_motif]: [decoding_map] and the loop over the characters. *)
Definition decoding_map (domain : string) : gmap Z ascii :=
  fold_left (fun m ic => <[Z.of_nat ic.1 := ic.2]> m) (enumerate domain) ∅.

Definition decode_char (domain : string) (char_code_str : ascii) : ascii :=
  let code :=
    match Py.digit_value char_code_str with
    | Some v => v
    | None => WILDCARD_CODE
    end in
  if code =? WILDCARD_CODE then "*"%char
  else default "?"%char (decoding_map domain !! code).

Fixpoint decode_motif (encoded_motif : string) (domain : string) : string :=
  match encoded_motif with
  | EmptyString => EmptyString
  | String c rest => String (decode_char domain c) (decode_motif rest domain)
  end.









Definition neighborhood_set (l d : nat) (x : string) : gset string :=
  list_to_set (neighborhood l d x).

(** An encoded character is one of the alphabet codes ['0'..'3']. *)
Definition is_code (c : ascii) : Prop :=
  exists k, Py.digit_value c = Some k /\ 0 <= k < Z.of_nat domain_size.

Fixpoint encoded (s : string) : Prop :=
  match s with
  | EmptyString => True
  | String c s' => is_code c /\ encoded s'
  end.

End Utils.

(** ** motif_data.py: the 2-bit packed key *)

Module MotifData.

Definition MAX_L : nat := 32.

(** [Motif.set_from_kmer]: the loop body reads [x[i]], masks its code to
    two bits and ors it in at bit [2 * (length - 1 - i)]. *)
Definition set_from_kmer_step (x : string) (length i : nat) (data : Z)
  : Py.result Z :=
  c ← Py.index x i;
  v ← Py.int c;
  let char_code := Z.land v 3 in
  let j := (length - 1 - i)%nat in
  let p := 2 * Z.of_nat j in
  Ok (Z.lor data (Z.shiftl char_code p)).

Definition set_from_kmer (x : string) : Py.result Z :=
  let length := Py.len x in
  Py.for_each (Py.range length) (set_from_kmer_step x length) 0.

(** [Motif(x)]: the constructor, the packed integer of [x]. *)
Definition Motif (x : string) : Py.result Z := set_from_kmer x.

(** [code = (self.data >> p) & 0b11] with [p = 2 * (k - 1 - i)]. *)
Definition get_code (data : Z) (k i : nat) : Z :=
  let p := 2 * Z.of_nat (k - 1 - i) in
  Z.land (Z.shiftr data p) 3.

(** [Motif.get_kmer]: fills a list of [k] one-character strings by index
    and joins it. *)
Definition get_kmer (data : Z) (k : nat) : Py.result string :=
  if (MAX_L <? k)%nat then Raise Py.ValueError
  else
    let unpacked_codes :=
      fold_left
        (fun codes i => <[i := Py.str (get_code data k i)]> codes)
        (Py.range k) (replicate k EmptyString) in
    Ok (Py.join unpacked_codes).

(** [Auxif.set_from_kmer]: one bit per position, set where the code is
    the wildcard code. *)
Definition Auxif (x : string) (wildcard_code : Z) : Py.result Z :=
  let length := Py.len x in
  Py.for_each (Py.range length)
    (fun i data =>
       c ← Py.index x i;
       char_code ← Py.int c;
       let j := (length - 1 - i)%nat in
       let p := Z.of_nat j in
       if char_code =? wildcard_code then Ok (Z.lor data (Z.shiftl 1 p))
       else Ok data)
    0.

(** [Motif.get_2bits] *)
Definition get_2bits (data p : Z) : Z := Z.land (Z.shiftr data p) 3.

(** The loop body of [Auxif.set_from_kmer], as in [Auxif] above. *)
Definition auxif_step (x : string) (length : nat) (wildcard_code : Z)
    (i : nat) (data : Z) : Py.result Z :=
  c ← Py.index x i;
  char_code ← Py.int c;
  let j := (length - 1 - i)%nat in
  let p := Z.of_nat j in
  if char_code =? wildcard_code then Ok (Z.lor data (Z.shiftl 1 p))
  else Ok data.

(** Every character of [s] is a decimal digit. *)
Fixpoint all_digits (s : string) : Prop :=
  match s with
  | EmptyString => True
  | String c s' => Py.isdigit c = true /\ all_digits s'
  end.

(** [Motif.__lt__]: keys are compared as integers. *)
Definition lt (a b : Z) : bool := a <? b.

(** [Auxif.get_bit] *)
Definition get_bit (data p : Z) : Z := Z.land (Z.shiftr data p) 1.

(** Replace the character at position [i] of [s] by [c]. *)
Definition replace_at (i : nat) (c : ascii) (s : string) : string :=
  String.append (Py.slice_to i s) (String c (Py.slice_from (S i) s)).

End MotifData.

(** ** ems1.py: engine V1, brute-force counting *)

Module Ems1.

(** [self.domain_size]: [read_file] always returns [DNA_DOMAIN]. *)
Definition domain_size : nat := Utils.domain_size.

(** [Ems1._generate_neighborhood]; the recursion is on
    [errors_remaining], the set [current_motif_set] is threaded through. *)
Fixpoint _generate_neighborhood (kmer : string) (errors_remaining : nat)
    (length : nat) (current_motif_set : gset string) {struct errors_remaining}
  : gset string :=
  let current_len := Py.len kmer in
  match errors_remaining with
  | O =>
      if (current_len =? length)%nat then {[ kmer ]} ∪ current_motif_set
      else current_motif_set
  | S errors' =>
      let len_z := Z.of_nat current_len in
      let length_z := Z.of_nat length in
      let errors_z := Z.of_nat errors_remaining in
      if (len_z <? length_z - errors_z) || (length_z + errors_z <? len_z)
      then current_motif_set
      else
        (* 1. Deletion *)
        let set1 :=
          if (0 <? len_z) && (length_z - errors_z + 1 <=? len_z) then
            fold_left
              (fun acc j =>
                 let new_kmer :=
                   String.append (Py.slice_to j kmer) (Py.slice_from (S j) kmer) in
                 _generate_neighborhood new_kmer errors' length acc)
              (Py.range current_len) current_motif_set
          else current_motif_set in
        (* 2. Substitution *)
        let set2 :=
          fold_left
            (fun acc j =>
               let original_char := Py.char_at j kmer in
               fold_left
                 (fun acc k =>
                    let new_char_code := Py.str (Z.of_nat k) in
                    if decide (new_char_code ≠ original_char) then
                      let new_kmer :=
                        String.append (Py.slice_to j kmer)
                          (String.append new_char_code (Py.slice_from (S j) kmer)) in
                      _generate_neighborhood new_kmer errors' length acc
                    else acc)
                 (Py.range domain_size) acc)
            (Py.range current_len) set1 in
        (* 3. Insertion *)
        if (len_z <=? length_z + errors_z - 1) then
          fold_left
            (fun acc j =>
               fold_left
                 (fun acc k =>
                    let new_char_code := Py.str (Z.of_nat k) in
                    let new_kmer :=
                      String.append (Py.slice_to j kmer)
                        (String.append new_char_code (Py.slice_from j kmer)) in
                    _generate_neighborhood new_kmer errors' length acc)
                 (Py.range domain_size) acc)
            (Py.range (current_len + 1)) set2
        else set2
  end.

(** The body of the [for q] / [for start_index] loops of [search]: the set
    [sequence_candidates] of one sequence. *)
Definition sequence_candidates (l d : nat) (seq : string) : gset string :=
  fold_left
    (fun acc q =>
       let k := Z.of_nat l + q in
       if (k <=? 0) || (Z.of_nat (Py.len seq) <? k) then acc
       else
         let k := Z.to_nat k in
         fold_left
           (fun acc start_index =>
              let kmer := Py.slice start_index (start_index + k) seq in
              _generate_neighborhood kmer d l acc)
           (Py.range (Py.len seq - k + 1)) acc)
    (Py.rangeZ (- Z.of_nat d) (Z.of_nat d + 1)) ∅.

(** The two dictionaries of the engine. *)
Record state := State {
  motif_counts : gmap string nat;
  last_seq_match : gmap string nat
}.

Definition init : state := State ∅ ∅.

(** One iteration of [for candidate_motif in sequence_candidates]. *)
Definition count_candidate (current_seq_id : nat) (candidate_motif : string)
    (st : state) : state :=
  if decide (last_seq_match st !! candidate_motif ≠ Some current_seq_id) then
    State
      (<[candidate_motif := (default 0 (motif_counts st !! candidate_motif) + 1)%nat]>
         (motif_counts st))
      (<[candidate_motif := current_seq_id]> (last_seq_match st))
  else st.

(** One iteration of [for i, seq in enumerate(self.reads)]. *)
Definition process_sequence (l d : nat) (st : state) (i : nat) (seq : string)
  : state :=
  let current_seq_id := (i + 1)%nat in
  set_fold (count_candidate current_seq_id) st (sequence_candidates l d seq).

(** The state after the sequences [reads], numbered from [i]. *)
Fixpoint process_from (l d : nat) (i : nat) (reads : list string) (st : state)
  : state :=
  match reads with
  | [] => st
  | seq :: reads' => process_from l d (S i) reads' (process_sequence l d st i seq)
  end.

Definition process_all (l d : nat) (reads : list string) : state :=
  process_from l d 0 reads init.

(** [S'] extends [S] by strings of length [l] only. *)
Definition grows (l : nat) (S S' : gset string) : Prop :=
  S ⊆ S' /\ forall m, m ∈ S' -> m ∈ S \/ Py.len m = l.

(** [m] is [seq[i : i + l]] for some start [i] with [i + l <= len(seq)]. *)
Definition substring_of (l : nat) (m seq : string) : Prop :=
  exists i, (i + l <= Py.len seq)%nat /\ m = Py.slice i (i + l) seq.

(** The number of sequences of [reads] whose candidate set contains [m]. *)
Definition coverage (l d : nat) (reads : list string) (m : string) : nat :=
  List.length (filter (fun seq => m ∈ sequence_candidates l d seq) reads).

(** [self.motifs] after the list comprehension, before [sort]. *)
Definition select (n_reads : nat) (st : state) : list string :=
  (map_to_list (filter (fun kv => kv.2 = n_reads) (motif_counts st))).*1.

(** [Ems1.search]: the sorted list [self.motifs]. *)
Definition search (l d : nat) (reads : list string) : list string :=
  let n_reads := List.length reads in
  merge_sort String.le (select n_reads (process_all l d reads)).

End Ems1.

(** ** motif_tree.py: the sharing-mask tries *)

(** [MotifTreeBase]: what the engine of [ems2.py] uses of a tree. *)
Class MotifTreeBase (T : Type) := {
  (** [TreeClass(max_depth, motifs, name)] *)
  tree_new : nat -> T;
  (** [tree.insert(motif)] *)
  tree_insert : T -> string -> Py.result T;
  (** [tree.intersect(other)] *)
  tree_intersect : T -> T -> Py.result T;
  (** [tree.traverse()]: the list left in [tree.motifs] *)
  tree_traverse : T -> Py.result (list string);
  (** the truth value of [tree.root['children']] in [if not ...] *)
  tree_root_children_truthy : T -> Py.result bool
}.

(** The tree of depth [max_depth] after [insert] of each motif of [ms]. *)
Definition build {T} `{MotifTreeBase T} (max_depth : nat) (ms : list string)
  : Py.result T :=
  Py.for_each ms (fun motif t => tree_insert t motif) (tree_new max_depth).

Module MotifTree.

Definition domain_size : nat := Utils.domain_size.

(** [self.mask = (1 << self.domain_size) - 1] *)
Definition mask : Z := Z.shiftl 1 (Z.of_nat domain_size) - 1.

(** [1 << j] and the test [info & (1 << j)]. *)
Definition bit (j : nat) : Z := Z.shiftl 1 (Z.of_nat j).
Definition has_bit (info : Z) (j : nat) : bool :=
  negb (Z.land info (bit j) =? 0).

(** [ch = int(motif[depth]) if motif[depth].isdigit() else WILDCARD_CODE] *)
Definition char_code (motif : string) (depth : nat) : Py.result Z :=
  c ← Py.index motif depth;
  if Py.isdigit c then Py.int c else Ok Utils.WILDCARD_CODE.

(** The letters of a sharing mask, as one-character strings. *)
Definition letters (info : Z) : list string :=
  omap (fun j => if has_bit info j then Some (Py.str (Z.of_nat j)) else None)
    (Py.range domain_size).

(** All strings [c ++ s] with [c] a letter of [info] and [s] in [tails]. *)
Definition product (info : Z) (tails : list string) : list string :=
  c ← letters info; s ← tails; [String.append c s].

(** The concretizations of a motif: the wildcard code stands for every
    letter of the alphabet, a letter for itself. *)
Fixpoint concretizations (motif : string) : list string :=
  match motif with
  | EmptyString => [EmptyString]
  | String c rest =>
      let heads :=
        if decide (Py.chr1 c = Py.str Utils.WILDCARD_CODE)
        then letters mask else [Py.chr1 c] in
      h ← heads; s ← concretizations rest; [String.append h s]
  end.

End MotifTree.

(** *** MotifTreeFast: nodes in a store, child slots may alias *)

Module MotifTreeFast.
Import MotifTree.

Definition addr := nat.

(** A node dictionary [{'children': [...], 'sharing_info': n}]. *)
Record node := Node {
  children : list (option addr);
  sharing_info : Z
}.

(** The nodes allocated so far, and the next free address. *)
Record store := Store {
  nodes : gmap addr node;
  next : addr
}.

(** A tree object: its nodes, [self.root] and [self.max_depth]. *)
Record tree := Tree {
  heap : store;
  root : addr;
  max_depth : nat
}.

(** Computations on the store that may raise. *)
Definition M (A : Type) : Type := store -> Py.result (A * store).

Definition ret {A} (a : A) : M A := fun h => Ok (a, h).
Definition bind {A B} (m : M A) (k : A -> M B) : M B :=
  fun h => match m h with
           | Py.Ok (a, h') => k a h'
           | Py.Raise e => Raise e
           end.
Definition lift {A} (r : Py.result A) : M A :=
  fun h => match r with
           | Py.Ok a => Ok (a, h)
           | Py.Raise e => Raise e
           end.

#[export] Instance M_ret : MRet M := @ret.
#[export] Instance M_bind : MBind M := fun A B k m => bind m k.

(** [for x in xs: acc = body x acc] on the store. *)
Fixpoint for_each {X S} (xs : list X) (body : X -> S -> M S) (s : S) : M S :=
  match xs with
  | [] => ret s
  | x :: xs' => bind (body x s) (for_each xs' body)
  end.

(** [allocate_node_fast()] *)
Definition allocate_node_fast : M addr :=
  fun h =>
    let a := next h in
    Ok (a, Store (<[a := Node (replicate domain_size None) 0]> (nodes h)) (S a)).

Definition read (a : addr) : M node :=
  fun h => match nodes h !! a with
           | Some n => Ok (n, h)
           | None => Raise Py.IndexError
           end.

Definition write (a : addr) (n : node) : M unit :=
  fun h => Ok (tt, Store (<[a := n]> (nodes h)) (next h)).

(** [node['children'][j]] *)
Definition get_child (a : addr) (j : nat) : M (option addr) :=
  n ← read a;
  match children n !! j with
  | Some c => ret c
  | None => lift (Raise Py.IndexError)
  end.

(** [node['sharing_info']] *)
Definition get_sharing (a : addr) : M Z :=
  n ← read a; ret (sharing_info n).

(** [node['children'][j] = child] *)
Definition set_child (a : addr) (j : nat) (child : addr) : M unit :=
  n ← read a;
  if (j <? List.length (children n))%nat then
    write a (Node (<[j := Some child]> (children n)) (sharing_info n))
  else lift (Raise Py.IndexError).

(** [node['sharing_info'] = info] *)
Definition set_sharing (a : addr) (info : Z) : M unit :=
  n ← read a;
  write a (Node (children n) info).

(** [MotifTreeFast.insert_recursive]; [levels] is
    [self.max_depth - depth], so [levels = 0] is [depth >= self.max_depth]. *)
Fixpoint insert_recursive (levels : nat) (node : addr) (motif : string)
    (depth : nat) {struct levels} : M unit :=
  match levels with
  | O => ret tt
  | S levels' =>
      ch ← lift (char_code motif depth);
      if ch =? Utils.WILDCARD_CODE then
        current_info ←
          for_each (Py.range domain_size)
            (fun j current_info =>
               child_node ← get_child node j;
               match child_node with
               | Some child =>
                   if negb (has_bit current_info j) then
                     _ ← insert_recursive levels' child motif (depth + 1);
                     info ← get_sharing child;
                     ret (Z.lor current_info info)
                   else ret current_info
               | None => ret current_info
               end)
            0;
        let remaining := Z.land (Z.lnot current_info) mask in
        if negb (remaining =? 0) then
          new_node ← allocate_node_fast;
          _ ← set_sharing new_node remaining;
          _ ← for_each (Py.range domain_size)
                (fun j (_ : unit) =>
                   if has_bit remaining j then set_child node j new_node
                   else ret tt)
                tt;
          insert_recursive levels' new_node motif (depth + 1)
        else ret tt
      else
        let child_mask := Z.shiftl 1 ch in
        child_node ← get_child node (Z.to_nat ch);
        match child_node with
        | None =>
            new_node ← allocate_node_fast;
            _ ← set_sharing new_node child_mask;
            _ ← set_child node (Z.to_nat ch) new_node;
            insert_recursive levels' new_node motif (depth + 1)
        | Some child =>
            old_info ← get_sharing child;
            if negb (Z.land old_info (Z.lnot child_mask) =? 0) then
              let old_node := child in
              new_node ← allocate_node_fast;
              _ ← set_sharing new_node child_mask;
              _ ← set_sharing old_node (Z.land old_info (Z.lnot child_mask));
              _ ← set_child node (Z.to_nat ch) new_node;
              insert_recursive levels' new_node motif (depth + 1)
            else insert_recursive levels' child motif (depth + 1)
        end
  end.

(** [MotifTreeFast._empty_node] *)
Definition _empty_node (a : addr) : M bool :=
  n ← read a;
  ret (forallb (fun c => match c with None => true | Some _ => false end)
         (children n)).

(** The read-only view of a node of the other tree:
    [from_node['children'][j]] and its [sharing_info]. *)
Definition from_child (from_heap : store) (from_node : addr) (j : nat)
  : Py.result (option addr) :=
  match nodes from_heap !! from_node with
  | Some n =>
      match children n !! j with
      | Some c => Ok c
      | None => Raise Py.IndexError
      end
  | None => Raise Py.IndexError
  end.

Definition from_sharing (from_heap : store) (a : addr) : Py.result Z :=
  match nodes from_heap !! a with
  | Some n => Ok (sharing_info n)
  | None => Raise Py.IndexError
  end.

(** [MotifTreeFast.intersect_recursive]: [to_node] lives in the store of
    [self], [from_node] in the store [from_heap] of the other tree. *)
Fixpoint intersect_recursive (levels : nat) (from_heap : store)
    (to_node : addr) (from_node : option addr) (depth : nat) {struct levels}
  : M (option addr) :=
  match levels with
  | O => ret (Some to_node)
  | S levels' =>
      match from_node with
      | None => ret None
      | Some from_node =>
          new_to_node ← allocate_node_fast;
          _ ← for_each (Py.range domain_size)
                (fun j (_ : unit) =>
                   to_child_original ← get_child to_node j;
                   from_child_original ← lift (from_child from_heap from_node j);
                   match to_child_original with
                   | None => ret tt
                   | Some to_child =>
                       to_info_original ← get_sharing to_child;
                       from_info ←
                         match from_child_original with
                         | Some fc => lift (from_sharing from_heap fc)
                         | None => ret 0
                         end;
                       let common := Z.land to_info_original from_info in
                       if negb (common =? 0) then
                         intersected_child ←
                           intersect_recursive levels' from_heap to_child
                             from_child_original (depth + 1);
                         match intersected_child with
                         | Some ic =>
                             _ ← set_sharing ic common;
                             for_each (Py.range domain_size)
                               (fun k (_ : unit) =>
                                  if has_bit common k then
                                    _ ← set_child new_to_node k ic;
                                    info ← get_sharing new_to_node;
                                    set_sharing new_to_node (Z.lor info (bit k))
                                  else ret tt)
                               tt
                         | None => ret tt
                         end
                       else ret tt
                   end)
                tt;
          is_empty ← _empty_node new_to_node;
          if (is_empty : bool) then ret None else ret (Some new_to_node)
      end
  end.

(** [MotifTreeFast.traverse_recursive]: [x] is the buffer [self.x], the
    result the list [self.motifs]; the store is only read. *)
Fixpoint traverse_recursive (levels : nat) (h : store) (node : addr)
    (depth : nat) (x : list string) (motifs : list string) {struct levels}
  : Py.result (list string) :=
  match levels with
  | O => Ok (motifs ++ [Py.join x])
  | S levels' =>
      Py.for_each (Py.range domain_size)
        (fun i motifs =>
           n ← match nodes h !! node with
               | Some n => Ok n
               | None => Raise Py.IndexError
               end;
           match children n !! i with
           | Some (Some child_node) =>
               traverse_recursive levels' h child_node (depth + 1)
                 (<[depth := Py.str (Z.of_nat i)]> x) motifs
           | Some None => Ok motifs
           | None => Raise Py.IndexError
           end)
        motifs
  end.

(** [MotifTreeFast(max_depth, motifs, name)] *)
Definition new (max_depth : nat) : tree :=
  let root := 0%nat in
  Tree (Store {[ root := Node (replicate domain_size None) 0 ]} 1%nat) root max_depth.

Definition run (t : tree) (m : M addr) : Py.result tree :=
  match m (heap t) with
  | Py.Ok (r, h) => Ok (Tree h r (max_depth t))
  | Py.Raise e => Raise e
  end.

(** [MotifTreeBase.insert] *)
Definition insert (t : tree) (motif : string) : Py.result tree :=
  run t (_ ← insert_recursive (max_depth t) (root t) motif 0; ret (root t)).

(** [MotifTreeBase.intersect]: [new_root if new_root else allocator()] *)
Definition intersect (t other : tree) : Py.result tree :=
  run t (new_root ← intersect_recursive (max_depth t) (heap other) (root t)
                      (Some (root other)) 0;
         match new_root with
         | Some r => ret r
         | None => allocate_node_fast
         end).

(** [MotifTreeBase.traverse] *)
Definition traverse (t : tree) : Py.result (list string) :=
  traverse_recursive (max_depth t) (heap t) (root t) 0
    (replicate (max_depth t) EmptyString) [].

(** [bool(self.root['children'])]: a list is true when it is not empty. *)
Definition root_children_truthy (t : tree) : Py.result bool :=
  match nodes (heap t) !! root t with
  | Some n => Ok (negb (Nat.eqb (List.length (children n)) 0))
  | None => Raise Py.IndexError
  end.

(** The represented set, by sharing masks: the union over the child slots
    of the letters of the child's mask times the strings below it. *)
Fixpoint represented (levels : nat) (h : store) (a : addr) : list string :=
  match levels with
  | O => [EmptyString]
  | S levels' =>
      match nodes h !! a with
      | Some n =>
          c ← children n;
          match c with
          | Some child =>
              match nodes h !! child with
              | Some cn => product (sharing_info cn) (represented levels' h child)
              | None => []
              end
          | None => []
          end
      | None => []
      end
  end.

Definition strings (t : tree) : gset string :=
  list_to_set (represented (max_depth t) (heap t) (root t)).

End MotifTreeFast.

#[export] Instance MotifTreeFast_tree : MotifTreeBase MotifTreeFast.tree := {
  tree_new := MotifTreeFast.new;
  tree_insert := MotifTreeFast.insert;
  tree_intersect := MotifTreeFast.intersect;
  tree_traverse := MotifTreeFast.traverse;
  tree_root_children_truthy := MotifTreeFast.root_children_truthy
}.

(** *** MotifTreeSimple: a list of children per node

    A node of this variant is referenced from one place only (insertion
    appends a fresh node to one list, intersection builds fresh nodes around
    the child lists it keeps), and nothing is inserted below a node once it is
    shared, so the nodes are modelled as values. *)

Module MotifTreeSimple.
Import MotifTree.

(** A node dictionary [{'children': [...], 'sharing_info': n}]. *)
#[local] Unset Elimination Schemes.
Inductive node := Node {
  sharing_info : Z;
  children : list node
}.

Record tree := Tree {
  root : node;
  max_depth : nat
}.

(** [allocate_node_slow()] *)
Definition allocate_node_slow : node := Node 0 [].

(** [MotifTreeSimple.insert_recursive]; [levels] is
    [self.max_depth - depth].  [found] walks [node['children']] to the
    first child whose mask meets [target_info] and inserts below it. *)
Fixpoint insert_recursive (levels : nat) (node : node) (motif : string)
    (depth : nat) {struct levels} : Py.result MotifTreeSimple.node :=
  match levels with
  | O => Ok node
  | S levels' =>
      ch ← char_code motif depth;
      let target_info :=
        if ch =? Utils.WILDCARD_CODE then mask else Z.shiftl 1 ch in
      let fix found (cs : list MotifTreeSimple.node)
        : option (Py.result (list MotifTreeSimple.node)) :=
        match cs with
        | [] => None
        | child :: cs' =>
            if negb (Z.land (sharing_info child) target_info =? 0) then
              Some (child' ← insert_recursive levels' child motif (depth + 1);
                    Ok (child' :: cs'))
            else
              match found cs' with
              | Some r => Some (cs'' ← r; Ok (child :: cs''))
              | None => None
              end
        end in
      match found (children node) with
      | Some r =>
          cs ← r; Ok (Node (sharing_info node) cs)
      | None =>
          new_node ← insert_recursive levels' (Node target_info []) motif (depth + 1);
          Ok (Node (sharing_info node) (children node ++ [new_node]))
      end
  end.

(** The double loop of [intersect_recursive] over the children of
    [to_node] and [from_node]: the list [new_children], given the recursive
    call [rec] on a pair of children. *)
Definition new_children (rec : node -> node -> option node)
    (to_node from_node : node) : list node :=
  to_child ← children to_node;
  from_child ← children from_node;
  let common := Z.land (sharing_info to_child) (sharing_info from_child) in
  if negb (common =? 0) then
    match rec to_child from_child with
    | Some intersected_child => [Node common (children intersected_child)]
    | None => []
    end
  else [].

(** [MotifTreeSimple.intersect_recursive] *)
Fixpoint intersect_recursive (levels : nat) (to_node from_node : node)
    (depth : nat) {struct levels} : option node :=
  match levels with
  | O => Some to_node
  | S levels' =>
      match children from_node with
      | [] => None
      | _ :: _ =>
          let new_children :=
            new_children
              (fun to_child from_child =>
                 intersect_recursive levels' to_child from_child (depth + 1))
              to_node from_node in
          match new_children with
          | [] => None
          | _ :: _ => Some (Node 0 new_children)
          end
      end
  end.

(** [children_map]: for each letter the last child whose mask has it. *)
Definition children_map (cs : list node) : gmap nat node :=
  fold_left
    (fun m child =>
       fold_left
         (fun m j => if has_bit (sharing_info child) j then <[j := child]> m else m)
         (Py.range domain_size) m)
    cs ∅.

(** [MotifTreeSimple.traverse_recursive] *)
Fixpoint traverse_recursive (levels : nat) (node : node) (depth : nat)
    (x : list string) (motifs : list string) {struct levels} : list string :=
  match levels with
  | O => motifs ++ [Py.join x]
  | S levels' =>
      let cmap := children_map (children node) in
      fold_left
        (fun motifs i =>
           match cmap !! i with
           | Some child_node =>
               traverse_recursive levels' child_node (depth + 1)
                 (<[depth := Py.str (Z.of_nat i)]> x) motifs
           | None => motifs
           end)
        (Py.range domain_size) motifs
  end.

(** [MotifTreeSimple(max_depth, motifs, name)] *)
Definition new (max_depth : nat) : tree := Tree allocate_node_slow max_depth.

(** [MotifTreeBase.insert] *)
Definition insert (t : tree) (motif : string) : Py.result tree :=
  r ← insert_recursive (max_depth t) (root t) motif 0;
  Ok (Tree r (max_depth t)).

(** [MotifTreeBase.intersect] *)
Definition intersect (t other : tree) : Py.result tree :=
  match intersect_recursive (max_depth t) (root t) (root other) 0 with
  | Some new_root => Ok (Tree new_root (max_depth t))
  | None => Ok (Tree allocate_node_slow (max_depth t))
  end.

(** [MotifTreeBase.traverse] *)
Definition traverse (t : tree) : Py.result (list string) :=
  Ok (traverse_recursive (max_depth t) (root t) 0
        (replicate (max_depth t) EmptyString) []).

(** [bool(self.root['children'])] *)
Definition root_children_truthy (t : tree) : Py.result bool :=
  Ok (negb (Nat.eqb (List.length (children (root t))) 0)).

(** The represented set: the union over the children of the letters of
    the child's mask times the strings below it. *)
Fixpoint represented (levels : nat) (n : node) : list string :=
  match levels with
  | O => [EmptyString]
  | S levels' =>
      child ← children n;
      product (sharing_info child) (represented levels' child)
  end.

Definition strings (t : tree) : gset string :=
  list_to_set (represented (max_depth t) (root t)).

(** [r] is a correct result of intersecting two nodes [levels] above the
    leaves: a node for the common strings, or [None] when there are none. *)
Definition intersects (levels : nat) (to_node from_node : node)
    (r : option node) : Prop :=
  match r with
  | Some n =>
      forall s, s ∈ represented levels n <->
                s ∈ represented levels to_node /\ s ∈ represented levels from_node
  | None =>
      forall s, ~ (s ∈ represented levels to_node /\ s ∈ represented levels from_node)
  end.

(** Every mask below [n], down [levels] levels, is the mask of one
    letter: the tree holds no wildcard. *)
Fixpoint plain (levels : nat) (n : node) : Prop :=
  match levels with
  | O => True
  | S levels' =>
      Forall (fun child =>
                (exists j, (j < domain_size)%nat /\ sharing_info child = bit j)
                /\ plain levels' child)
        (children n)
  end.

(** No letter of the alphabet is in two of the masks. *)
Fixpoint disjoint_masks (masks : list Z) : Prop :=
  match masks with
  | [] => True
  | a :: masks' =>
      Forall (fun b => forall k, (k < domain_size)%nat ->
                                 has_bit a k = true -> has_bit b k = false)
        masks'
      /\ disjoint_masks masks'
  end.

(** Down [levels] levels below [n], no letter is in the masks of two
    children of a node. *)
Fixpoint separate (levels : nat) (n : node) : Prop :=
  match levels with
  | O => True
  | S levels' =>
      disjoint_masks (map sharing_info (children n))
      /\ Forall (separate levels') (children n)
  end.

(** The strings that [traverse_recursive] appends below [n]: for each
    letter in turn, those of the child that [children_map] holds for it. *)
Fixpoint listing (levels : nat) (n : node) : list string :=
  match levels with
  | O => [EmptyString]
  | S levels' =>
      i ← Py.range domain_size;
      match children_map (children n) !! i with
      | Some child_node =>
          map (String.append (Py.str (Z.of_nat i))) (listing levels' child_node)
      | None => []
      end
  end.

End MotifTreeSimple.

#[export] Instance MotifTreeSimple_tree : MotifTreeBase MotifTreeSimple.tree := {
  tree_new := MotifTreeSimple.new;
  tree_insert := MotifTreeSimple.insert;
  tree_intersect := MotifTreeSimple.intersect;
  tree_traverse := MotifTreeSimple.traverse;
  tree_root_children_truthy := MotifTreeSimple.root_children_truthy
}.

(** ** ems2.py: engines V2 and V2m, trie intersection *)

(** What a run of [search] leaves behind: the list [self.motifs] and the
    sequence indices printed by the [Processing sequence i] lines. *)
Record outcome := Outcome {
  motifs : list string;
  processed : list nat
}.

Module Ems2.

Section Engine.
Context {T : Type} `{MotifTreeBase T}.

(** [self.l] and [self.d]. *)
Variables l d : nat.

(** The part of the engine the enumeration mutates: [self.kmer] and the
    tree it inserts into. *)
Record state := State {
  kmer : string;
  tree : T
}.

Definition set_kmer (st : state) (k : string) : state := State k (tree st).

(** [self.l_target = str(WILDCARD_CODE)] *)
Definition l_target : string := Py.str Utils.WILDCARD_CODE.

(** The join of [c for c in current_kmer if c != '-']. *)
Fixpoint strip_deleted (s : string) : string :=
  match s with
  | EmptyString => EmptyString
  | String c s' =>
      if Ascii.eqb c "-" then strip_deleted s' else String c (strip_deleted s')
  end.

(** [t.replace('*', self.l_target)] *)
Fixpoint replace_star (s : string) : string :=
  match s with
  | EmptyString => EmptyString
  | String c s' =>
      if Ascii.eqb c "*" then String.append l_target (replace_star s')
      else String c (replace_star s')
  end.

(** [Ems2._gen_nbrhood_3]: insertions. *)
Fixpoint _gen_nbrhood_3 (alpha : nat) (st : state) {struct alpha}
  : Py.result state :=
  let current_kmer := kmer st in
  let current_len := Py.len current_kmer in
  match alpha with
  | O =>
      let t := strip_deleted current_kmer in
      let t := replace_star t in
      if (Py.len t =? l)%nat then
        tree' ← tree_insert (tree st) t;
        Ok (State (kmer st) tree')
      else Ok st
  | S alpha' =>
      Py.for_each (Py.range (current_len + 1))
        (fun j st =>
           if (j <? current_len)%nat
              && bool_decide (Py.char_at j current_kmer = "*"%string)
           then Ok st
           else
             let st := set_kmer st
               (String.append (Py.slice_to j current_kmer)
                  (String "*" (Py.slice_from j current_kmer))) in
             st ← _gen_nbrhood_3 alpha' st;
             Ok (set_kmer st current_kmer))
        st
  end.

(** [Ems2._gen_nbrhood_2]: substitutions. *)
Fixpoint _gen_nbrhood_2 (sigma alpha : nat) (st : state) {struct sigma}
  : Py.result state :=
  let current_kmer := kmer st in
  let current_len := Py.len current_kmer in
  match sigma with
  | O => _gen_nbrhood_3 alpha st
  | S sigma' =>
      Py.for_each (Py.range current_len)
        (fun j st =>
           if bool_decide (Py.char_at j current_kmer = "-"%string) then Ok st
           else
             let t := Py.char_at j current_kmer in
             let st := set_kmer st
               (String.append (Py.slice_to j current_kmer)
                  (String "*" (Py.slice_from (j + 1) current_kmer))) in
             st ← _gen_nbrhood_2 sigma' alpha st;
             Ok (set_kmer st
                   (String.append (Py.slice_to j current_kmer)
                      (String.append t (Py.slice_from (j + 1) current_kmer)))))
        st
  end.

(** [Ems2._gen_nbrhood]: deletions; the backtracking line reads
    [self.kmer] as the recursion left it. *)
Fixpoint _gen_nbrhood (delta sigma alpha : nat) (st : state) {struct delta}
  : Py.result state :=
  let current_kmer := kmer st in
  let current_len := Py.len current_kmer in
  match delta with
  | O => _gen_nbrhood_2 sigma alpha st
  | S delta' =>
      Py.for_each (Py.range current_len)
        (fun j st =>
           let original_char := Py.char_at j current_kmer in
           let st := set_kmer st
             (String.append (Py.slice_to j current_kmer)
                (String "-" (Py.slice_from (j + 1) current_kmer))) in
           st ← _gen_nbrhood delta' sigma alpha st;
           Ok (set_kmer st
                 (String.append (Py.slice_to j current_kmer)
                    (String.append original_char (Py.slice_from (j + 1) (kmer st))))))
        st
  end.

(** [Ems2._gen_all]; [delta], [alpha] and [sigma] are never negative
    within the ranges of the loops. *)
Definition _gen_all (seq : string) (st : state) : Py.result state :=
  let m := Py.len seq in
  Py.for_each (Py.rangeZ (- Z.of_nat d) (Z.of_nat d + 1))
    (fun q st =>
       let k := Z.of_nat l + q in
       if (k <=? 0) || (Z.of_nat m <? k) then Ok st
       else
         let k := Z.to_nat k in
         Py.for_each (Py.rangeZ (Z.max 0 q) ((Z.of_nat d + q) / 2 + 1))
           (fun delta st =>
              let alpha := delta - q in
              let sigma := Z.of_nat d - alpha - delta in
              Py.for_each (Py.range (m - k + 1))
                (fun i st =>
                   let st := set_kmer st (Py.slice i (i + k) seq) in
                   _gen_nbrhood (Z.to_nat delta) (Z.to_nat sigma) (Z.to_nat alpha) st)
                st)
           st)
    st.

(** [_gen_all(seq, tree)] for a given tree: the tree afterwards. *)
Definition gen_tree (seq : string) (t : T) : Py.result T :=
  st ← _gen_all seq (State EmptyString t); Ok (tree st).

(** The loop [for i in range(1, len(self.reads))] of [search], from
    sequence [i] on; [log] holds the indices printed so far. *)
Fixpoint search_loop (i : nat) (reads : list string) (main_tree : T)
    (log : list nat) : Py.result outcome :=
  match reads with
  | [] =>
      ms ← tree_traverse main_tree;
      Ok (Outcome (merge_sort String.le ms) log)
  | seq :: reads' =>
      let log := log ++ [i] in
      tmp_tree ← gen_tree seq (tree_new l);
      main_tree ← tree_intersect main_tree tmp_tree;
      truthy ← tree_root_children_truthy main_tree;
      if negb truthy then Ok (Outcome [] log)
      else search_loop (S i) reads' main_tree log
  end.

(** [self.main_tree] after the sequences [reads] have been intersected
    in without the run stopping; [None] when it stopped or raised. *)
Fixpoint main_tree_after (reads : list string) (main_tree : T) : option T :=
  match reads with
  | [] => Some main_tree
  | seq :: reads' =>
      match (tmp_tree ← gen_tree seq (tree_new l);
             main_tree ← tree_intersect main_tree tmp_tree;
             truthy ← tree_root_children_truthy main_tree;
             Ok (main_tree, truthy)) with
      | Py.Ok (main_tree, true) => main_tree_after reads' main_tree
      | _ => None
      end
  end.

(** [Ems2.search] *)
Definition search (reads : list string) : Py.result outcome :=
  match reads with
  | [] => Ok (Outcome [] [])
  | seq0 :: reads' =>
      main_tree ← gen_tree seq0 (tree_new l);
      search_loop 1 reads' main_tree [0%nat]
  end.

End Engine.

(** A tree that only records the motifs handed to [insert], in order: it
    shows what the enumeration emits. *)
Definition recorder : MotifTreeBase (list string) := {|
  tree_new := fun _ => [];
  tree_insert := fun t motif => Ok (t ++ [motif]);
  tree_intersect := fun t _ => Ok t;
  tree_traverse := fun t => Ok t;
  tree_root_children_truthy := fun t => Ok true
|}.

(** The motifs [_gen_all] inserts on behalf of one k-mer [x]: the calls
    [_gen_nbrhood(delta, sigma, alpha, tree)] it makes with
    [self.kmer = x], for [delta] through its range. *)
Definition emitted (l d : nat) (x : string) : Py.result (list string) :=
  let q := Z.of_nat (Py.len x) - Z.of_nat l in
  st ← Py.for_each (Py.rangeZ (Z.max 0 q) ((Z.of_nat d + q) / 2 + 1))
         (fun delta st =>
            let alpha := delta - q in
            let sigma := Z.of_nat d - alpha - delta in
            @_gen_nbrhood _ recorder l (Z.to_nat delta) (Z.to_nat sigma)
              (Z.to_nat alpha) (set_kmer st x))
         (State x []);
  Ok (tree st).

(** The strings the emissions for [x] stand for: every wildcard replaced by
    every letter. *)
Definition emitted_set (l d : nat) (x : string) : Py.result (gset string) :=
  ts ← emitted l d x;
  Ok (list_to_set (t ← ts; MotifTree.concretizations t)).

(** All [(l, d, x)] with [1 <= l <= L], [d <= D] and [x] an encoded string
    of length [k], [1 <= k <= K] and [l - d <= k <= l + d]. *)
Definition small_cases (K L D : nat) : list (nat * nat * string) :=
  l ← seq 1 L; d ← seq 0 (S D); k ← seq 1 K;
  if ((l - d <=? k) && (k <=? l + d))%nat then
    x ← Utils.all_strings k; [(l, d, x)]
  else [].

(** The two versions of [TREE_MAP]. *)
Definition ems2 := @search MotifTreeFast.tree _.
Definition ems2m := @search MotifTreeSimple.tree _.

(** [tree.insert(m)] for each motif of [ms] in turn. *)
Definition insert_all {T} `{MotifTreeBase T} (ms : list string) (t : T)
  : Py.result T :=
  Py.for_each ms (fun motif t => tree_insert t motif) t.

(** A step of the enumeration that, whatever the tree class, inserts the
    motifs [new] in order, all of length [l], and leaves [k'] in
    [self.kmer]; [r] is its result on the recording tree from [st]. *)
Definition inserts (l : nat) (st : @state (list string))
    (r : Py.result (@state (list string)))
    (f : forall T, MotifTreeBase T -> @state T -> Py.result (@state T))
    (new : list string) (k' : string) : Prop :=
  r = Ok (State k' (tree st ++ new))
  /\ Forall (fun m => Py.len m = l) new
  /\ forall T (H : MotifTreeBase T) (s : @state T),
       kmer s = kmer st ->
       f T H s = (t' ← insert_all new (tree s); Ok (State k' t')).

(** The strings of the tree that [_gen_all] builds for [seq] from a new
    [MotifTreeSimple] of depth [l]. *)
Definition tree_strings (l d : nat) (seq : string) : gset string :=
  match @gen_tree MotifTreeSimple.tree _ l d seq (MotifTreeSimple.new l) with
  | Py.Ok t => MotifTreeSimple.strings t
  | Py.Raise _ => ∅
  end.

End Ems2.

(** ** ems2p.py: engine V2P, packed keys, sharded sort and merge *)

Module Ems2p.

Definition domain_size : nat := Utils.domain_size.

(** *** NbdGenerator *)

(** The fields of a generator that its methods change: [self.x],
    [self.expanded_count], and the two output lists it shares with its
    caller. *)
Record generator := Generator {
  x : string;
  curr_array : list Z;
  curr_aux_array : list Z;
  expanded_count : Z
}.

Definition set_x (g : generator) (x' : string) : generator :=
  Generator x' (curr_array g) (curr_aux_array g) (expanded_count g).

(** The join of [str(c) if c != '-' else '' for c in self.x]. *)
Fixpoint strip_deleted (s : string) : string :=
  match s with
  | EmptyString => EmptyString
  | String c s' =>
      if Ascii.eqb c "-" then strip_deleted s' else String c (strip_deleted s')
  end.

Section Generator.
(** [self.l], [self.d] *)
Variables l d : nat.

(** [NbdGenerator._gen_nbrhood_3] *)
Fixpoint _gen_nbrhood_3 (alpha : nat) (count : Z) (g : generator)
    {struct alpha} : Py.result generator :=
  let current_len := Py.len (x g) in
  match alpha with
  | O =>
      if (current_len =? l)%nat then
        let motif_encoded_str := strip_deleted (x g) in
        if (Py.len motif_encoded_str =? l)%nat then
          m ← MotifData.Motif motif_encoded_str;
          a ← MotifData.Auxif motif_encoded_str Utils.WILDCARD_CODE;
          Ok (Generator (x g) (curr_array g ++ [m]) (curr_aux_array g ++ [a])
                (expanded_count g + count))
        else Ok g
      else Ok g
  | S alpha' =>
      Py.for_each (Py.range (current_len + 1))
        (fun j g =>
           let temp_x :=
             String.append (Py.slice_to j (x g))
               (String.append (Py.str Utils.WILDCARD_CODE) (Py.slice_from j (x g))) in
           let old_x := x g in
           g ← _gen_nbrhood_3 alpha' (count * Z.of_nat domain_size) (set_x g temp_x);
           Ok (set_x g old_x))
        g
  end.

(** [NbdGenerator._gen_nbrhood_2] *)
Fixpoint _gen_nbrhood_2 (sigma alpha : nat) (count : Z) (g : generator)
    {struct sigma} : Py.result generator :=
  let current_len := Py.len (x g) in
  match sigma with
  | O => _gen_nbrhood_3 alpha count g
  | S sigma' =>
      Py.for_each (Py.range current_len)
        (fun j g =>
           c ← Py.index (x g) j;
           if Ascii.eqb c "-" then Ok g
           else
             let old_x := x g in
             let g := set_x g
               (String.append (Py.slice_to j (x g))
                  (String.append (Py.str Utils.WILDCARD_CODE)
                     (Py.slice_from (j + 1) (x g)))) in
             g ← _gen_nbrhood_2 sigma' alpha (count * Z.of_nat domain_size) g;
             Ok (set_x g old_x))
        g
  end.

(** [NbdGenerator._gen_nbrhood]: the character is removed, and the
    backtracking line is [old_x[:j] + original_char + old_x[j:]]. *)
Fixpoint _gen_nbrhood (delta sigma alpha : nat) (count : Z) (g : generator)
    {struct delta} : Py.result generator :=
  let current_len := Py.len (x g) in
  match delta with
  | O => _gen_nbrhood_2 sigma alpha count g
  | S delta' =>
      Py.for_each (Py.range current_len)
        (fun j g =>
           original_char ← Py.index (x g) j;
           let old_x := x g in
           let g := set_x g
             (String.append (Py.slice_to j (x g)) (Py.slice_from (j + 1) (x g))) in
           g ← _gen_nbrhood delta' sigma alpha count g;
           Ok (set_x g
                 (String.append (Py.slice_to j old_x)
                    (String original_char (Py.slice_from j old_x)))))
        g
  end.

(** [NbdGenerator.generate], for the generator built on the k-mer
    [x0] and the lists [curr_array], [curr_aux_array]. *)
Definition generate (x0 : string) (curr curr_aux : list Z)
  : Py.result generator :=
  let k := Py.len x0 in
  let q := Z.of_nat k - Z.of_nat l in
  Py.for_each (Py.rangeZ (Z.max 0 q) ((Z.of_nat d + q) / 2 + 1))
    (fun delta g =>
       let alpha := delta - q in
       let sigma := Z.of_nat d - alpha - delta in
       _gen_nbrhood (Z.to_nat delta) (Z.to_nat sigma) (Z.to_nat alpha) 1 g)
    (Generator x0 curr curr_aux 0).

(** The keys a fresh generator on [x0] appends, unpacked to length [l]:
    the strings it emits. *)
Definition emitted (x0 : string) : Py.result (list string) :=
  g ← generate x0 [] [];
  Py.for_each (curr_array g)
    (fun m ms => s ← MotifData.get_kmer m l; Ok (ms ++ [s])) [].

End Generator.

(** *** Sorting, intersection and merging of key lists *)

(** The loop that removes duplicates from the sorted list; [last] is
    [last_motif_data], initially [-1]. *)
Fixpoint dedupe (combined_data : list Z) (last : Z) : list Z :=
  match combined_data with
  | [] => []
  | m :: rest =>
      if negb (m =? last) then m :: dedupe rest m else dedupe rest last
  end.

(** The two-pointer loop of [_radix_sort_and_intersect]. *)
Fixpoint intersect_sorted (main_array_data : list Z) : list Z -> list Z :=
  match main_array_data with
  | [] => fun _ => []
  | main_motif :: main' =>
      fix inner (sorted_motifs : list Z) : list Z :=
        match sorted_motifs with
        | [] => []
        | sorted_motif :: sorted' =>
            if main_motif <? sorted_motif then intersect_sorted main' sorted_motifs
            else if sorted_motif <? main_motif then inner sorted'
            else main_motif :: intersect_sorted main' sorted'
        end
  end.

(** [_radix_sort_and_intersect] *)
Definition _radix_sort_and_intersect (main_array_data curr_array : list Z)
    (compact_count : nat) : list Z :=
  let combined_data := merge_sort Z.le (take compact_count curr_array) in
  let sorted_motifs := dedupe combined_data (-1) in
  match main_array_data with
  | [] => sorted_motifs
  | _ :: _ => intersect_sorted main_array_data sorted_motifs
  end.

(** [if not c or motif_to_add != c[-1]: c.append(motif_to_add)] *)
Definition push (c : list Z) (motif_to_add : Z) : list Z :=
  match list.last c with
  | Some y => if motif_to_add =? y then c else c ++ [motif_to_add]
  | None => c ++ [motif_to_add]
  end.

(** The loop of [Ems2p._merge_motifs], from the positions reached in [a]
    and [b] and the list [c] built so far. *)
Fixpoint merge_from (a : list Z) : list Z -> list Z -> list Z :=
  match a with
  | [] => fun b c => fold_left push b c
  | ai :: a' =>
      fix inner (b : list Z) (c : list Z) : list Z :=
        match b with
        | [] => merge_from a' [] (push c ai)
        | bj :: b' =>
            if ai <? bj then merge_from a' b (push c ai)
            else if bj <? ai then inner b' (push c bj)
            else merge_from a' b' (push c ai)
        end
  end.

Definition _merge_motifs (a b : list Z) : list Z := merge_from a b [].

(** One pass of the binary merging tree: [next_arrays]. *)
Fixpoint merge_pass (current_arrays : list (list Z)) : list (list Z) :=
  match current_arrays with
  | a :: b :: rest => _merge_motifs a b :: merge_pass rest
  | _ => current_arrays
  end.

(** [while len(current_arrays) > 1]; a pass shortens the list, so
    [len(current_arrays)] passes are enough. *)
Fixpoint merge_tree (passes : nat) (current_arrays : list (list Z))
  : list (list Z) :=
  match passes with
  | O => current_arrays
  | S passes' =>
      if (1 <? List.length current_arrays)%nat
      then merge_tree passes' (merge_pass current_arrays)
      else current_arrays
  end.

Section Engine.
(** [random.seed(42); random.shuffle(self.works)]: the permutation that
    the seeded generator applies to the work list. *)
Variable shuffle : list (nat * nat) -> list (nat * nat).

(** [self.l], [self.d], [self.params.num_threads] *)
Variables (l d : nat) (num_threads : nat).

(** [Worker.__init__]: the list [self.works] before and after the
    shuffle. *)
Definition work_items (seq : string) : list (nat * nat) :=
  let m := Py.len seq in
  k ← Py.rangeZ (Z.of_nat l - Z.of_nat d) (Z.of_nat l + Z.of_nat d + 1);
  if (0 <? k) && (k <=? Z.of_nat m) then
    i ← Py.range (m - Z.to_nat k + 1); [(i, Z.to_nat k)]
  else [].

Definition works (seq : string) : list (nat * nat) :=
  shuffle (work_items seq).

(** The candidate keys a segment of the work list appends to
    [curr_array], before sorting. *)
Definition segment_candidates (seq : string) (segment : list (nat * nat))
  : Py.result (list Z * list Z) :=
  Py.for_each segment
    (fun '(i, k) '(curr_array, curr_aux_array) =>
       let x := Py.slice i (i + k) seq in
       g ← generate l d x curr_array curr_aux_array;
       Ok (Ems2p.curr_array g, Ems2p.curr_aux_array g))
    ([], []).

(** [Worker.process_segment] *)
Definition process_segment (seq : string) (main_array : list Z)
    (start end_ : nat) : Py.result (list Z) :=
  '(curr_array, _) ← segment_candidates seq
                       (take (end_ - start) (drop start (works seq)));
  let compact_count := List.length curr_array in
  Ok (_radix_sort_and_intersect main_array curr_array compact_count).

(** The list [tasks] of [_gen_all]. *)
Definition tasks (total_load ind_load : nat) : list (nat * nat) :=
  (fold_left
     (fun '(tasks, start) _ =>
        let pos := Nat.min (start + ind_load) total_load in
        (if (start <? pos)%nat then tasks ++ [(start, pos)] else tasks, pos))
     (Py.range num_threads) ([], 0%nat)).1.

(** [Ems2p._gen_all]: the new value of [self.main_array]. *)
Definition _gen_all (seq : string) (main_array : list Z)
  : Py.result (list Z) :=
  let total_load := List.length (works seq) in
  if (num_threads =? 0)%nat then Raise Py.ZeroDivisionError
  else
    let ind_load := ((total_load + num_threads - 1) / num_threads)%nat in
    results ← Py.for_each (tasks total_load ind_load)
                (fun '(start, end_) results =>
                   r ← process_segment seq main_array start end_;
                   Ok (results ++ [r]))
                [];
    let current_arrays :=
      filter (fun r : list Z => r ≠ []) results in
    let current_arrays := merge_tree (List.length current_arrays) current_arrays in
    match current_arrays with
    | first :: _ => Ok first
    | [] => match main_array with
            | [] => Ok []
            | _ :: _ => Ok main_array
            end
    end.

(** The loop of [Ems2p.search], from sequence [i] on. *)
Fixpoint search_loop (i : nat) (reads : list string) (main_array : list Z)
    (log : list nat) : Py.result outcome :=
  match reads with
  | [] =>
      ms ← Py.for_each main_array
             (fun m ms => s ← MotifData.get_kmer m l; Ok (ms ++ [s])) [];
      Ok (Outcome (merge_sort String.le ms) log)
  | seq :: reads' =>
      let log := log ++ [i] in
      main_array ← _gen_all seq main_array;
      match main_array with
      | [] => Ok (Outcome [] log)
      | _ :: _ => search_loop (S i) reads' main_array log
      end
  end.

(** [self.main_array] after the sequences [reads] have been processed
    without the run stopping; [None] when it stopped or raised. *)
Fixpoint main_array_after (reads : list string) (main_array : list Z)
  : option (list Z) :=
  match reads with
  | [] => Some main_array
  | seq :: reads' =>
      match _gen_all seq main_array with
      | Py.Ok (m :: ms) => main_array_after reads' (m :: ms)
      | _ => None
      end
  end.

(** [Ems2p.search] *)
Definition search (reads : list string) : Py.result outcome :=
  search_loop 0 reads [] [].

End Engine.

(** [g'] is [g] with keys below [4 ^ l] appended to [curr_array], and as
    many entries appended to [curr_aux_array]. *)
Definition appended (l : nat) (g g' : generator) : Prop :=
  exists new new_aux,
    curr_array g' = (curr_array g ++ new)%list
    /\ curr_aux_array g' = (curr_aux_array g ++ new_aux)%list
    /\ List.length new = List.length new_aux
    /\ Forall (fun m => 0 <= m < 2 ^ (2 * Z.of_nat l)) new.

(** [curr_array] of a fresh generator on [x0] after [generate()]: the keys
    generated for the k-mer [x0]. *)
Definition generated (l d : nat) (x0 : string) : list Z :=
  match generate l d x0 [] [] with
  | Py.Ok g => curr_array g
  | Py.Raise _ => []
  end.

(** The state of a generator whose lists started as [curr], [curr_aux] is
    that of one whose lists started empty, with [curr], [curr_aux] in
    front. *)
Definition framed (curr curr_aux : list Z) (g1 g2 : generator) : Prop :=
  x g1 = x g2
  /\ curr_array g1 = (curr ++ curr_array g2)%list
  /\ curr_aux_array g1 = (curr_aux ++ curr_aux_array g2)%list
  /\ expanded_count g1 = expanded_count g2.

(** The keys generated for the work items [segment] of [seq], in order. *)
Definition segment_keys (l d : nat) (seq : string) (segment : list (nat * nat))
  : list Z :=
  w ← segment; generated l d (Py.slice w.1 (w.1 + w.2) seq).


End Ems2p.

(** * Properties *)

(** Closed goals are decided by evaluation. *)
Ltac eval_eq := vm_compute; reflexivity.
Ltac eval_neq :=
  lazymatch goal with
  | |- ?a <> ?b => apply (bool_decide_eq_false_1 (a = b)); vm_compute; reflexivity
  | |- ?a = ?b -> False => apply (bool_decide_eq_false_1 (a = b)); vm_compute; reflexivity
  | |- ?a ∉ ?b => apply (bool_decide_eq_false_1 (a ∈ b)); vm_compute; reflexivity
  end.
Ltac eval_in :=
  lazymatch goal with
  | |- ?a ∈ ?b => apply (bool_decide_eq_true_1 (a ∈ b)); vm_compute; reflexivity
  end.
Ltac eval_all := repeat split; first [eval_eq | eval_neq | eval_in].


(** ** Packed keys (motif_data.py) *)

Section PackedKeys.
Import MotifData.

Lemma for_each_map {X Y S} (g : X -> Y) (xs : list X)
    (body : Y -> S -> Py.result S) (s : S) :
  Py.for_each (map g xs) body s = Py.for_each xs (fun x => body (g x)) s.
Proof.
  revert s. induction xs as [|x xs IH]; intros s; simpl; [done|].
  destruct (body (g x) s); simpl; auto.
Qed.

Lemma for_each_ext {X S} (xs : list X) (f g : X -> S -> Py.result S) (s : S) :
  (forall x s', f x s' = g x s') -> Py.for_each xs f s = Py.for_each xs g s.
Proof.
  intros Hfg. revert s. induction xs as [|x xs IH]; intros s; simpl; [done|].
  rewrite Hfg. destruct (g x s); simpl; auto.
Qed.

Lemma pack_loop_lor (x : string) (n : nat) (ixs : list nat) (d : Z) :
  Py.for_each ixs (set_from_kmer_step x n) d =
    r ← Py.for_each ixs (set_from_kmer_step x n) 0; Ok (Z.lor d r).
Proof.
  revert d. induction ixs as [|i ixs IH]; intros d; simpl.
  - by rewrite Z.lor_0_r.
  - unfold set_from_kmer_step at 1 3.
    destruct (Py.index x i) as [c|e]; simpl; [|done].
    destruct (Py.int c) as [v|e]; simpl; [|done].
    rewrite IH. rewrite (IH (Z.lor 0 _)).
    destruct (Py.for_each ixs (set_from_kmer_step x n) 0) as [r|e]; simpl; [|done].
    unfold mbind, result_bind; simpl.
    by rewrite Z.lor_0_l, Z.lor_assoc.
Qed.

Lemma set_from_kmer_cons (c : ascii) (s : string) :
  set_from_kmer (String c s) =
    v ← Py.int c;
    r ← set_from_kmer s;
    Ok (Z.lor (Z.shiftl (Z.land v 3) (2 * Z.of_nat (Py.len s))) r).
Proof.
  unfold set_from_kmer.
  change (Py.len (String c s)) with (S (Py.len s)).
  unfold Py.range. simpl seq. simpl Py.for_each.
  unfold set_from_kmer_step at 1. simpl.
  destruct (Py.int c) as [v|e]; simpl; [|done].
  rewrite <- seq_shift, for_each_map.
  rewrite (for_each_ext _ _ (set_from_kmer_step s (Py.len s))).
  2:{ intros i d. unfold set_from_kmer_step. simpl.
      replace (Py.len s - 0 - S i)%nat with (Py.len s - 1 - i)%nat by lia. done. }
  rewrite pack_loop_lor.
  replace (Py.len s - 0 - 0)%nat with (Py.len s) by lia.
  by rewrite Z.lor_0_l.
Qed.

Lemma len_replace_at (i : nat) (c : ascii) (s : string) :
  (i < Py.len s)%nat -> Py.len (replace_at i c s) = Py.len s.
Proof.
  revert i. induction s as [|a s IH]; intros i Hi; simpl in *; [lia|].
  destruct i as [|i]; simpl; [done|].
  f_equal. apply (IH i). lia.
Qed.

Lemma get_Some_lt (s : string) (i : nat) (c : ascii) :
  String.get i s = Some c -> (i < Py.len s)%nat.
Proof.
  revert i. induction s as [|b s IH]; intros i Hi; simpl in *; [done|].
  destruct i as [|i]; [lia|]. apply IH in Hi. lia.
Qed.

(** C10: [set_from_kmer] keeps the low two bits of each code, so a string
    with the wildcard code ['4'] at position [i] packs to the same integer
    as the string with ['0'] there: packing is not injective. *)
Theorem wildcard_packs_as_letter_0 (s : string) (i : nat) :
  String.get i s = Some "4"%char ->
  set_from_kmer (replace_at i "0" s) = set_from_kmer s
  /\ replace_at i "0" s <> s.
Proof.
  revert i. induction s as [|a s IH]; intros i Hi; [done|].
  destruct i as [|i]; simpl in Hi.
  - injection Hi as ->.
    change (replace_at 0 "0" (String "4" s)) with (String "0" s).
    split; [|done].
    rewrite !set_from_kmer_cons. reflexivity.
  - destruct (IH i Hi) as [Heq Hne].
    change (replace_at (S i) "0" (String a s)) with (String a (replace_at i "0" s)).
    split; [|congruence].
    rewrite !set_from_kmer_cons, Heq, len_replace_at; [done|].
    by apply get_Some_lt in Hi.
Qed.

Lemma wildcard_packs_as_letter_0_witness :
  set_from_kmer (replace_at 1 "0" "142") = set_from_kmer "142"
  /\ replace_at 1 "0" "142" <> "142"%string.
Proof. apply wildcard_packs_as_letter_0. reflexivity. Defined.

Lemma fill_by_index {A} (f : nat -> A) (n : nat) :
  forall (a : nat) (l : list A),
    List.length l = (a + n)%nat ->
    fold_left (fun codes i => <[i := f i]> codes) (seq a n) l =
      take a l ++ map f (seq a n).
Proof.
  induction n as [|n IH]; intros a l Hl; simpl.
  - rewrite take_ge by lia. by rewrite app_nil_r.
  - rewrite IH by (rewrite length_insert; lia).
    rewrite (take_S_r _ _ (f a)) by (apply list_lookup_insert_eq; lia).
    rewrite take_insert_ge by lia. by rewrite <- app_assoc.
Qed.

Lemma get_kmer_unfold (data : Z) (k : nat) :
  (k <= MAX_L)%nat ->
  get_kmer data k = Ok (Py.join (map (fun i => Py.str (get_code data k i)) (seq 0 k))).
Proof.
  intros Hk. unfold get_kmer.
  destruct (Nat.ltb_spec MAX_L k) as [?|_]; [lia|].
  unfold Py.range.
  rewrite (fill_by_index (fun i => Py.str (get_code data k i)) k 0).
  - done.
  - by rewrite length_replicate.
Qed.

Lemma digit_char_value (c : ascii) (v : Z) :
  Py.digit_value c = Some v -> Py.digit_char v = c /\ 0 <= v <= 9.
Proof.
  unfold Py.digit_value, Py.digit_char. intros H.
  destruct (Nat.leb_spec 48 (nat_of_ascii c)); simpl in H; [|done].
  destruct (Nat.leb_spec (nat_of_ascii c) 57); simpl in H; [|done].
  injection H as <-. split; [|lia].
  rewrite Nat2Z.id.
  replace (48 + (nat_of_ascii c - 48))%nat with (nat_of_ascii c) by lia.
  apply ascii_nat_embedding.
Qed.

Lemma shiftl_land_3 (v n : Z) : 2 <= n -> Z.land (Z.shiftl v n) 3 = 0.
Proof.
  intros Hn. change 3 with (Z.ones 2).
  rewrite Z.land_ones by lia. rewrite Z.shiftl_mul_pow2 by lia.
  replace n with ((n - 2) + 2) by lia.
  rewrite Z.pow_add_r by lia. rewrite Z.mul_assoc.
  apply Z.mod_mul. lia.
Qed.

(** The code read back at position [S i] of a key with one more leading
    letter is the code at position [i] of the shorter key. *)
Lemma get_code_tail (v r : Z) (n i : nat) :
  (i < n)%nat ->
  get_code (Z.lor (Z.shiftl v (2 * Z.of_nat n)) r) (S n) (S i) = get_code r n i.
Proof.
  intros Hi. unfold get_code.
  replace (S n - 1 - S i)%nat with (n - 1 - i)%nat by lia.
  rewrite Z.shiftr_lor, Z.land_lor_distr_l.
  rewrite Z.shiftr_shiftl_l by lia.
  rewrite shiftl_land_3 by lia. by rewrite Z.lor_0_l.
Qed.

Lemma get_code_head (v r : Z) (n : nat) :
  0 <= v < 4 -> 0 <= r < 2 ^ (2 * Z.of_nat n) ->
  get_code (Z.lor (Z.shiftl v (2 * Z.of_nat n)) r) (S n) 0 = v.
Proof.
  intros Hv Hr. unfold get_code.
  replace (S n - 1 - 0)%nat with n by lia.
  rewrite Z.shiftr_lor, Z.land_lor_distr_l.
  rewrite Z.shiftr_shiftl_l by lia. rewrite Z.sub_diag, Z.shiftl_0_r.
  rewrite (Z.shiftr_div_pow2 r) by lia. rewrite (Z.div_small r) by lia.
  rewrite Z.land_0_l, Z.lor_0_r.
  change 3 with (Z.ones 2). rewrite Z.land_ones by lia.
  apply Z.mod_small. lia.
Qed.

Lemma lor_key_bound (v r : Z) (n : nat) :
  0 <= v < 4 -> 0 <= r < 2 ^ (2 * Z.of_nat n) ->
  0 <= Z.lor (Z.shiftl v (2 * Z.of_nat n)) r < 2 ^ (2 * Z.of_nat (S n)).
Proof.
  intros Hv Hr.
  assert (0 <= Z.shiftl v (2 * Z.of_nat n)) as H0 by (apply Z.shiftl_nonneg; lia).
  split; [apply Z.lor_nonneg; lia|].
  destruct (Z.eq_dec (Z.lor (Z.shiftl v (2 * Z.of_nat n)) r) 0) as [->|Hnz].
  { apply Z.pow_pos_nonneg; lia. }
  apply Z.log2_lt_pow2; [pose proof (Z.lor_nonneg (Z.shiftl v (2 * Z.of_nat n)) r); lia|].
  rewrite Z.log2_lor by lia.
  apply Z.max_lub_lt.
  - destruct (Z.eq_dec v 0) as [->|Hv0].
    + rewrite Z.shiftl_0_l. simpl. lia.
    + rewrite Z.log2_shiftl by lia.
      assert (Z.log2 v < 2) by (apply Z.log2_lt_pow2; lia). lia.
  - destruct (Z.eq_dec r 0) as [->|Hr0]; [simpl; lia|].
    assert (Z.log2 r < 2 * Z.of_nat n) by (apply Z.log2_lt_pow2; lia). lia.
Qed.

Lemma pack_unpack (s : string) :
  Utils.encoded s ->
  exists d, set_from_kmer s = Ok d
    /\ 0 <= d < 2 ^ (2 * Z.of_nat (Py.len s))
    /\ Py.join (map (fun i => Py.str (get_code d (Py.len s) i)) (seq 0 (Py.len s))) = s.
Proof.
  induction s as [|c s IH]; intros Henc.
  - exists 0. repeat split; try done.
  - destruct Henc as [(v & Hv & Hrange) Henc].
    destruct (IH Henc) as (r & Hr & Hbound & Hjoin).
    change (Z.of_nat Utils.domain_size) with 4 in Hrange.
    assert (Z.land v 3 = v) as Hland.
    { change 3 with (Z.ones 2). rewrite Z.land_ones by lia. apply Z.mod_small. lia. }
    exists (Z.lor (Z.shiftl v (2 * Z.of_nat (Py.len s))) r).
    split; [|split].
    + rewrite set_from_kmer_cons. unfold Py.int. rewrite Hv. simpl.
      rewrite Hr. simpl. by rewrite Hland.
    + change (Py.len (String c s)) with (S (Py.len s)).
      by apply lor_key_bound.
    + change (Py.len (String c s)) with (S (Py.len s)).
      simpl seq. simpl map. rewrite get_code_head by done.
      rewrite <- seq_shift, map_map.
      rewrite (map_ext_in _ (fun i => Py.str (get_code r (Py.len s) i))).
      2:{ intros i Hi%in_seq. by rewrite get_code_tail by lia. }
      unfold Py.join in *. cbn [fold_right]. rewrite Hjoin.
      apply digit_char_value in Hv as [Hc _].
      unfold Py.str, Py.chr1. by rewrite Hc.
Qed.

(** C8: packing an encoded string of length at most 32 and unpacking the
    key to the same length gives the string back. *)
Theorem pack_unpack_roundtrip (s : string) :
  Utils.encoded s -> (Py.len s <= MAX_L)%nat ->
  (m ← Motif s; get_kmer m (Py.len s)) = Ok s.
Proof.
  intros Henc Hlen.
  destruct (pack_unpack s Henc) as (d & Hd & _ & Hjoin).
  unfold Motif. rewrite Hd. simpl.
  change (get_kmer d (Py.len s) = Ok s).
  rewrite get_kmer_unfold by done. by rewrite Hjoin.
Qed.

Lemma pack_unpack_roundtrip_witness :
  (m ← Motif "0312"; get_kmer m 4) = Ok "0312"%string.
Proof.
  apply (pack_unpack_roundtrip "0312").
  - repeat split; (eexists; split; [reflexivity|]; vm_compute; split; congruence).
  - vm_compute. lia.
Defined.

End PackedKeys.


(** ** Engine V1 (ems1.py) *)

Section Ems1Counting.
Import Ems1.
Variables l d : nat.

Lemma count_fold_spec (i : nat) (st : state) (X : gset string) :
  (forall m, (default 0 (last_seq_match st !! m) <= i)%nat) ->
  forall m,
    motif_counts (set_fold (count_candidate (i + 1)) st X) !! m =
      (if decide (m ∈ X) then Some (default 0 (motif_counts st !! m) + 1)%nat
       else motif_counts st !! m)
    /\ last_seq_match (set_fold (count_candidate (i + 1)) st X) !! m =
      (if decide (m ∈ X) then Some (i + 1)%nat else last_seq_match st !! m).
Proof.
  intros Hlast.
  pose (P := (fun (r : state) (Y : gset string) => forall m,
       motif_counts r !! m =
         (if decide (m ∈ Y) then Some (default 0 (motif_counts st !! m) + 1)%nat
          else motif_counts st !! m)
       /\ last_seq_match r !! m =
         (if decide (m ∈ Y) then Some (i + 1)%nat else last_seq_match st !! m))).
  apply (set_fold_ind_L P); unfold P; clear P X.
  - intros m. rewrite !decide_False by apply not_elem_of_empty. done.
  - intros x Y r Hx IH m.
    pose proof (IH x) as [Hcx Hlx].
    rewrite decide_False in Hcx, Hlx by done.
    unfold count_candidate.
    assert (last_seq_match r !! x ≠ Some (i + 1)%nat) as Hne.
    { rewrite Hlx. intros Heq. specialize (Hlast x). rewrite Heq in Hlast.
      simpl in Hlast. lia. }
    rewrite decide_True by done. simpl.
    pose proof (IH m) as [Hcm Hlm].
    destruct (decide (m = x)) as [->|Hmx].
    + rewrite !lookup_insert_eq, Hcx.
      rewrite !decide_True by (apply elem_of_union_l, elem_of_singleton; reflexivity). done.
    + rewrite !lookup_insert_ne by done. rewrite Hcm, Hlm.
      clear IH Hcx Hlx Hcm Hlm Hne.
      destruct (decide (m ∈ Y)) as [HmY|HmY].
      * rewrite !decide_True by (by apply elem_of_union_r). done.
      * rewrite !decide_False; [done|..];
          intros [Hm%elem_of_singleton|Hm]%elem_of_union; done.
Qed.

Lemma process_from_spec (reads : list string) :
  forall (i : nat) (st : state),
    (forall m, (default 0 (last_seq_match st !! m) <= i)%nat) ->
    forall m,
      default 0%nat (motif_counts (process_from l d i reads st) !! m) =
        (default 0 (motif_counts st !! m) + coverage l d reads m)%nat
      /\ (default 0 (last_seq_match (process_from l d i reads st) !! m)
          <= i + List.length reads)%nat.
Proof.
  induction reads as [|seq reads IH]; intros i st Hlast m; simpl.
  - unfold coverage. simpl. split; [lia|]. specialize (Hlast m). lia.
  - unfold process_sequence.
    pose proof (count_fold_spec i st (sequence_candidates l d seq) Hlast) as Hstep.
    set (st1 := set_fold (count_candidate (i + 1)) st (sequence_candidates l d seq)) in *.
    assert (forall m, (default 0 (last_seq_match st1 !! m) <= S i)%nat) as Hlast1.
    { intros m'. destruct (Hstep m') as [_ ->]. case_decide; simpl; [lia|].
      specialize (Hlast m'). lia. }
    destruct (IH (S i) st1 Hlast1 m) as [Hc Hl].
    rewrite Hc. split; [|lia].
    destruct (Hstep m) as [-> _].
    unfold coverage. rewrite filter_cons.
    case_decide; simpl; lia.
Qed.

Lemma elem_of_select (n : nat) (st : state) (m : string) :
  m ∈ select n st <-> motif_counts st !! m = Some n.
Proof.
  unfold select. rewrite list_elem_of_fmap. split.
  - intros [[k v] [-> Hin]]. apply elem_of_map_to_list in Hin.
    apply map_lookup_filter_Some in Hin as [? ?]. simpl in *. by subst.
  - intros Hm. exists (m, n). split; [done|].
    apply elem_of_map_to_list, map_lookup_filter_Some. done.
Qed.

(** C9: after the sequences [reads] (numbered [1..i]) have been processed,
    [motif_counts[m]] is the number of them whose candidate set contains
    [m] and [last_seq_match[m] <= i]; the output of [search] is the sorted,
    duplicate-free list of the motifs whose count is the number of reads. *)
Theorem ems1_counting_invariant (reads : list string) (m : string) :
  let st := process_all l d reads in
  let i := List.length reads in
  default 0%nat (motif_counts st !! m) = coverage l d reads m
  /\ (default 0 (last_seq_match st !! m) <= i)%nat
  /\ (m ∈ search l d reads <-> motif_counts st !! m = Some i)
  /\ StronglySorted String.le (search l d reads)
  /\ NoDup (search l d reads).
Proof.
  intros st i.
  destruct (process_from_spec reads 0 init) with (m := m) as [Hc Hl].
  { intros m'. unfold init. simpl. rewrite lookup_empty. simpl. lia. }
  split; [|split; [|split; [|split]]].
  - exact Hc.
  - exact Hl.
  - unfold search. rewrite merge_sort_Permutation. apply elem_of_select.
  - apply StronglySorted_merge_sort; apply _.
  - unfold search. rewrite merge_sort_Permutation.
    unfold select. apply NoDup_fst_map_to_list.
Qed.
End Ems1Counting.

(** ** The tries (motif_tree.py) *)



Section Tries.
Local Open Scope string_scope.

(** C6: on a tree of depth 2, [MotifTreeFast] loses ["00"] when ["01"] is
    inserted after ["40"] (the split allocates an empty node for letter
    0), and [MotifTreeSimple] adds ["11"], ["21"], ["31"] on the same two
    insertions and inserts only ["00"] of ["40"] after ["01"] (the first
    child whose mask meets the target is reused whole): in neither case is
    the new set the old one with the concretizations of the motif. *)
Theorem insert_is_not_union_with_concretizations :
  (exists t0 t1 : MotifTreeFast.tree,
      build 2 ["40"] = Ok t0 /\ tree_insert t0 "01" = Ok t1
      /\ MotifTreeFast.strings t0 = {[ "00"; "10"; "20"; "30" ]}
      /\ MotifTreeFast.strings t1 = {[ "01"; "10"; "20"; "30" ]}
      /\ tree_traverse t1 = Ok ["01"; "10"; "20"; "30"]
      /\ MotifTreeFast.strings t1
         <> MotifTreeFast.strings t0 ∪ list_to_set (MotifTree.concretizations "01"))
  /\ (exists t0 t1 : MotifTreeSimple.tree,
      build 2 ["40"] = Ok t0 /\ tree_insert t0 "01" = Ok t1
      /\ MotifTreeSimple.strings t0 = {[ "00"; "10"; "20"; "30" ]}
      /\ MotifTreeSimple.strings t1
         = {[ "00"; "10"; "20"; "30"; "01"; "11"; "21"; "31" ]}
      /\ MotifTreeSimple.strings t1
         <> MotifTreeSimple.strings t0 ∪ list_to_set (MotifTree.concretizations "01"))
  /\ (exists t0 t1 : MotifTreeSimple.tree,
      build 2 ["01"] = Ok t0 /\ tree_insert t0 "40" = Ok t1
      /\ MotifTreeSimple.strings t0 = {[ "01" ]}
      /\ MotifTreeSimple.strings t1 = {[ "00"; "01" ]}
      /\ MotifTreeSimple.strings t1
         <> MotifTreeSimple.strings t0 ∪ list_to_set (MotifTree.concretizations "40")).
Proof.
  split; [|split]; eexists; eexists;
    (split; [eval_eq|]); (split; [eval_eq|]); eval_all.
Qed.

(** C7: with [MotifTreeFast] and depth 1, the tree of ["4"] (all four
    letters through one shared leaf) intersected with the tree of ["0"]
    and ["1"] represents ["0"] only: the first common letter overwrites
    the [sharing_info] of the shared leaf, and the later slots read the
    overwritten mask.  [MotifTreeSimple] gives both strings. *)
Theorem fast_intersect_is_not_intersection :
  (exists t u r : MotifTreeFast.tree,
      build 1 ["4"] = Ok t /\ build 1 ["0"; "1"] = Ok u
      /\ tree_intersect t u = Ok r
      /\ MotifTreeFast.strings t = {[ "0"; "1"; "2"; "3" ]}
      /\ MotifTreeFast.strings u = {[ "0"; "1" ]}
      /\ MotifTreeFast.strings r = {[ "0" ]}
      /\ tree_traverse r = Ok ["0"]
      /\ MotifTreeFast.strings r <> MotifTreeFast.strings t ∩ MotifTreeFast.strings u)
  /\ (exists t u r : MotifTreeSimple.tree,
      build 1 ["4"] = Ok t /\ build 1 ["0"; "1"] = Ok u
      /\ tree_intersect t u = Ok r
      /\ MotifTreeSimple.strings r = {[ "0"; "1" ]}).
Proof.
  split; eexists; eexists; eexists;
    (split; [eval_eq|]); (split; [eval_eq|]); (split; [eval_eq|]); eval_all.
Qed.

End Tries.

(** *** Intersection of [MotifTreeSimple] trees *)

Section SimpleIntersect.
Import MotifTree MotifTreeSimple.

Lemma has_bit_testbit (info : Z) (j : nat) :
  has_bit info j = Z.testbit info (Z.of_nat j).
Proof.
  unfold has_bit, bit. rewrite Z.shiftl_1_l.
  destruct (Z.testbit info (Z.of_nat j)) eqn:Hb.
  - apply negb_true_iff, Z.eqb_neq. intros H0.
    assert (Z.testbit (Z.land info (2 ^ Z.of_nat j)) (Z.of_nat j) = true) as Ht.
    { rewrite Z.land_spec, Hb, Z.pow2_bits_eqb, Z.eqb_refl by lia. done. }
    rewrite H0, Z.bits_0 in Ht. done.
  - apply negb_false_iff, Z.eqb_eq, Z.bits_inj'. intros n Hn.
    rewrite Z.land_spec, Z.bits_0, Z.pow2_bits_eqb by lia.
    destruct (Z.eqb_spec (Z.of_nat j) n) as [<-|_].
    + by rewrite Hb.
    + by rewrite andb_false_r.
Qed.

Lemma has_bit_land (a b : Z) (j : nat) :
  has_bit (Z.land a b) j = has_bit a j && has_bit b j.
Proof. by rewrite !has_bit_testbit, Z.land_spec. Qed.

Lemma has_bit_nonzero (a : Z) (j : nat) : has_bit a j = true -> a <> 0.
Proof. intros H ->. rewrite has_bit_testbit, Z.bits_0 in H. done. Qed.

Lemma elem_of_letters (info : Z) (c : string) :
  c ∈ letters info <->
  exists j, (j < domain_size)%nat /\ has_bit info j = true /\ c = Py.str (Z.of_nat j).
Proof.
  unfold letters. rewrite list_elem_of_omap. split.
  - intros (j & Hj & Hc). exists j.
    apply elem_of_seq in Hj. destruct (has_bit info j); [|done].
    injection Hc as <-. split; [lia|]. split; reflexivity.
  - intros (j & Hj & Hb & ->). exists j. rewrite Hb. split; [|done].
    apply elem_of_seq. lia.
Qed.

Lemma elem_of_product (info : Z) (tails : list string) (s : string) :
  s ∈ product info tails <->
  exists j s', (j < domain_size)%nat /\ has_bit info j = true
               /\ s' ∈ tails /\ s = String.append (Py.str (Z.of_nat j)) s'.
Proof.
  unfold product. rewrite list_elem_of_bind. split.
  - intros (c & Hs & Hc). apply list_elem_of_bind in Hs as (s' & Hs & Hs').
    apply list_elem_of_singleton in Hs as ->.
    apply elem_of_letters in Hc as (j & Hj & Hb & ->). eauto 10.
  - intros (j & s' & Hj & Hb & Hs' & ->). exists (Py.str (Z.of_nat j)). split.
    + apply list_elem_of_bind. exists s'. split; [|done]. by apply list_elem_of_singleton.
    + apply elem_of_letters. eauto.
Qed.

Lemma letter_inj (j j' : nat) (s s' : string) :
  (j < domain_size)%nat -> (j' < domain_size)%nat ->
  String.append (Py.str (Z.of_nat j)) s = String.append (Py.str (Z.of_nat j')) s' ->
  j = j' /\ s = s'.
Proof.
  change domain_size with 4%nat. intros Hj Hj' Heq.
  destruct j as [|[|[|[|?]]]]; try lia;
    destruct j' as [|[|[|[|?]]]]; try lia;
    vm_compute in Heq; injection Heq as ?; subst; try done.
Qed.

Lemma represented_children (levels : nat) (n n' : node) :
  children n = children n' -> represented levels n = represented levels n'.
Proof. intros H. destruct levels; simpl; [done|]. by rewrite H. Qed.

Lemma elem_of_represented_S (levels : nat) (n : node) (s : string) :
  s ∈ represented (S levels) n <->
  exists child j s', child ∈ children n /\ (j < domain_size)%nat
    /\ has_bit (sharing_info child) j = true
    /\ s' ∈ represented levels child
    /\ s = String.append (Py.str (Z.of_nat j)) s'.
Proof.
  simpl. rewrite list_elem_of_bind. split.
  - intros (child & Hs & Hc).
    apply elem_of_product in Hs as (j & s' & Hj & Hb & Hs' & ->).
    exists child, j, s'. done.
  - intros (child & j & s' & Hc & Hj & Hb & Hs' & ->). exists child. split; [|done].
    apply elem_of_product. exists j, s'. done.
Qed.

Lemma elem_of_new_children rec to_node from_node nc :
  nc ∈ new_children rec to_node from_node <->
  exists tc fc ic, tc ∈ children to_node /\ fc ∈ children from_node
    /\ Z.land (sharing_info tc) (sharing_info fc) <> 0
    /\ rec tc fc = Some ic
    /\ nc = Node (Z.land (sharing_info tc) (sharing_info fc)) (children ic).
Proof.
  unfold new_children. rewrite list_elem_of_bind. split.
  - intros (tc & Hnc & Htc). apply list_elem_of_bind in Hnc as (fc & Hnc & Hfc).
    destruct (Z.eqb_spec (Z.land (sharing_info tc) (sharing_info fc)) 0) as [?|Hne];
      simpl in Hnc; [by apply elem_of_nil in Hnc|].
    destruct (rec tc fc) as [ic|] eqn:Hrec; [|by apply elem_of_nil in Hnc].
    apply list_elem_of_singleton in Hnc. exists tc, fc, ic. done.
  - intros (tc & fc & ic & Htc & Hfc & Hne & Hrec & ->).
    exists tc. split; [|done]. apply list_elem_of_bind. exists fc. split; [|done].
    destruct (Z.eqb_spec (Z.land (sharing_info tc) (sharing_info fc)) 0); [done|].
    simpl. rewrite Hrec. by apply list_elem_of_singleton.
Qed.

Lemma intersect_recursive_S (levels : nat) (to_node from_node : node) (depth : nat) :
  intersect_recursive (S levels) to_node from_node depth =
    match children from_node with
    | [] => None
    | _ :: _ =>
        let cs := new_children
                    (fun tc fc => intersect_recursive levels tc fc (depth + 1))
                    to_node from_node in
        match cs with
        | [] => None
        | _ :: _ => Some (Node 0 cs)
        end
    end.
Proof. reflexivity. Qed.

Lemma intersect_recursive_correct (levels : nat) :
  forall (to_node from_node : node) (depth : nat),
    intersects levels to_node from_node
      (intersect_recursive levels to_node from_node depth).
Proof.
  induction levels as [|levels IH]; intros to_node from_node depth.
  - simpl. intros s. rewrite !list_elem_of_singleton. tauto.
  - rewrite intersect_recursive_S.
    set (rec := fun tc fc => intersect_recursive levels tc fc (depth + 1)).
    (* the strings below the new children are the common strings *)
    assert (forall s,
      (exists nc j s', nc ∈ new_children rec to_node from_node
          /\ (j < domain_size)%nat /\ has_bit (sharing_info nc) j = true
          /\ s' ∈ represented levels nc
          /\ s = String.append (Py.str (Z.of_nat j)) s')
      <-> s ∈ represented (S levels) to_node
          /\ s ∈ represented (S levels) from_node) as Hmain.
    { intros s. rewrite !elem_of_represented_S. split.
      - intros (nc & j & s' & Hnc & Hj & Hb & Hs' & ->).
        apply elem_of_new_children in Hnc
          as (tc & fc & ic & Htc & Hfc & Hne & Hrec & ->).
        simpl in Hb. rewrite has_bit_land in Hb. apply andb_true_iff in Hb as [Hbt Hbf].
        rewrite (represented_children levels _ ic) in Hs' by done.
        pose proof (IH tc fc (depth + 1)%nat) as Hic. fold (rec tc fc) in Hic.
        rewrite Hrec in Hic. apply Hic in Hs' as [Hst Hsf].
        split; [exists tc, j, s'|exists fc, j, s']; done.
      - intros [(tc & j & s1 & Htc & Hj & Hbt & Hs1 & ->)
                (fc & j' & s2 & Hfc & Hj' & Hbf & Hs2 & Heq)].
        apply letter_inj in Heq as [-> ->]; [|done..].
        assert (has_bit (Z.land (sharing_info tc) (sharing_info fc)) j' = true) as Hb.
        { by rewrite has_bit_land, Hbt, Hbf. }
        pose proof (IH tc fc (depth + 1)%nat) as Hic. fold (rec tc fc) in Hic.
        destruct (rec tc fc) as [ic|] eqn:Hrec; [|by destruct (Hic s2)].
        exists (Node (Z.land (sharing_info tc) (sharing_info fc)) (children ic)), j', s2.
        split; [|split; [done|split; [done|split; [|done]]]].
        + apply elem_of_new_children. exists tc, fc, ic.
          split; [done|]. split; [done|]. split; [|done].
          by apply has_bit_nonzero in Hb.
        + rewrite (represented_children levels _ ic) by done. by apply Hic. }
    destruct (children from_node) as [|fc0 fcs] eqn:Hfrom.
    { intros s [_ Hs]. apply elem_of_represented_S in Hs as (fc & ? & ? & Hfc & _).
      rewrite Hfrom in Hfc. by apply elem_of_nil in Hfc. }
    cbv zeta.
    destruct (new_children rec to_node from_node) as [|c cs] eqn:Hnew.
    + intros s Hs. apply Hmain in Hs as (nc & ? & ? & Hnc & _).
      by apply elem_of_nil in Hnc.
    + intros s. rewrite <- Hmain. rewrite elem_of_represented_S. done.
Qed.

Lemma simple_intersect_strings (t u r : tree) :
  max_depth u = max_depth t ->
  intersect t u = Ok r ->
  strings r = strings t ∩ strings u.
Proof.
  intros Hdepth Hr. unfold intersect in Hr.
  pose proof (intersect_recursive_correct (max_depth t) (root t) (root u) 0) as Hc.
  apply set_eq. intros s. unfold strings. rewrite elem_of_intersection.
  rewrite !elem_of_list_to_set, Hdepth.
  destruct (intersect_recursive (max_depth t) (root t) (root u) 0) as [n|];
    injection Hr as <-; simpl in *.
  - apply Hc.
  - split; [|intros H; by destruct (Hc s)].
    destruct (max_depth t); simpl.
    + exfalso. apply (Hc EmptyString). simpl. by rewrite !list_elem_of_singleton.
    + intros H. by apply elem_of_nil in H.
Qed.

(** X1: For [MotifTreeSimple], [intersect] leaves the common strings of the
    two trees. *)
Theorem simple_intersect_is_intersection (t u r : tree) :
  max_depth u = max_depth t ->
  intersect t u = Ok r ->
  strings r = strings t ∩ strings u.
Proof. apply simple_intersect_strings. Qed.

Lemma simple_intersect_is_intersection_witness :
  strings (Tree (Node 0 [Node 2 []]) 1)
  = strings (Tree (Node 0 [Node 1 []; Node 2 []]) 1)
    ∩ strings (Tree (Node 0 [Node 2 []; Node 4 []]) 1).
Proof.
  apply (simple_intersect_is_intersection
           (Tree (Node 0 [Node 1 []; Node 2 []]) 1)
           (Tree (Node 0 [Node 2 []; Node 4 []]) 1)
           (Tree (Node 0 [Node 2 []]) 1)); reflexivity.
Defined.

End SimpleIntersect.

(** ** Engine V2P (ems2p.py) *)

Section V2P.
Local Open Scope string_scope.
Import Ems2p.

(** The engine depends on the shuffle only through the work lists. *)
Lemma gen_all_ext (shuffle1 shuffle2 : list (nat * nat) -> list (nat * nat))
    (l d n : nat) (seq : string) (main_array : list Z) :
  works shuffle1 l d seq = works shuffle2 l d seq ->
  _gen_all shuffle1 l d n seq main_array = _gen_all shuffle2 l d n seq main_array.
Proof. unfold _gen_all, process_segment. intros ->. reflexivity. Qed.

Lemma search_loop_ext (shuffle1 shuffle2 : list (nat * nat) -> list (nat * nat))
    (l d n : nat) (reads : list string) :
  Forall (fun seq => works shuffle1 l d seq = works shuffle2 l d seq) reads ->
  forall i main_array log,
    search_loop shuffle1 l d n i reads main_array log
    = search_loop shuffle2 l d n i reads main_array log.
Proof.
  induction 1 as [|seq reads Hseq _ IH]; intros i main_array log; simpl; [done|].
  rewrite (gen_all_ext shuffle1 shuffle2) by done.
  destruct (_gen_all shuffle2 l d n seq main_array) as [[|m ms]|e]; simpl; auto.
Qed.

(** A shuffle leaves a work list of one item as it is. *)
Lemma works_one (shuffle : list (nat * nat) -> list (nat * nat))
    (l d : nat) (seq : string) (w : nat * nat) :
  (forall ws, shuffle ws ≡ₚ ws) ->
  work_items l d seq = [w] ->
  works shuffle l d seq = works (fun ws => ws) l d seq.
Proof.
  intros Hperm Hw. unfold works. rewrite Hw.
  apply Permutation_singleton_r, Hperm.
Qed.

(** C3: for the k-mer ["0"] with [l = 1], [d = 1] the generator appends
    one key, [0]; the string it packs is ["4"] (the [Auxif] bit of its
    position is set), and [expanded_count] is 4: the wildcard reaches
    [Motif] and the four letters are counted but not emitted. *)
Theorem v2p_wildcard_is_packed_not_expanded :
  generate 1 1 "0" [] [] = Ok (Generator "0" [0] [1] 4)
  /\ MotifData.Motif "4" = Ok 0
  /\ MotifData.Auxif "4" Utils.WILDCARD_CODE = Ok 1
  /\ emitted 1 1 "0" = Ok ["0"]
  /\ Utils.neighborhood 1 1 "0" = ["0"; "1"; "2"; "3"].
Proof. eval_all. Qed.

(** C4: with [l = 1], [d = 0], one worker and the reads ["0"], ["1"],
    [main_array] is [[0]] after the first read; the keys of the second
    read are [[1]], the intersection is empty, and [_gen_all] leaves
    [main_array] at [[0]]: the run reports the motif ["0"]. *)
Theorem v2p_empty_intersection_keeps_main_array
    (shuffle : list (nat * nat) -> list (nat * nat)) :
  (forall ws, shuffle ws ≡ₚ ws) ->
  _gen_all shuffle 1 0 1 "0" [] = Ok [0]
  /\ segment_candidates 1 0 "1" (works shuffle 1 0 "1") = Ok ([1], [0])
  /\ _radix_sort_and_intersect [0] [1] 1 = []
  /\ _gen_all shuffle 1 0 1 "1" [0] = Ok [0]
  /\ search shuffle 1 0 1 ["0"; "1"] = Ok (Outcome ["0"] [0; 1]%nat).
Proof.
  intros Hperm.
  assert (forall seq, seq ∈ ["0"; "1"] ->
            works shuffle 1 0 seq = works (fun ws => ws) 1 0 seq) as Hw.
  { intros seq Hin. apply works_one with (w := (0%nat, 1%nat)); [done|].
    repeat (apply elem_of_cons in Hin as [->|Hin]; [reflexivity|]).
    by apply elem_of_nil in Hin. }
  split; [|split; [|split; [|split]]].
  - rewrite (gen_all_ext shuffle (fun ws => ws)) by (apply Hw; set_solver).
    eval_eq.
  - rewrite Hw by set_solver. eval_eq.
  - eval_eq.
  - rewrite (gen_all_ext shuffle (fun ws => ws)) by (apply Hw; set_solver).
    eval_eq.
  - unfold search. rewrite (search_loop_ext shuffle (fun ws => ws)).
    + eval_eq.
    + repeat constructor; apply Hw; set_solver.
Qed.

Lemma v2p_empty_intersection_keeps_main_array_witness :
  _gen_all (fun ws => ws) 1 0 1 "0" [] = Ok [0]
  /\ segment_candidates 1 0 "1" (works (fun ws => ws) 1 0 "1") = Ok ([1], [0])
  /\ _radix_sort_and_intersect [0] [1] 1 = []
  /\ _gen_all (fun ws => ws) 1 0 1 "1" [0] = Ok [0]
  /\ search (fun ws => ws) 1 0 1 ["0"; "1"] = Ok (Outcome ["0"] [0; 1]%nat).
Proof.
  apply (v2p_empty_intersection_keeps_main_array (fun ws => ws)).
  intros ws. reflexivity.
Defined.

End V2P.

(** ** The four engines *)

Section Engines.
Local Open Scope string_scope.

(** The enumeration of [ems2.py] is exact on every small input: the
    emitted motifs stand for the (l,d)-neighborhood, for k-mers and motifs
    of length up to 3 with at most one edit, and of length up to 2 with at
    most two edits. *)
Lemma ems2_enumeration_exact_one_edit (l d : nat) (x : string) :
  (l, d, x) ∈ Ems2.small_cases 3 3 1 ->
  Ems2.emitted_set l d x = Ok (Utils.neighborhood_set l d x).
Proof.
  revert l d x.
  assert (Forall (fun c : nat * nat * string =>
                    Ems2.emitted_set c.1.1 c.1.2 c.2
                    = Ok (Utils.neighborhood_set c.1.1 c.1.2 c.2))
                 (Ems2.small_cases 3 3 1)) as H.
  { apply (bool_decide_eq_true_1 _). vm_compute. reflexivity. }
  intros l d x Hin. rewrite list.Forall_forall in H. apply (H (l, d, x)), Hin.
Qed.

Lemma ems2_enumeration_exact_two_edits (l d : nat) (x : string) :
  (l, d, x) ∈ Ems2.small_cases 2 2 2 ->
  Ems2.emitted_set l d x = Ok (Utils.neighborhood_set l d x).
Proof.
  revert l d x.
  assert (Forall (fun c : nat * nat * string =>
                    Ems2.emitted_set c.1.1 c.1.2 c.2
                    = Ok (Utils.neighborhood_set c.1.1 c.1.2 c.2))
                 (Ems2.small_cases 2 2 2)) as H.
  { apply (bool_decide_eq_true_1 _). vm_compute. reflexivity. }
  intros l d x Hin. rewrite list.Forall_forall in H. apply (H (l, d, x)), Hin.
Qed.

(** C2: for the k-mer ["0"] with [l = 1] and [d = 1] the neighborhood is
    all four letters.  [Ems1._generate_neighborhood] applies exactly [d]
    edits before it adds anything and leaves out ["0"] itself; the
    generator of [ems2p.py] emits the one key of ["0"] (its wildcard packed
    as letter 0); the enumeration of [ems2.py] emits ["4"], which stands
    for the whole neighborhood.  For the k-mer ["012"] with [l = 2],
    [d = 1] the generator of [ems2p.py] emits ["12"] only: its backtracking
    line grows [self.x], so the later deletions have the wrong length. *)
Theorem enumerators_miss_neighbors :
  Utils.neighborhood_set 1 1 "0" = {[ "0"; "1"; "2"; "3" ]}
  /\ Ems1._generate_neighborhood "0" 1 1 ∅ = {[ "1"; "2"; "3" ]}
  /\ Ems1._generate_neighborhood "0" 1 1 ∅ <> Utils.neighborhood_set 1 1 "0"
  /\ Ems2p.emitted 1 1 "0" = Ok ["0"]
  /\ Ems2.emitted 1 1 "0" = Ok ["4"]
  /\ Ems2.emitted_set 1 1 "0" = Ok (Utils.neighborhood_set 1 1 "0")
  /\ Utils.neighborhood 2 1 "012" = ["01"; "02"; "12"]
  /\ Ems2p.emitted 2 1 "012" = Ok ["12"]
  /\ Ems2.emitted 2 1 "012" = Ok ["12"; "02"; "01"].
Proof. eval_all. Qed.

(** C1: on the single read ["0"] with [l = 1], [d = 1] the edited motifs
    are all four letters; V2 and V2m report them, V1 reports ["1"], ["2"],
    ["3"] and V2P reports ["0"].  On the reads ["012"], ["123"] with
    [l = 3], [d = 1] V1 reports the ten edited motifs, V2 eight of them and
    V2m twenty-four strings. *)
Theorem engines_disagree (shuffle : list (nat * nat) -> list (nat * nat)) :
  (forall ws, shuffle ws ≡ₚ ws) ->
  (Utils.edited_motifs 1 1 ["0"] = ["0"; "1"; "2"; "3"]
   /\ Ems1.search 1 1 ["0"] = ["1"; "2"; "3"]
   /\ Ems2.ems2 1 1 ["0"] = Ok (Outcome ["0"; "1"; "2"; "3"] [0%nat])
   /\ Ems2.ems2m 1 1 ["0"] = Ok (Outcome ["0"; "1"; "2"; "3"] [0%nat])
   /\ Ems2p.search shuffle 1 1 1 ["0"] = Ok (Outcome ["0"] [0%nat]))
  /\ (Utils.edited_motifs 3 1 ["012"; "123"]
       = ["012"; "102"; "112"; "120"; "121"; "122"; "123"; "132"; "212"; "312"]
      /\ Ems1.search 3 1 ["012"; "123"]
       = ["012"; "102"; "112"; "120"; "121"; "122"; "123"; "132"; "212"; "312"]
      /\ Ems2.ems2 3 1 ["012"; "123"]
       = Ok (Outcome ["012"; "102"; "112"; "120"; "121"; "122"; "132"; "312"]
               [0; 1]%nat)
      /\ Ems2.ems2m 3 1 ["012"; "123"]
       = Ok (Outcome ["012"; "013"; "020"; "021"; "022"; "023"; "112"; "113";
                      "120"; "121"; "122"; "123"; "212"; "213"; "220"; "221";
                      "222"; "223"; "312"; "313"; "320"; "321"; "322"; "323"]
               [0; 1]%nat)).
Proof.
  intros Hperm. split; [|eval_all].
  split; [eval_eq|]. split; [eval_eq|]. split; [eval_eq|]. split; [eval_eq|].
  unfold Ems2p.search. rewrite (search_loop_ext shuffle (fun ws => ws)).
  - eval_eq.
  - apply Forall_singleton.
    by apply works_one with (w := (0%nat, 1%nat)).
Qed.

Lemma engines_disagree_witness :
  (Utils.edited_motifs 1 1 ["0"] = ["0"; "1"; "2"; "3"]
   /\ Ems1.search 1 1 ["0"] = ["1"; "2"; "3"]
   /\ Ems2.ems2 1 1 ["0"] = Ok (Outcome ["0"; "1"; "2"; "3"] [0%nat])
   /\ Ems2.ems2m 1 1 ["0"] = Ok (Outcome ["0"; "1"; "2"; "3"] [0%nat])
   /\ Ems2p.search (fun ws => ws) 1 1 1 ["0"] = Ok (Outcome ["0"] [0%nat]))
  /\ (Utils.edited_motifs 3 1 ["012"; "123"]
       = ["012"; "102"; "112"; "120"; "121"; "122"; "123"; "132"; "212"; "312"]
      /\ Ems1.search 3 1 ["012"; "123"]
       = ["012"; "102"; "112"; "120"; "121"; "122"; "123"; "132"; "212"; "312"]
      /\ Ems2.ems2 3 1 ["012"; "123"]
       = Ok (Outcome ["012"; "102"; "112"; "120"; "121"; "122"; "132"; "312"]
               [0; 1]%nat)
      /\ Ems2.ems2m 3 1 ["012"; "123"]
       = Ok (Outcome ["012"; "013"; "020"; "021"; "022"; "023"; "112"; "113";
                      "120"; "121"; "122"; "123"; "212"; "213"; "220"; "221";
                      "222"; "223"; "312"; "313"; "320"; "321"; "322"; "323"]
               [0; 1]%nat)).
Proof. apply (engines_disagree (fun ws => ws)). intros ws. reflexivity. Defined.

(** C5: with [MotifTreeFast], [l = 1], [d = 0] and the reads ["0"], ["1"],
    ["2"], the intersection for sequence 1 leaves a root whose four slots
    are all [None] ([_empty_node] is true), but the test
    [not self.main_tree.root['children']] looks at the list of four slots
    and is false: sequence 2 is processed as well.  The output is empty.
    With [MotifTreeSimple] the same run stops after sequence 1. *)
Theorem fast_engine_runs_on_after_empty_root :
  (exists t0 t1 main : MotifTreeFast.tree,
      Ems2.gen_tree 1 0 "0" (tree_new 1) = Ok t0
      /\ Ems2.gen_tree 1 0 "1" (tree_new 1) = Ok t1
      /\ tree_intersect t0 t1 = Ok main
      /\ MotifTreeFast._empty_node (MotifTreeFast.root main) (MotifTreeFast.heap main)
         = Ok (true, MotifTreeFast.heap main)
      /\ tree_root_children_truthy main = Ok true)
  /\ Ems2.ems2 1 0 ["0"; "1"; "2"] = Ok (Outcome [] [0; 1; 2]%nat)
  /\ Ems2.ems2m 1 0 ["0"; "1"; "2"] = Ok (Outcome [] [0; 1]%nat).
Proof.
  split; [|eval_all].
  eexists; eexists; eexists.
  (split; [eval_eq|]); (split; [eval_eq|]); (split; [eval_eq|]); eval_all.
Qed.

End Engines.

(** ** Early termination *)

Section EarlyTermination.

(** The trie engine stops at the first intersection after which
    [root['children']] is false: the sequences after it are not processed. *)
Lemma ems2_search_loop_stops {T : Type} `{MotifTreeBase T} (l d : nat)
    (done : list string) :
  forall (i : nat) (main_tree main' tmp stopped : T)
         (log : list nat) (sq : string) (rest : list string),
    Ems2.main_tree_after l d done main_tree = Some main' ->
    Ems2.gen_tree l d sq (tree_new l) = Ok tmp ->
    tree_intersect main' tmp = Ok stopped ->
    tree_root_children_truthy stopped = Ok false ->
    Ems2.search_loop l d i (done ++ sq :: rest) main_tree log
    = Ok (Outcome [] (log ++ seq i (S (List.length done)))).
Proof.
  induction done as [|s0 done IH];
    intros i main_tree main' tmp stopped log sq rest Hafter Hgen Hint Hroot.
  - injection Hafter as <-. simpl.
    rewrite Hgen. simpl. rewrite Hint. simpl. rewrite Hroot. done.
  - simpl in Hafter. simpl.
    destruct (Ems2.gen_tree l d s0 (tree_new l)) as [tmp0|e]; simpl in *; [|done].
    destruct (tree_intersect main_tree tmp0) as [main1|e]; simpl in *; [|done].
    destruct (tree_root_children_truthy main1) as [[|]|e]; simpl in *; try done.
    rewrite (IH (S i) main1 main' tmp stopped (log ++ [i]) sq rest) by done.
    by rewrite <- app_assoc.
Qed.

(** V2P stops at the first sequence that leaves [main_array] empty. *)
Lemma ems2p_search_loop_stops (shuffle : list (nat * nat) -> list (nat * nat))
    (l d n : nat) (done : list string) :
  forall (i : nat) (main_array main' : list Z) (log : list nat)
         (sq : string) (rest : list string),
    Ems2p.main_array_after shuffle l d n done main_array = Some main' ->
    Ems2p._gen_all shuffle l d n sq main' = Ok [] ->
    Ems2p.search_loop shuffle l d n i (done ++ sq :: rest) main_array log
    = Ok (Outcome [] (log ++ seq i (S (List.length done)))).
Proof.
  induction done as [|s0 done IH]; intros i main_array main' log sq rest Hafter Hgen.
  - injection Hafter as <-. simpl. rewrite Hgen. done.
  - simpl in Hafter. simpl.
    destruct (Ems2p._gen_all shuffle l d n s0 main_array) as [[|m ms]|e];
      simpl in *; try done.
    rewrite (IH (S i) (m :: ms) main' (log ++ [i]) sq rest) by done.
    by rewrite <- app_assoc.
Qed.

(** With [MotifTreeSimple], [l = 1] and [d = 0], the reads ["0"], ["1"]
    have no common motif, and whatever reads follow are not processed. *)
Corollary ems2m_stops_for_any_rest (rest : list string) :
  Ems2.ems2m 1 0 ("0"%string :: "1"%string :: rest) = Ok (Outcome [] [0; 1]%nat).
Proof.
  unfold Ems2.ems2m, Ems2.search.
  destruct (Ems2.gen_tree 1 0 "0" (tree_new 1)) as [main|e] eqn:Hmain;
    [|by vm_compute in Hmain].
  destruct (Ems2.gen_tree 1 0 "1" (tree_new 1)) as [tmp|e] eqn:Htmp;
    [|by vm_compute in Htmp].
  destruct (tree_intersect main tmp) as [stopped|e] eqn:Hint.
  2:{ vm_compute in Hmain, Htmp. injection Hmain as <-. injection Htmp as <-.
      by vm_compute in Hint. }
  change (Ok main ≫= (fun main_tree : MotifTreeSimple.tree =>
            Ems2.search_loop 1 0 1 ("1"%string :: rest) main_tree [0%nat]))
    with (Ems2.search_loop 1 0 1 ([] ++ "1"%string :: rest) main [0%nat]).
  rewrite (ems2_search_loop_stops 1 0 [] 1 main main tmp stopped); try done.
  vm_compute in Hmain, Htmp. injection Hmain as <-. injection Htmp as <-.
  vm_compute in Hint. injection Hint as <-. reflexivity.
Qed.

(** With [l = 3] and [d = 0] the read ["0"] is too short to have a
    candidate: V2P stops after it, whatever reads follow. *)
Corollary ems2p_stops_for_any_rest
    (shuffle : list (nat * nat) -> list (nat * nat)) (rest : list string) :
  (forall ws, shuffle ws ≡ₚ ws) ->
  Ems2p.search shuffle 3 0 1 ("0"%string :: rest) = Ok (Outcome [] [0%nat]).
Proof.
  intros Hperm. unfold Ems2p.search.
  change ("0"%string :: rest) with ([] ++ "0"%string :: rest).
  rewrite (ems2p_search_loop_stops shuffle 3 0 1 [] 0 [] []); [done..|].
  rewrite (gen_all_ext shuffle (fun ws => ws)); [eval_eq|].
  unfold Ems2p.works.
  change (Ems2p.work_items 3 0 "0") with (@nil (nat * nat)).
  apply Permutation_nil_r, Hperm.
Qed.

End EarlyTermination.

(** ** More on the packed keys (motif_data.py) *)

Section KeyFacts.
Import MotifData.

Lemma is_code_cases (c : ascii) :
  Utils.is_code c <-> c = "0"%char \/ c = "1"%char \/ c = "2"%char \/ c = "3"%char.
Proof.
  split.
  - intros (k & Hk & Hrange). change (Z.of_nat Utils.domain_size) with 4 in Hrange.
    apply digit_char_value in Hk as [<- _].
    assert (k = 0 \/ k = 1 \/ k = 2 \/ k = 3) as [->|[->|[->| ->]]] by lia; auto.
  - intros [->|[->|[->| ->]]]; eexists; (split; [reflexivity|]); vm_compute;
      split; congruence.
Qed.

Lemma get_code_range (data : Z) (k i : nat) : 0 <= get_code data k i < 4.
Proof.
  unfold get_code. change 3 with (Z.ones 2). rewrite Z.land_ones by lia.
  apply Z.mod_pos_bound. lia.
Qed.

Lemma str_code_char (v : Z) :
  0 <= v < 4 -> exists c, Py.str v = String c EmptyString /\ Utils.is_code c.
Proof.
  intros Hv. exists (Py.digit_char v). split; [done|].
  apply is_code_cases.
  assert (v = 0 \/ v = 1 \/ v = 2 \/ v = 3) as [->|[->|[->| ->]]] by lia; auto.
Qed.

Lemma join_codes (f : nat -> Z) (ixs : list nat) :
  (forall i, 0 <= f i < 4) ->
  Py.len (Py.join (map (fun i => Py.str (f i)) ixs)) = List.length ixs
  /\ Utils.encoded (Py.join (map (fun i => Py.str (f i)) ixs)).
Proof.
  intros Hf. induction ixs as [|i ixs [IHl IHe]]; [done|].
  destruct (str_code_char (f i) (Hf i)) as (c & Hc & Hcode).
  unfold Py.join in *. cbn [map fold_right]. rewrite Hc.
  change (String.append (String c EmptyString) ?s) with (String c s).
  split; [simpl; by rewrite <- IHl|done].
Qed.

(** X2: [get_kmer] refuses lengths above [MAX_L]; otherwise it returns, for
    any integer, an encoded string of the requested length. *)
Theorem get_kmer_bounds (data : Z) (k : nat) :
  match get_kmer data k with
  | Py.Ok s => (k <= MAX_L)%nat /\ Py.len s = k /\ Utils.encoded s
  | Py.Raise e => (MAX_L < k)%nat /\ e = Py.ValueError
  end.
Proof.
  destruct (Nat.ltb_spec MAX_L k) as [Hk|Hk].
  - unfold get_kmer. destruct (Nat.ltb_spec MAX_L k); [done|lia].
  - rewrite get_kmer_unfold by done.
    destruct (join_codes (get_code data k) (seq 0 k) (get_code_range data k)) as [Hl He].
    rewrite length_seq in Hl. done.
Qed.

(** X3: [set_from_kmer] succeeds exactly on strings of digits, with a key
    below [4 ^ len(x)]; on any other string it raises [ValueError]. *)
Theorem set_from_kmer_result (x : string) :
  match set_from_kmer x with
  | Py.Ok d => all_digits x /\ 0 <= d < 2 ^ (2 * Z.of_nat (Py.len x))
  | Py.Raise e => ~ all_digits x /\ e = Py.ValueError
  end.
Proof.
  induction x as [|c x IH]; [by vm_compute|].
  rewrite set_from_kmer_cons. unfold Py.int, all_digits, Py.isdigit. fold all_digits.
  destruct (Py.digit_value c) as [v|] eqn:Hv; simpl.
  2:{ split; [|done]. by intros [? _]. }
  destruct (set_from_kmer x) as [r|e]; simpl.
  - destruct IH as [Hx Hr]. split; [done|].
    change (Py.len (String c x)) with (S (Py.len x)).
    apply lor_key_bound; [|done].
    change 3 with (Z.ones 2). rewrite Z.land_ones by lia.
    apply Z.mod_pos_bound. lia.
  - destruct IH as [Hx ->]. split; [|done]. by intros [_ ?].
Qed.

Lemma lor_shiftl_add (v r m : Z) :
  0 <= m -> 0 <= r < 2 ^ m ->
  Z.lor (Z.shiftl v m) r = v * 2 ^ m + r.
Proof.
  intros Hm Hr.
  assert (Z.land (Z.shiftl v m) r = 0) as Hdisj.
  { apply Z.bits_inj'. intros n Hn. rewrite Z.land_spec, Z.bits_0.
    destruct (Z.lt_ge_cases n m).
    - by rewrite Z.shiftl_spec_low.
    - rewrite (proj1 (Z.bounded_iff_bits_nonneg m r Hm (proj1 Hr)) (proj2 Hr) n) by done.
      apply andb_false_r. }
  rewrite <- Z.lxor_lor, <- Z.add_nocarry_lxor by done.
  by rewrite Z.shiftl_mul_pow2.
Qed.

Lemma set_from_kmer_code (c : ascii) (s : string) (v r : Z) :
  Py.digit_value c = Some v -> 0 <= v < 4 -> set_from_kmer s = Ok r ->
  set_from_kmer (String c s) = Ok (Z.lor (Z.shiftl v (2 * Z.of_nat (Py.len s))) r).
Proof.
  intros Hv Hrange Hr. rewrite set_from_kmer_cons. unfold Py.int. rewrite Hv, Hr.
  simpl. change 3 with (Z.ones 2). rewrite Z.land_ones by lia.
  by rewrite Z.mod_small by lia.
Qed.

Lemma key_compare (s1 : string) :
  forall (s2 : string) (d1 d2 : Z),
    Utils.encoded s1 -> Utils.encoded s2 -> Py.len s1 = Py.len s2 ->
    set_from_kmer s1 = Ok d1 -> set_from_kmer s2 = Ok d2 ->
    Z.compare d1 d2 = String.compare s1 s2.
Proof.
  induction s1 as [|c1 s1 IH]; intros [|c2 s2] d1 d2 He1 He2 Hlen H1 H2;
    try discriminate Hlen.
  - vm_compute in H1, H2. by injection H1 as <-; injection H2 as <-.
  - destruct He1 as [(v1 & Hv1 & Hc1) He1], He2 as [(v2 & Hv2 & Hc2) He2].
    change (Z.of_nat Utils.domain_size) with 4 in Hc1, Hc2.
    injection Hlen as Hlen. change (Py.len s1 = Py.len s2) in Hlen.
    destruct (pack_unpack s1 He1) as (r1 & Hr1 & Hb1 & _).
    destruct (pack_unpack s2 He2) as (r2 & Hr2 & Hb2 & _).
    rewrite (set_from_kmer_code c1 s1 v1 r1) in H1 by done.
    rewrite (set_from_kmer_code c2 s2 v2 r2) in H2 by done.
    injection H1 as <-. injection H2 as <-.
    rewrite <- Hlen in Hb2 |- *.
    specialize (IH s2 r1 r2 He1 He2 Hlen Hr1 Hr2).
    simpl String.compare. rewrite <- IH.
    set (m := 2 * Z.of_nat (Py.len s1)) in *.
    assert (0 < 2 ^ m) by (apply Z.pow_pos_nonneg; lia).
    rewrite !lor_shiftl_add by lia.
    apply digit_char_value in Hv1 as [<- _]. apply digit_char_value in Hv2 as [<- _].
    assert (v1 = 0 \/ v1 = 1 \/ v1 = 2 \/ v1 = 3) as [->|[->|[->| ->]]] by lia;
      assert (v2 = 0 \/ v2 = 1 \/ v2 = 2 \/ v2 = 3) as [->|[->|[->| ->]]] by lia;
      match goal with
      | |- context [Ascii.compare ?a ?b] =>
          let r := eval vm_compute in (Ascii.compare a b) in
          change (Ascii.compare a b) with r
      end;
      cbv iota;
      first [ apply Z.add_compare_mono_l
            | apply Z.compare_lt_iff; nia
            | apply Z.compare_gt_iff; nia ].
Qed.

(** X4: Keys of encoded strings of one length are ordered as the strings are:
    [Motif.__lt__] is the lexicographic order, and equal keys mean equal
    strings. *)
Theorem key_order_is_lexicographic (s1 s2 : string) (d1 d2 : Z) :
  Utils.encoded s1 -> Utils.encoded s2 -> Py.len s1 = Py.len s2 ->
  Motif s1 = Ok d1 -> Motif s2 = Ok d2 ->
  lt d1 d2 = String.ltb s1 s2 /\ (d1 = d2 <-> s1 = s2).
Proof.
  intros He1 He2 Hlen H1 H2.
  pose proof (key_compare s1 s2 d1 d2 He1 He2 Hlen H1 H2) as Hcmp.
  split.
  - unfold lt, String.ltb, Z.ltb. by rewrite Hcmp.
  - split.
    + intros ->. apply String.compare_eq_iff. rewrite <- Hcmp. apply Z.compare_refl.
    + intros ->. unfold Motif in *. congruence.
Qed.

Lemma key_order_is_lexicographic_witness :
  lt 6 27 = String.ltb "0012" "0123" /\ (6 = 27 <-> "0012"%string = "0123"%string).
Proof.
  apply (key_order_is_lexicographic "0012" "0123" 6 27);
    first [ reflexivity
          | repeat split; (eexists; split; [reflexivity|]); vm_compute; split; congruence ].
Defined.

(** X5: [get_2bits] at the bit position of character [i] reads back the code
    of that character. *)
Theorem get_2bits_reads_code (s : string) :
  forall (d : Z) (i : nat) (c : ascii),
    Utils.encoded s -> Motif s = Ok d -> String.get i s = Some c ->
    Py.digit_value c = Some (get_2bits d (2 * Z.of_nat (Py.len s - 1 - i))).
Proof.
  induction s as [|c0 s IH]; intros d i c Henc Hd Hget; [done|].
  destruct Henc as [(v & Hv & Hrange) Henc].
  change (Z.of_nat Utils.domain_size) with 4 in Hrange.
  destruct (pack_unpack s Henc) as (r & Hr & Hb & _).
  unfold Motif in *. rewrite (set_from_kmer_code c0 s v r) in Hd by done.
  injection Hd as <-.
  change (Py.len (String c0 s)) with (S (Py.len s)).
  change (get_2bits ?d (2 * Z.of_nat (?k - 1 - ?i))) with (get_code d k i).
  destruct i as [|i]; simpl in Hget.
  - injection Hget as <-. by rewrite get_code_head.
  - rewrite get_code_tail by (by apply get_Some_lt in Hget).
    by apply IH.
Qed.

Lemma get_2bits_reads_code_witness :
  Py.digit_value "3" = Some (get_2bits 27 (2 * Z.of_nat (Py.len "0123" - 1 - 3))).
Proof.
  apply (get_2bits_reads_code "0123" 27 3 "3");
    first [ reflexivity
          | repeat split; (eexists; split; [reflexivity|]); vm_compute; split; congruence ].
Defined.

Lemma auxif_loop_lor (x : string) (n : nat) (w : Z) (ixs : list nat) (d : Z) :
  Py.for_each ixs (auxif_step x n w) d =
    r ← Py.for_each ixs (auxif_step x n w) 0; Ok (Z.lor d r).
Proof.
  revert d. induction ixs as [|i ixs IH]; intros d; simpl.
  - by rewrite Z.lor_0_r.
  - unfold auxif_step at 1 3.
    destruct (Py.index x i) as [c|e]; simpl; [|done].
    destruct (Py.int c) as [v|e]; simpl; [|done].
    destruct (v =? w); simpl.
    + rewrite IH. rewrite (IH (Z.lor 0 _)).
      destruct (Py.for_each ixs (auxif_step x n w) 0) as [r|e]; simpl; [|done].
      unfold mbind, result_bind; simpl.
      by rewrite Z.lor_0_l, Z.lor_assoc.
    + apply IH.
Qed.

Lemma Auxif_cons (c : ascii) (s : string) (w : Z) :
  Auxif (String c s) w =
    v ← Py.int c;
    r ← Auxif s w;
    Ok (if v =? w then Z.lor (Z.shiftl 1 (Z.of_nat (Py.len s))) r else r).
Proof.
  change (Auxif (String c s) w)
    with (Py.for_each (Py.range (S (Py.len s))) (auxif_step (String c s) (S (Py.len s)) w) 0).
  change (Auxif s w) with (Py.for_each (Py.range (Py.len s)) (auxif_step s (Py.len s) w) 0).
  unfold Py.range. simpl seq. simpl Py.for_each.
  unfold auxif_step at 1. simpl.
  destruct (Py.int c) as [v|e]; simpl; [|done].
  replace (Py.len s - 0 - 0)%nat with (Py.len s) by lia.
  assert (forall d, Py.for_each (seq 1 (Py.len s))
            (auxif_step (String c s) (S (Py.len s)) w) d
          = Py.for_each (seq 0 (Py.len s))
              (fun i => auxif_step (String c s) (S (Py.len s)) w (S i)) d) as Hshift.
  { intros d. by rewrite <- seq_shift, for_each_map. }
  assert (forall d, Py.for_each (seq 0 (Py.len s))
            (fun i => auxif_step (String c s) (S (Py.len s)) w (S i)) d
          = Py.for_each (seq 0 (Py.len s)) (auxif_step s (Py.len s) w) d) as Hext.
  { intros d. apply for_each_ext. intros i d'. unfold auxif_step. simpl.
    replace (Py.len s - 0 - S i)%nat with (Py.len s - 1 - i)%nat by lia. done. }
  destruct (v =? w); simpl.
  - rewrite Hshift, Hext, auxif_loop_lor. by rewrite Z.lor_0_l.
  - rewrite Hshift, Hext. by destruct (Py.for_each _ _ 0).
Qed.

Lemma get_bit_small (r : Z) (n : nat) :
  0 <= r < 2 ^ Z.of_nat n -> get_bit r (Z.of_nat n) = 0.
Proof.
  intros Hr. unfold get_bit. rewrite Z.shiftr_div_pow2 by lia.
  by rewrite Z.div_small.
Qed.

Lemma get_bit_top (r : Z) (n : nat) :
  0 <= r < 2 ^ Z.of_nat n ->
  get_bit (Z.lor (Z.shiftl 1 (Z.of_nat n)) r) (Z.of_nat n) = 1.
Proof.
  intros Hr. unfold get_bit. rewrite Z.shiftr_lor.
  rewrite Z.shiftr_shiftl_l, Z.sub_diag, Z.shiftl_0_r by lia.
  rewrite (Z.shiftr_div_pow2 r) by lia. by rewrite Z.div_small.
Qed.

Lemma get_bit_below (r : Z) (n p : nat) :
  (p < n)%nat ->
  get_bit (Z.lor (Z.shiftl 1 (Z.of_nat n)) r) (Z.of_nat p) = get_bit r (Z.of_nat p).
Proof.
  intros Hp. unfold get_bit. rewrite Z.shiftr_lor, Z.land_lor_distr_l.
  rewrite Z.shiftr_shiftl_l by lia.
  replace (Z.land (Z.shiftl 1 (Z.of_nat n - Z.of_nat p)) 1) with 0; [done|].
  symmetry. change 1 with (Z.ones 1) at 2. rewrite Z.land_ones by lia.
  rewrite Z.shiftl_mul_pow2 by lia.
  replace (Z.of_nat n - Z.of_nat p) with ((Z.of_nat n - Z.of_nat p - 1) + 1) by lia.
  rewrite Z.pow_add_r by lia. rewrite Z.mul_assoc. apply Z.mod_mul. lia.
Qed.

Lemma Auxif_bits (s : string) (w : Z) :
  all_digits s ->
  exists a, Auxif s w = Ok a
    /\ 0 <= a < 2 ^ Z.of_nat (Py.len s)
    /\ forall i c, String.get i s = Some c ->
         (get_bit a (Z.of_nat (Py.len s - 1 - i)) = 1 <-> Py.digit_value c = Some w).
Proof.
  induction s as [|c0 s IH]; intros Hs.
  - exists 0. repeat split; try done.
  - destruct Hs as [Hc0 Hs]. destruct (IH Hs) as (r & Hr & Hb & Hbits).
    unfold Py.isdigit in Hc0. destruct (Py.digit_value c0) as [v|] eqn:Hv; [|done].
    change (Py.len (String c0 s)) with (S (Py.len s)).
    assert (0 < 2 ^ Z.of_nat (Py.len s)) by (apply Z.pow_pos_nonneg; lia).
    assert (2 ^ Z.of_nat (S (Py.len s)) = 2 * 2 ^ Z.of_nat (Py.len s)) as Hpow.
    { rewrite Nat2Z.inj_succ, Z.pow_succ_r by lia. done. }
    rewrite Auxif_cons. unfold Py.int. rewrite Hv, Hr.
    exists (if v =? w then Z.lor (Z.shiftl 1 (Z.of_nat (Py.len s))) r else r).
    split; [reflexivity|].
    destruct (Z.eqb_spec v w) as [->|Hne].
    + split.
      { rewrite lor_shiftl_add by lia. lia. }
      intros [|i] c Hget; simpl in Hget.
      * injection Hget as <-. replace (S (Py.len s) - 1 - 0)%nat with (Py.len s) by lia.
        rewrite get_bit_top by done. done.
      * replace (S (Py.len s) - 1 - S i)%nat with (Py.len s - 1 - i)%nat by lia.
        pose proof (get_Some_lt _ _ _ Hget).
        rewrite get_bit_below by lia. by apply Hbits.
    + split; [lia|].
      intros [|i] c Hget; simpl in Hget.
      * injection Hget as <-. replace (S (Py.len s) - 1 - 0)%nat with (Py.len s) by lia.
        rewrite get_bit_small by done. split; [done|]. rewrite Hv. congruence.
      * replace (S (Py.len s) - 1 - S i)%nat with (Py.len s - 1 - i)%nat by lia.
        by apply Hbits.
Qed.

(** X6: The [Auxif] key of a string of digits has bit [len - 1 - i] set exactly
    when character [i] is the wildcard code. *)
Theorem auxif_marks_wildcards (s : string) (w a : Z) (i : nat) (c : ascii) :
  all_digits s -> Auxif s w = Ok a -> String.get i s = Some c ->
  (get_bit a (Z.of_nat (Py.len s - 1 - i)) = 1 <-> Py.digit_value c = Some w).
Proof.
  intros Hs Ha Hget. destruct (Auxif_bits s w Hs) as (a' & Ha' & _ & Hbits).
  rewrite Ha in Ha'. injection Ha' as <-. by apply Hbits.
Qed.

Lemma auxif_marks_wildcards_witness :
  get_bit 2 (Z.of_nat (Py.len "142" - 1 - 1)) = 1 <-> Py.digit_value "4" = Some 4.
Proof.
  apply (auxif_marks_wildcards "142" 4 2 1 "4"); first [reflexivity | by vm_compute].
Defined.

End KeyFacts.

(** ** Encoding and decoding of reads (utils.py) *)

Section Encoding.
Import Utils.

(** The code character [encode_strings] writes for a character of a read. *)
Lemma encode_string_cons (c : ascii) (s : string) :
  encode_string DNA_DOMAIN (String c s) =
    String.append (default "0"%string (encoding_map DNA_DOMAIN !! upper_char c))
      (encode_string DNA_DOMAIN s).
Proof. reflexivity. Qed.

Lemma encoding_map_lookup (c : ascii) :
  default "0"%string (encoding_map DNA_DOMAIN !! c) =
    if Ascii.eqb c "C" then "1"%string
    else if Ascii.eqb c "G" then "2"%string
    else if Ascii.eqb c "T" then "3"%string
    else "0"%string.
Proof. destruct c as [[] [] [] [] [] [] [] []]; vm_compute; reflexivity. Qed.

Lemma encode_char_code (c : ascii) :
  exists a, default "0"%string (encoding_map DNA_DOMAIN !! c) = String a EmptyString
            /\ is_code a.
Proof.
  rewrite encoding_map_lookup.
  repeat (case (Ascii.eqb c _));
    eexists; (split; [reflexivity|]); eexists; (split; [reflexivity|]);
    vm_compute; split; congruence.
Qed.

Lemma encode_string_spec (s : string) :
  encoded (encode_string DNA_DOMAIN s)
  /\ Py.len (encode_string DNA_DOMAIN s) = Py.len s.
Proof.
  induction s as [|c s [IHe IHl]]; [done|].
  rewrite encode_string_cons.
  destruct (encode_char_code (upper_char c)) as (a & -> & Ha).
  change (String.append (String a EmptyString) ?t) with (String a t).
  split; [done|]. simpl. by rewrite <- IHl.
Qed.

(** X7: [encode_strings] turns every string into an encoded string of the same
    length: characters outside the domain become the code of its first
    letter. *)
Theorem encode_string_is_encoded (s : string) :
  encoded (encode_string DNA_DOMAIN s)
  /\ Py.len (encode_string DNA_DOMAIN s) = Py.len s.
Proof. apply encode_string_spec. Qed.

Lemma in_dna_cases (c : ascii) :
  c ∈ list_ascii_of_string DNA_DOMAIN ->
  c = "A"%char \/ c = "C"%char \/ c = "G"%char \/ c = "T"%char.
Proof.
  intros Hin. change (list_ascii_of_string DNA_DOMAIN)
    with ["A"%char; "C"%char; "G"%char; "T"%char] in Hin.
  repeat (apply elem_of_cons in Hin as [->|Hin]; [auto|]).
  by apply elem_of_nil in Hin.
Qed.

(** X8: Decoding an encoded read gives the read back in upper case, when the
    read is made of the letters of the domain. *)
Theorem decode_encode (s : string) :
  over_domain DNA_DOMAIN s ->
  decode_motif (encode_string DNA_DOMAIN s) DNA_DOMAIN = upper s.
Proof.
  induction s as [|c s IH]; intros Hs; [done|].
  destruct Hs as [Hc Hs]. rewrite encode_string_cons.
  simpl upper. rewrite <- (IH Hs).
  apply in_dna_cases in Hc as [->|[->|[->| ->]]]; reflexivity.
Qed.

Lemma decode_encode_witness :
  decode_motif (encode_string DNA_DOMAIN "acGt") DNA_DOMAIN = upper "acGt".
Proof.
  apply (decode_encode "acGt"). repeat split; eval_in.
Defined.

(** X9: Encoding a decoded motif gives the motif back: the motifs an engine
    reports are written out without loss. *)
Theorem encode_decode (m : string) :
  encoded m ->
  encode_string DNA_DOMAIN (decode_motif m DNA_DOMAIN) = m
  /\ over_domain DNA_DOMAIN (decode_motif m DNA_DOMAIN).
Proof.
  induction m as [|c m IH]; intros Hm; [done|].
  destruct Hm as [Hc Hm]. destruct (IH Hm) as [IHe IHo].
  simpl decode_motif. rewrite encode_string_cons, IHe.
  apply is_code_cases in Hc as [->|[->|[->| ->]]];
    (split; [reflexivity|]); (split; [|done]); eval_in.
Qed.

Lemma encode_decode_witness :
  encode_string DNA_DOMAIN (decode_motif "0312" DNA_DOMAIN) = "0312"%string
  /\ over_domain DNA_DOMAIN (decode_motif "0312" DNA_DOMAIN).
Proof.
  apply (encode_decode "0312").
  repeat split; (eexists; split; [reflexivity|]); vm_compute; split; congruence.
Defined.



End Encoding.

(** ** The output of the V1 engine (ems1.py) *)

Section Ems1Output.
Import Ems1.

Lemma grows_refl (l : nat) (S : gset string) : grows l S S.
Proof. split; [done|]. auto. Qed.

Lemma grows_trans (l : nat) (S1 S2 S3 : gset string) :
  grows l S1 S2 -> grows l S2 S3 -> grows l S1 S3.
Proof.
  intros [H12 H12'] [H23 H23']. split; [set_solver|].
  intros m Hm. destruct (H23' m Hm) as [Hm2|?]; [|auto]. by apply H12'.
Qed.

Lemma grows_fold {X} (l : nat) (f : gset string -> X -> gset string) (xs : list X) :
  (forall acc x, grows l acc (f acc x)) ->
  forall acc, grows l acc (fold_left f xs acc).
Proof.
  intros Hf. induction xs as [|x xs IH]; intros acc; simpl; [apply grows_refl|].
  eapply grows_trans; [apply Hf|apply IH].
Qed.

Lemma grows_fold_from {X} (l : nat) (f : gset string -> X -> gset string)
    (xs : list X) (S acc : gset string) :
  grows l S acc ->
  (forall acc x, grows l acc (f acc x)) ->
  grows l S (fold_left f xs acc).
Proof. intros HS Hf. eapply grows_trans; [exact HS|by apply grows_fold]. Qed.

Lemma generate_neighborhood_grows (l : nat) (errors : nat) :
  forall (kmer : string) (S : gset string),
    grows l S (_generate_neighborhood kmer errors l S).
Proof.
  induction errors as [|errors IH]; intros kmer S.
  - simpl. destruct (Nat.eqb_spec (Py.len kmer) l) as [Hl|_]; [|apply grows_refl].
    split; [set_solver|]. intros m [->%elem_of_singleton|Hm]%elem_of_union; auto.
  - cbn [_generate_neighborhood]. cbv zeta.
    repeat first
      [ apply grows_refl
      | apply IH
      | apply grows_fold_from; [|intros ? ?]
      | match goal with
        | |- grows _ _ (if ?c then _ else _) => destruct c
        | |- grows _ _ (match ?c with left _ => _ | right _ => _ end) => destruct c
        end ].
Qed.

(** Every candidate of a sequence has length [l]. *)
Lemma sequence_candidates_length (l d : nat) (seq m : string) :
  m ∈ sequence_candidates l d seq -> Py.len m = l.
Proof.
  intros Hm.
  assert (grows l ∅ (sequence_candidates l d seq)) as [_ Hg].
  { unfold sequence_candidates.
    repeat first
      [ apply grows_refl
      | apply generate_neighborhood_grows
      | apply grows_fold_from; [|intros ? ?]
      | match goal with
        | |- grows _ _ (if ?c then _ else _) => destruct c
        end ]. }
  destruct (Hg m Hm) as [Hempty|]; [|done]. by apply not_elem_of_empty in Hempty.
Qed.

Lemma coverage_all (l d : nat) (reads : list string) (m : string) :
  coverage l d reads m = List.length reads
  <-> Forall (fun seq => m ∈ sequence_candidates l d seq) reads.
Proof.
  unfold coverage. induction reads as [|seq reads IH]; simpl.
  - split; [constructor|done].
  - rewrite filter_cons. pose proof (length_filter (fun seq => m ∈ sequence_candidates l d seq) reads).
    case_decide; simpl.
    + rewrite list.Forall_cons. split; [intros Heq|intros [_ Hall]].
      * split; [done|]. apply IH. lia.
      * f_equal. by apply IH.
    + split; [lia|]. intros Hall. by apply list.Forall_cons in Hall as [? _].
Qed.

(** X12: For at least one read, the motifs [search] reports are the strings
    that are candidates of every read; they have length [l]. *)
Theorem ems1_output_is_common_candidates (l d : nat) (reads : list string)
    (m : string) :
  reads <> [] ->
  (m ∈ search l d reads
   <-> Forall (fun seq => m ∈ sequence_candidates l d seq) reads)
  /\ (m ∈ search l d reads -> Py.len m = l).
Proof.
  intros Hreads.
  assert (m ∈ search l d reads
          <-> Forall (fun seq => m ∈ sequence_candidates l d seq) reads) as Hiff.
  { etransitivity; [|apply coverage_all].
    etransitivity;
      [unfold search; rewrite merge_sort_Permutation; apply elem_of_select|].
    destruct (process_from_spec l d reads 0 init) with (m := m) as [Hc _].
    { intros m'. unfold init. simpl. rewrite lookup_empty. simpl. lia. }
    fold (process_all l d reads) in Hc.
    replace (default 0%nat (motif_counts init !! m)) with 0%nat in Hc
      by (unfold init; simpl; by rewrite lookup_empty).
    simpl in Hc. rewrite <- Hc.
    destruct (motif_counts (process_all l d reads) !! m) as [n|] eqn:Hn; simpl.
    - split; congruence.
    - split; [done|]. destruct reads; [done|]. simpl. lia. }
  split; [exact Hiff|].
  intros Hm. apply Hiff in Hm. destruct reads as [|seq reads]; [done|].
  apply list.Forall_cons in Hm as [Hm _]. by apply sequence_candidates_length in Hm.
Qed.

Lemma ems1_output_is_common_candidates_witness :
  ("012"%string ∈ search 3 0 ["0123"%string]
   <-> Forall (fun seq => "012"%string ∈ sequence_candidates 3 0 seq) ["0123"%string])
  /\ ("012"%string ∈ search 3 0 ["0123"%string] -> Py.len "012" = 3%nat).
Proof. apply (ems1_output_is_common_candidates 3 0 ["0123"%string] "012"). done. Defined.

Lemma len_slice_to (j : nat) (s : string) :
  Py.len (Py.slice_to j s) = Nat.min j (Py.len s).
Proof.
  revert j. induction s as [|c s IH]; intros [|j]; simpl; try done.
  f_equal. apply IH.
Qed.

Lemma len_slice_from (j : nat) (s : string) :
  Py.len (Py.slice_from j s) = (Py.len s - j)%nat.
Proof.
  revert j. induction s as [|c s IH]; intros [|j]; simpl; auto.
Qed.

Lemma len_slice (i j : nat) (s : string) :
  Py.len (Py.slice i j s) = Nat.min (j - i) (Py.len s - i).
Proof. unfold Py.slice. by rewrite len_slice_to, len_slice_from. Qed.

Lemma exact_candidates_fold (l : nat) (kmer : nat -> string) (xs : list nat)
    (acc : gset string) (m : string) :
  m ∈ fold_left (fun acc i => _generate_neighborhood (kmer i) 0 l acc) xs acc
  <-> m ∈ acc \/ exists i, i ∈ xs /\ Py.len (kmer i) = l /\ m = kmer i.
Proof.
  revert acc. induction xs as [|x xs IH]; intros acc; simpl.
  - split; [auto|]. intros [?|(i & Hi & _)]; [done|]. by apply elem_of_nil in Hi.
  - rewrite IH. destruct (Nat.eqb_spec (Py.len (kmer x)) l) as [Hl|Hl].
    + rewrite elem_of_union, elem_of_singleton. split.
      * intros [[->|?]|(i & Hi & ?)].
        -- right. exists x. split; [left|done].
        -- by left.
        -- right. exists i. split; [by right|done].
      * intros [?|(i & Hi & Hli & ->)]; [auto|].
        apply elem_of_cons in Hi as [->|Hi]; [auto|]. right. eauto.
    + split.
      * intros [?|(i & Hi & ?)]; [auto|]. right. exists i. split; [by right|done].
      * intros [?|(i & Hi & Hli & ->)]; [auto|].
        apply elem_of_cons in Hi as [->|Hi]; [done|]. right. eauto.
Qed.

(** X13: Without edits ([d = 0]) the candidates of a sequence are its substrings
    of length [l]. *)
Theorem exact_candidates_are_substrings (l : nat) (seq m : string) :
  m ∈ sequence_candidates l 0 seq <-> (0 < l)%nat /\ substring_of l m seq.
Proof.
  unfold sequence_candidates.
  change (Py.rangeZ (- Z.of_nat 0) (Z.of_nat 0 + 1)) with [0]. cbn [fold_left].
  rewrite Z.add_0_r, Nat2Z.id.
  destruct (Z.leb_spec (Z.of_nat l) 0) as [Hl0|Hl0]; simpl.
  { split; [by intros H%not_elem_of_empty|lia]. }
  destruct (Z.ltb_spec (Z.of_nat (Py.len seq)) (Z.of_nat l)) as [Hlen|Hlen].
  { split; [by intros H%not_elem_of_empty|].
    intros [_ (i & Hi & _)]. lia. }
  rewrite (exact_candidates_fold l (fun i => Py.slice i (i + l) seq)).
  unfold substring_of, Py.range. split.
  - intros [H%not_elem_of_empty|(i & Hi%elem_of_seq & _ & ->)]; [done|].
    split; [lia|]. exists i. split; [lia|done].
  - intros [_ (i & Hi & ->)]. right. exists i. split; [apply elem_of_seq; lia|].
    split; [|done]. rewrite len_slice. lia.
Qed.

End Ems1Output.

(** ** Sorting, intersecting and merging key lists (ems2p.py) *)

Section SortedKeys.
Import Ems2p.

Lemma elem_of_push (c : list Z) (m x : Z) : x ∈ push c m <-> x ∈ c \/ x = m.
Proof.
  unfold push. destruct (list.last c) as [y|] eqn:Hy.
  - destruct (Z.eqb_spec m y) as [->|Hne].
    + split; [auto|]. intros [?| ->]; [done|]. by apply last_Some_elem_of.
    + by rewrite elem_of_app, list_elem_of_singleton.
  - by rewrite elem_of_app, list_elem_of_singleton.
Qed.

Lemma push_sorted (c : list Z) (m : Z) :
  StronglySorted Z.lt c -> (forall y, y ∈ c -> y <= m) ->
  StronglySorted Z.lt (push c m).
Proof.
  intros Hc Hle. unfold push. destruct (list.last c) as [y|] eqn:Hy.
  - destruct (Z.eqb_spec m y) as [->|Hne]; [done|].
    apply last_Some in Hy as [c' ->].
    apply StronglySorted_app_2; [|done|repeat constructor].
    intros x1 x2 Hx1 Hx2. apply list_elem_of_singleton in Hx2. subst x2.
    assert (y <= m) by (apply Hle, elem_of_app; right; by left).
    apply elem_of_app in Hx1 as [Hx1|Hx1].
    + assert (x1 < y); [|lia].
      eapply StronglySorted_app_1_elem_of; [exact Hc|done|by left].
    + apply list_elem_of_singleton in Hx1. lia.
  - apply last_None in Hy as ->. repeat constructor.
Qed.

Lemma fold_push_elem_of (b : list Z) : forall (c : list Z) (x : Z),
  x ∈ fold_left push b c <-> x ∈ c \/ x ∈ b.
Proof.
  induction b as [|m b IH]; intros c x; simpl.
  - split; [auto|]. intros [?|Hx]; [done|]. by apply elem_of_nil in Hx.
  - rewrite IH, elem_of_push, elem_of_cons. tauto.
Qed.

Lemma fold_push_sorted (b : list Z) : forall c : list Z,
  StronglySorted Z.le b -> StronglySorted Z.lt c ->
  (forall y x, y ∈ c -> x ∈ b -> y <= x) ->
  StronglySorted Z.lt (fold_left push b c).
Proof.
  induction b as [|m b IH]; intros c Hb Hc Hle; simpl; [done|].
  apply StronglySorted_inv in Hb as [Hb Hm].
  rewrite list.Forall_forall in Hm.
  apply IH; [done|..].
  - apply push_sorted; [done|]. intros y Hy. apply Hle; [done|by left].
  - intros y x [Hy| ->]%elem_of_push Hx.
    + apply Hle; [done|by right].
    + by apply Hm.
Qed.

Lemma merge_from_elem_of (a : list Z) : forall (b c : list Z) (x : Z),
  x ∈ merge_from a b c <-> x ∈ c \/ x ∈ a \/ x ∈ b.
Proof.
  induction a as [|ai a IHa]; intros b c x.
  - simpl. rewrite fold_push_elem_of. split; [tauto|].
    intros [?|[Hx|?]]; [auto| |auto]. by apply elem_of_nil in Hx.
  - revert c. induction b as [|bj b IHb]; intros c.
    + simpl. rewrite IHa, elem_of_push, elem_of_cons. tauto.
    + cbn [merge_from]. destruct (ai <? bj) eqn:H1; [|destruct (bj <? ai) eqn:H2].
      * rewrite IHa, elem_of_push, !elem_of_cons. tauto.
      * fold (merge_from (ai :: a)). rewrite IHb, elem_of_push, !elem_of_cons. tauto.
      * assert (ai = bj) as -> by lia.
        rewrite IHa, elem_of_push, !elem_of_cons. tauto.
Qed.

Lemma merge_from_sorted (a : list Z) : forall b c : list Z,
  StronglySorted Z.le a -> StronglySorted Z.le b -> StronglySorted Z.lt c ->
  (forall y x, y ∈ c -> x ∈ a \/ x ∈ b -> y <= x) ->
  StronglySorted Z.lt (merge_from a b c).
Proof.
  induction a as [|ai a IHa]; intros b c Ha Hb Hc Hle.
  - simpl. apply fold_push_sorted; auto.
  - apply StronglySorted_inv in Ha as [Ha Hai]. rewrite list.Forall_forall in Hai.
    revert c Hc Hle. induction b as [|bj b IHb]; intros c Hc Hle.
    + simpl. apply IHa; [done|constructor|..].
      * apply push_sorted; [done|]. intros y Hy. apply Hle; [done|]. left. by left.
      * intros y x [Hy| ->]%elem_of_push [Hx|Hx].
        -- apply Hle; [done|]. left. by right.
        -- by apply elem_of_nil in Hx.
        -- by apply Hai.
        -- by apply elem_of_nil in Hx.
    + pose proof Hb as Hb'.
      apply StronglySorted_inv in Hb' as [Hb' Hbj]. rewrite list.Forall_forall in Hbj.
      cbn [merge_from]. destruct (Z.ltb_spec ai bj) as [H1|H1];
        [|destruct (Z.ltb_spec bj ai) as [H2|H2]].
      * apply IHa; [done|done|..].
        -- apply push_sorted; [done|]. intros y Hy. apply Hle; [done|]. left. by left.
        -- intros y x [Hy| ->]%elem_of_push [Hx|Hx].
           ++ apply Hle; [done|]. left. by right.
           ++ apply Hle; [done|]. by right.
           ++ by apply Hai.
           ++ apply elem_of_cons in Hx as [->|Hx]; [lia|].
              specialize (Hbj x Hx). lia.
      * fold (merge_from (ai :: a)). apply IHb; [done|..].
        -- apply push_sorted; [done|]. intros y Hy. apply Hle; [done|]. right. by left.
        -- intros y x [Hy| ->]%elem_of_push [Hx|Hx].
           ++ apply Hle; [done|]. by left.
           ++ apply Hle; [done|]. right. by right.
           ++ apply elem_of_cons in Hx as [->|Hx]; [lia|].
              specialize (Hai x Hx). lia.
           ++ by apply Hbj.
      * assert (ai = bj) as -> by lia.
        apply IHa; [done|done|..].
        -- apply push_sorted; [done|]. intros y Hy. apply Hle; [done|]. left. by left.
        -- intros y x [Hy| ->]%elem_of_push [Hx|Hx].
           ++ apply Hle; [done|]. left. by right.
           ++ apply Hle; [done|]. right. by right.
           ++ by apply Hai.
           ++ by apply Hbj.
Qed.

Lemma merge_motifs_sorted (a b : list Z) :
  StronglySorted Z.le a -> StronglySorted Z.le b ->
  StronglySorted Z.lt (_merge_motifs a b)
  /\ forall x, x ∈ _merge_motifs a b <-> x ∈ a \/ x ∈ b.
Proof.
  intros Ha Hb. unfold _merge_motifs. split.
  - apply merge_from_sorted; [done|done|constructor|].
    intros y x Hy. by apply elem_of_nil in Hy.
  - intros x. rewrite merge_from_elem_of. split; [|tauto].
    intros [Hx|?]; [|done]. by apply elem_of_nil in Hx.
Qed.

(** X14: [_merge_motifs] on two sorted lists returns their union as a strictly
    increasing list: sorted, without duplicates. *)
Theorem merge_motifs_is_sorted_union (a b : list Z) :
  StronglySorted Z.le a -> StronglySorted Z.le b ->
  StronglySorted Z.lt (_merge_motifs a b)
  /\ forall x, x ∈ _merge_motifs a b <-> x ∈ a \/ x ∈ b.
Proof. apply merge_motifs_sorted. Qed.

Lemma merge_motifs_is_sorted_union_witness :
  StronglySorted Z.lt (_merge_motifs [1; 3; 3] [2; 3])
  /\ forall x, x ∈ _merge_motifs [1; 3; 3] [2; 3] <-> x ∈ [1; 3; 3] \/ x ∈ [2; 3].
Proof.
  apply (merge_motifs_is_sorted_union [1; 3; 3] [2; 3]);
    repeat constructor; lia.
Defined.

Lemma dedupe_spec (xs : list Z) : forall last : Z,
  StronglySorted Z.le xs -> (forall x, x ∈ xs -> last <= x) ->
  StronglySorted Z.lt (dedupe xs last)
  /\ forall x, x ∈ dedupe xs last <-> x ∈ xs /\ x <> last.
Proof.
  induction xs as [|m xs IH]; intros last Hxs Hle; simpl.
  - split; [constructor|]. intros x. split; [by intros ?%elem_of_nil|].
    by intros [?%elem_of_nil _].
  - apply StronglySorted_inv in Hxs as [Hxs Hm]. rewrite list.Forall_forall in Hm.
    assert (last <= m) by (apply Hle; by left).
    destruct (Z.eqb_spec m last) as [->|Hne]; simpl.
    + destruct (IH last Hxs) as [Hs Hin]; [intros; apply Hle; by right|].
      split; [done|]. intros x. rewrite Hin, elem_of_cons. split; [tauto|].
      intros [[?|?] ?]; done.
    + destruct (IH m Hxs Hm) as [Hs Hin]. split.
      * constructor; [done|]. apply list.Forall_forall. intros x Hx.
        apply Hin in Hx as [Hx Hxm]. specialize (Hm x Hx). lia.
      * intros x. rewrite !elem_of_cons, Hin. split.
        -- intros [->|[Hx Hxm]]; [split; [by left|lia]|].
           split; [by right|]. specialize (Hm x Hx). lia.
        -- intros [[->|Hx] Hxl]; [by left|].
           destruct (Z.eq_dec x m) as [->|]; [by left|by right].
Qed.

Lemma intersect_sorted_spec (a : list Z) : forall b : list Z,
  StronglySorted Z.lt a -> StronglySorted Z.lt b ->
  StronglySorted Z.lt (intersect_sorted a b)
  /\ forall x, x ∈ intersect_sorted a b <-> x ∈ a /\ x ∈ b.
Proof.
  induction a as [|ai a IHa]; intros b Ha Hb.
  - simpl. split; [constructor|]. intros x. split; [by intros ?%elem_of_nil|].
    by intros [?%elem_of_nil _].
  - apply StronglySorted_inv in Ha as [Ha Hai]. rewrite list.Forall_forall in Hai.
    induction b as [|bj b IHb].
    + simpl. split; [constructor|]. intros x. split; [by intros ?%elem_of_nil|].
      by intros [_ ?%elem_of_nil].
    + pose proof Hb as Hb'.
      apply StronglySorted_inv in Hb' as [Hb' Hbj]. rewrite list.Forall_forall in Hbj.
      cbn [intersect_sorted]. destruct (Z.ltb_spec ai bj) as [H1|H1];
        [|destruct (Z.ltb_spec bj ai) as [H2|H2]].
      * destruct (IHa (bj :: b) Ha Hb) as [Hs Hin]. split; [done|].
        intros x. rewrite Hin, !elem_of_cons. split; [tauto|].
        intros [[Hx|Hx] Hxb]; [|tauto]. subst x.
        destruct Hxb as [?|Hxb]; [lia|]. specialize (Hbj _ Hxb). lia.
      * fold (intersect_sorted (ai :: a)).
        destruct (IHb Hb') as [Hs Hin]. split; [done|].
        intros x. rewrite Hin, !elem_of_cons. split; [tauto|].
        intros [Hxa [Hx|Hx]]; [|tauto]. subst x.
        destruct Hxa as [?|Hxa]; [lia|]. specialize (Hai _ Hxa). lia.
      * assert (ai = bj) as -> by lia.
        destruct (IHa b Ha Hb') as [Hs Hin]. split.
        -- constructor; [done|]. apply list.Forall_forall. intros x Hx.
           apply Hin in Hx as [Hx _]. by apply Hai.
        -- intros x. rewrite !elem_of_cons, Hin. tauto.
Qed.

Lemma elem_of_take_l {A} (n : nat) (xs : list A) (x : A) :
  x ∈ take n xs -> x ∈ xs.
Proof.
  intros Hx. rewrite <- (take_drop n xs). apply elem_of_app. by left.
Qed.

Lemma radix_sort_and_intersect_spec
    (main_array_data curr_array : list Z) (compact_count : nat) :
  StronglySorted Z.lt main_array_data ->
  Forall (fun m => 0 <= m) curr_array ->
  StronglySorted Z.lt
    (_radix_sort_and_intersect main_array_data curr_array compact_count)
  /\ forall x,
       x ∈ _radix_sort_and_intersect main_array_data curr_array compact_count
       <-> x ∈ take compact_count curr_array
           /\ (main_array_data = [] \/ x ∈ main_array_data).
Proof.
  intros Hmain Hpos. unfold _radix_sort_and_intersect.
  set (combined := merge_sort Z.le (take compact_count curr_array)).
  assert (forall x, x ∈ combined <-> x ∈ take compact_count curr_array) as Hcomb.
  { intros x. unfold combined. by rewrite merge_sort_Permutation. }
  assert (StronglySorted Z.le combined) as Hsorted.
  { apply StronglySorted_merge_sort; apply _. }
  destruct (dedupe_spec combined (-1) Hsorted) as [Hs Hin].
  { intros x Hx%Hcomb. rewrite list.Forall_forall in Hpos.
    assert (0 <= x); [|lia]. by apply Hpos, (elem_of_take_l compact_count). }
  assert (forall x, x ∈ dedupe combined (-1) <-> x ∈ take compact_count curr_array)
    as Hin'.
  { intros x. rewrite Hin, Hcomb. split; [tauto|]. intros Hx. split; [done|].
    rewrite list.Forall_forall in Hpos.
    assert (0 <= x); [|lia]. by apply Hpos, (elem_of_take_l compact_count). }
  destruct main_array_data as [|m main].
  - split; [done|]. intros x. rewrite Hin'. split; [auto|tauto].
  - destruct (intersect_sorted_spec (m :: main) _ Hmain Hs) as [Hs2 Hin2].
    split; [done|]. intros x. rewrite Hin2, Hin'. split; [tauto|].
    intros [? [?|?]]; done.
Qed.

(** X15: [_radix_sort_and_intersect] returns a strictly increasing list: the
    first [compact_count] candidate keys when [main_array_data] is empty,
    and those that also occur in [main_array_data] otherwise. *)
Theorem radix_sort_and_intersect_is_intersection
    (main_array_data curr_array : list Z) (compact_count : nat) :
  StronglySorted Z.lt main_array_data ->
  Forall (fun m => 0 <= m) curr_array ->
  StronglySorted Z.lt
    (_radix_sort_and_intersect main_array_data curr_array compact_count)
  /\ forall x,
       x ∈ _radix_sort_and_intersect main_array_data curr_array compact_count
       <-> x ∈ take compact_count curr_array
           /\ (main_array_data = [] \/ x ∈ main_array_data).
Proof. apply radix_sort_and_intersect_spec. Qed.

Lemma radix_sort_and_intersect_is_intersection_witness :
  StronglySorted Z.lt (_radix_sort_and_intersect [2; 5] [5; 1; 5; 2; 7] 3)
  /\ forall x,
       x ∈ _radix_sort_and_intersect [2; 5] [5; 1; 5; 2; 7] 3
       <-> x ∈ take 3 [5; 1; 5; 2; 7] /\ ([2; 5] = [] \/ x ∈ [2; 5]).
Proof.
  apply (radix_sort_and_intersect_is_intersection [2; 5] [5; 1; 5; 2; 7] 3);
    repeat constructor; lia.
Defined.

Lemma StronglySorted_lt_le (xs : list Z) :
  StronglySorted Z.lt xs -> StronglySorted Z.le xs.
Proof.
  induction 1 as [|x xs Hxs IH Hx]; constructor; [done|].
  eapply list.Forall_impl; [exact Hx|]. intros; simpl in *; lia.
Qed.

Lemma merge_pass_spec (arrs : list (list Z)) :
  (Forall (StronglySorted Z.lt) arrs ->
   Forall (StronglySorted Z.lt) (merge_pass arrs)
   /\ (forall x, x ∈ concat (merge_pass arrs) <-> x ∈ concat arrs)
   /\ (List.length (merge_pass arrs) <= List.length arrs)%nat
   /\ (2 <= List.length arrs ->
       List.length (merge_pass arrs) < List.length arrs)%nat
   /\ (arrs <> [] -> merge_pass arrs <> []))
  /\ forall a,
      Forall (StronglySorted Z.lt) (a :: arrs) ->
      Forall (StronglySorted Z.lt) (merge_pass (a :: arrs))
      /\ (forall x, x ∈ concat (merge_pass (a :: arrs)) <-> x ∈ concat (a :: arrs))
      /\ (List.length (merge_pass (a :: arrs)) <= List.length (a :: arrs))%nat
      /\ (2 <= List.length (a :: arrs) ->
          List.length (merge_pass (a :: arrs)) < List.length (a :: arrs))%nat
      /\ (a :: arrs <> [] -> merge_pass (a :: arrs) <> []).
Proof.
  induction arrs as [|b arrs [IH1 IH2]].
  - split; [intros _|intros a Ha]; simpl; repeat split; try done; lia.
  - split; [apply IH2|].
    intros a Hab. apply list.Forall_cons in Hab as [Ha Hb'].
    apply list.Forall_cons in Hb' as [Hb Harrs].
    destruct (IH1 Harrs) as (Hs & Hin & Hle & _ & _).
    destruct (merge_motifs_sorted a b) as [Hm Hmin];
      [by apply StronglySorted_lt_le..|].
    cbn [merge_pass]. repeat split.
    + by constructor.
    + cbn [concat]. rewrite !elem_of_app, Hmin, Hin. tauto.
    + cbn [concat]. rewrite !elem_of_app, Hmin, Hin. tauto.
    + simpl. lia.
    + simpl. lia.
    + done.
Qed.

Lemma merge_tree_spec (passes : nat) : forall arrs : list (list Z),
  arrs <> [] -> (List.length arrs <= S passes)%nat ->
  Forall (StronglySorted Z.lt) arrs ->
  exists r, merge_tree passes arrs = [r]
    /\ StronglySorted Z.lt r
    /\ forall x, x ∈ r <-> x ∈ concat arrs.
Proof.
  induction passes as [|passes IH]; intros arrs Hne Hlen Hs.
  - destruct arrs as [|r [|? ?]]; [done| |simpl in Hlen; lia].
    exists r. apply list.Forall_cons in Hs as [Hr _]. simpl.
    split; [done|]. split; [done|]. intros x. by rewrite app_nil_r.
  - simpl. destruct (Nat.ltb_spec 1 (List.length arrs)) as [H1|H1].
    + destruct (merge_pass_spec arrs) as [Hp _].
      destruct (Hp Hs) as (Hs' & Hin & _ & Hlt & Hne').
      destruct (IH (merge_pass arrs)) as (r & Hr & Hsr & Hinr);
        [by apply Hne'|specialize (Hlt H1); lia|done|].
      exists r. split; [done|]. split; [done|]. intros x. by rewrite Hinr, Hin.
    + destruct arrs as [|r [|? ?]]; [done| |simpl in H1; lia].
      exists r. apply list.Forall_cons in Hs as [Hr _].
      split; [done|]. split; [done|]. intros x. simpl. by rewrite app_nil_r.
Qed.

(** X16: The binary merging tree of [_gen_all] reduces a non-empty list of
    strictly increasing key lists to one strictly increasing list: their
    union. *)
Theorem merge_tree_is_sorted_union (current_arrays : list (list Z)) :
  current_arrays <> [] ->
  Forall (StronglySorted Z.lt) current_arrays ->
  exists r, merge_tree (List.length current_arrays) current_arrays = [r]
    /\ StronglySorted Z.lt r
    /\ forall x, x ∈ r <-> x ∈ concat current_arrays.
Proof.
  intros Hne Hs. apply merge_tree_spec; [done|lia|done].
Qed.

Lemma merge_tree_is_sorted_union_witness :
  exists r, merge_tree (List.length [[1; 4]; [2; 4]; [3]]) [[1; 4]; [2; 4]; [3]] = [r]
    /\ StronglySorted Z.lt r
    /\ forall x, x ∈ r <-> x ∈ concat [[1; 4]; [2; 4]; [3]].
Proof.
  apply (merge_tree_is_sorted_union [[1; 4]; [2; 4]; [3]]); [done|].
  repeat constructor; lia.
Defined.

Lemma tasks_loop {A} (ws : list A) (ind_load : nat) (its : list nat) :
  forall (ts : list (nat * nat)) (start : nat),
    (start <= List.length ws)%nat ->
    Forall (fun t => t.1 < t.2 <= List.length ws)%nat ts ->
    let r :=
      fold_left
        (fun '(tasks, start) (_ : nat) =>
           let pos := Nat.min (start + ind_load) (List.length ws) in
           (if (start <? pos)%nat then tasks ++ [(start, pos)] else tasks, pos))
        its (ts, start) in
    r.2 = Nat.min (start + List.length its * ind_load) (List.length ws)
    /\ concat (map (fun t => take (t.2 - t.1) (drop t.1 ws)) r.1)
       = (concat (map (fun t => take (t.2 - t.1) (drop t.1 ws)) ts)
          ++ take (r.2 - start) (drop start ws))%list
    /\ Forall (fun t => t.1 < t.2 <= List.length ws)%nat r.1
    /\ (List.length r.1 <= List.length ts + List.length its)%nat.
Proof.
  induction its as [|i its IH]; intros ts start Hstart Hts; cbv zeta.
  - cbn [fold_left snd fst List.length]. rewrite Nat.mul_0_l, Nat.add_0_r.
    rewrite Nat.min_l by done. rewrite Nat.sub_diag. cbn [take].
    rewrite app_nil_r. repeat split; [done|lia].
  - cbn [fold_left].
    set (pos := Nat.min (start + ind_load) (List.length ws)).
    set (ts1 := if (start <? pos)%nat then (ts ++ [(start, pos)])%list else ts).
    assert (pos <= List.length ws)%nat as Hpos by (unfold pos; lia).
    assert (Forall (fun t => t.1 < t.2 <= List.length ws)%nat ts1) as Hts1.
    { unfold ts1. destruct (Nat.ltb_spec start pos); [|done].
      apply Forall_app. split; [done|]. constructor; [simpl; lia|constructor]. }
    destruct (IH ts1 pos Hpos Hts1) as (Hend & Hcat & Hall & Hlen).
    cbv zeta in Hend, Hcat, Hall, Hlen.
    split; [|split; [|split]].
    + rewrite Hend. unfold pos. cbn [List.length]. lia.
    + rewrite Hcat.
      assert (concat (map (fun t => take (t.2 - t.1) (drop t.1 ws)) ts1)
              = (concat (map (fun t => take (t.2 - t.1) (drop t.1 ws)) ts)
                 ++ take (pos - start) (drop start ws))%list) as ->.
      { unfold ts1. destruct (Nat.ltb_spec start pos) as [Hlt|Hge].
        - rewrite map_app, concat_app. simpl. by rewrite app_nil_r.
        - replace (pos - start)%nat with 0%nat by lia. simpl. by rewrite app_nil_r. }
      rewrite <- app_assoc. f_equal.
      assert (start <= pos)%nat by (unfold pos; lia).
      match goal with |- context [take (?e - pos)%nat _] => set (fin := e) end.
      assert (pos <= fin)%nat by (unfold fin; rewrite Hend; lia).
      replace (drop pos ws) with (drop (pos - start) (drop start ws))
        by (rewrite drop_drop; f_equal; lia).
      rewrite take_take_drop. f_equal. lia.
    + exact Hall.
    + etransitivity; [exact Hlen|]. unfold ts1.
      destruct (start <? pos)%nat; [rewrite length_app|]; simpl; lia.
Qed.

Lemma tasks_cover {A} (ws : list A) (num_threads : nat) :
  (0 < num_threads)%nat ->
  let total_load := List.length ws in
  let ind_load := ((total_load + num_threads - 1) / num_threads)%nat in
  let ts := tasks num_threads total_load ind_load in
  concat (map (fun t => take (t.2 - t.1) (drop t.1 ws)) ts) = ws
  /\ Forall (fun t => t.1 < t.2 <= total_load)%nat ts
  /\ (List.length ts <= num_threads)%nat.
Proof.
  intros Hnt total_load ind_load ts.
  destruct (tasks_loop ws ind_load (Py.range num_threads) [] 0%nat)
    as (Hend & Hcat & Hall & Hlen); [lia|constructor|].
  cbv zeta in Hend, Hcat, Hall, Hlen.
  unfold Py.range in Hend at 2. rewrite length_seq in Hend.
  unfold Py.range in Hlen at 2. rewrite length_seq in Hlen.
  assert (total_load <= num_threads * ind_load)%nat as Hcover.
  { unfold ind_load.
    pose proof (Nat.div_mod_eq (total_load + num_threads - 1) num_threads).
    pose proof (Nat.mod_upper_bound (total_load + num_threads - 1) num_threads).
    lia. }
  fold total_load in Hend, Hcat, Hall.
  rewrite Nat.min_r in Hend by lia.
  split; [|split].
  - unfold ts, tasks. rewrite Hcat, Hend. simpl.
    rewrite Nat.sub_0_r, drop_0. apply take_ge. unfold total_load. lia.
  - exact Hall.
  - unfold ts, tasks. simpl in Hlen. exact Hlen.
Qed.

(** X17: With at least one worker, the tasks of [_gen_all] are non-empty
    segments of the work list, at most [num_threads] of them, and the
    segments put end to end are the work list: every work item is
    processed by exactly one task. *)
Theorem tasks_cover_the_work_list {A} (ws : list A) (num_threads : nat) :
  (0 < num_threads)%nat ->
  let total_load := List.length ws in
  let ind_load := ((total_load + num_threads - 1) / num_threads)%nat in
  let ts := tasks num_threads total_load ind_load in
  concat (map (fun t => take (t.2 - t.1) (drop t.1 ws)) ts) = ws
  /\ Forall (fun t => t.1 < t.2 <= total_load)%nat ts
  /\ (List.length ts <= num_threads)%nat.
Proof. apply tasks_cover. Qed.

Lemma tasks_cover_the_work_list_witness :
  let ws := [10; 11; 12; 13; 14]%nat in
  let ts := tasks 2 5 ((5 + 2 - 1) / 2) in
  concat (map (fun t => take (t.2 - t.1) (drop t.1 ws)) ts) = ws
  /\ Forall (fun t => t.1 < t.2 <= 5)%nat ts
  /\ (List.length ts <= 2)%nat.
Proof. apply (tasks_cover_the_work_list [10; 11; 12; 13; 14]%nat 2). lia. Defined.

End SortedKeys.

(** ** The generator and the parallel step of V2P (ems2p.py) *)

Section Generation.
Import MotifData Ems2p.

Lemma for_each_inv {X S} (I : S -> Prop) (xs : list X)
    (body : X -> S -> Py.result S) (s : S) :
  (forall x s, x ∈ xs -> I s -> exists s', body x s = Ok s' /\ I s') ->
  I s -> exists s', Py.for_each xs body s = Ok s' /\ I s'.
Proof.
  revert s. induction xs as [|x xs IH]; intros s Hbody Hs; simpl.
  - by exists s.
  - destruct (Hbody x s) as (s1 & -> & Hs1); [by left|done|]. simpl.
    apply IH; [|done]. intros y s' Hy. apply Hbody. by right.
Qed.

Lemma all_digits_append (a b : string) :
  all_digits (String.append a b) <-> all_digits a /\ all_digits b.
Proof. induction a as [|c a IH]; simpl; [tauto|]. rewrite IH. tauto. Qed.

Lemma all_digits_slice_to (j : nat) (s : string) :
  all_digits s -> all_digits (Py.slice_to j s).
Proof.
  revert j. induction s as [|c s IH]; intros [|j]; simpl; try tauto.
  intros [? ?]. split; [done|]. by apply IH.
Qed.

Lemma all_digits_slice_from (j : nat) (s : string) :
  all_digits s -> all_digits (Py.slice_from j s).
Proof.
  revert j. induction s as [|c s IH]; intros [|j]; simpl; try tauto.
  intros [? ?]. by apply IH.
Qed.

Lemma all_digits_slice (i j : nat) (s : string) :
  all_digits s -> all_digits (Py.slice i j s).
Proof. intros. by apply all_digits_slice_to, all_digits_slice_from. Qed.

Lemma all_digits_strip_deleted (s : string) :
  all_digits s -> all_digits (strip_deleted s).
Proof.
  induction s as [|c s IH]; simpl; [done|]. intros [? ?].
  destruct (Ascii.eqb c "-"); simpl; auto.
Qed.

Lemma len_append (a b : string) :
  Py.len (String.append a b) = (Py.len a + Py.len b)%nat.
Proof. induction a as [|c a IH]; simpl; [done|]. f_equal. apply IH. Qed.

Lemma index_digit (s : string) (j : nat) :
  all_digits s -> (j < Py.len s)%nat ->
  exists c, Py.index s j = Ok c /\ Py.isdigit c = true.
Proof.
  unfold Py.index. revert j. induction s as [|c s IH]; intros j Hs Hj; simpl in *.
  - lia.
  - destruct Hs as [Hc Hs]. destruct j as [|j]; [by exists c|].
    apply IH; [done|lia].
Qed.

Lemma set_from_kmer_digits (s : string) :
  all_digits s ->
  exists m, set_from_kmer s = Ok m /\ 0 <= m < 2 ^ (2 * Z.of_nat (Py.len s)).
Proof.
  induction s as [|c s IH]; [intros _; exists 0; by vm_compute|].
  intros [Hc Hs]. destruct (IH Hs) as (r & Hr & Hbound).
  rewrite set_from_kmer_cons, Hr. unfold Py.int, Py.isdigit in *.
  destruct (Py.digit_value c) as [v|]; [|done]. simpl.
  eexists. split; [done|].
  change (Py.len (String c s)) with (S (Py.len s)).
  apply lor_key_bound; [|done].
  change 3 with (Z.ones 2). rewrite Z.land_ones by lia.
  apply Z.mod_pos_bound. lia.
Qed.

Lemma appended_refl (l : nat) (g : generator) : appended l g g.
Proof. exists [], []. rewrite !app_nil_r. repeat split; constructor. Qed.

Lemma appended_trans (l : nat) (g1 g2 g3 : generator) :
  appended l g1 g2 -> appended l g2 g3 -> appended l g1 g3.
Proof.
  intros (n1 & a1 & H1 & H1' & Hl1 & Hf1) (n2 & a2 & H2 & H2' & Hl2 & Hf2).
  exists (n1 ++ n2)%list, (a1 ++ a2)%list.
  rewrite H2, H1, H2', H1', <- !app_assoc, !length_app.
  repeat split; [lia|]. by apply Forall_app.
Qed.

Lemma appended_set_x_l (l : nat) (g g' : generator) (s : string) :
  appended l (set_x g s) g' <-> appended l g g'.
Proof. done. Qed.

Lemma appended_set_x_r (l : nat) (g g' : generator) (s : string) :
  appended l g (set_x g' s) <-> appended l g g'.
Proof. done. Qed.

(** The loop invariant of the three enumerators: the lists have only
    grown by keys in range since [g0], [self.x] is a string of digits no
    shorter than [n]. *)
Lemma gen_nbrhood_3_ok (l alpha : nat) : forall (count : Z) (g : generator),
  all_digits (x g) ->
  exists g', _gen_nbrhood_3 l alpha count g = Ok g'
    /\ appended l g g' /\ all_digits (x g').
Proof.
  induction alpha as [|alpha IH]; intros count g Hx.
  - cbn [_gen_nbrhood_3]. cbv zeta.
    destruct (Py.len (x g) =? l)%nat; [|exists g; split; [done|split; [apply appended_refl|done]]].
    destruct (Nat.eqb_spec (Py.len (strip_deleted (x g))) l) as [Hl|Hl];
      [|exists g; split; [done|split; [apply appended_refl|done]]].
    pose proof (all_digits_strip_deleted _ Hx) as Hd.
    destruct (set_from_kmer_digits _ Hd) as (m & Hm & Hbound).
    destruct (Auxif_bits _ Utils.WILDCARD_CODE Hd) as (a & Ha & _).
    unfold Motif. rewrite Hm, Ha. simpl. eexists. split; [done|].
    split; [|done].
    exists [m], [a]. simpl. repeat split. constructor; [|constructor].
    by rewrite <- Hl.
  - cbn [_gen_nbrhood_3]. cbv zeta.
    set (n := Py.len (x g)).
    destruct (for_each_inv
      (fun s => appended l g s /\ all_digits (x s))
      (Py.range (n + 1))
      (fun j g0 =>
         g1 ← _gen_nbrhood_3 l alpha (count * Z.of_nat domain_size)
                (set_x g0
                   (String.append (Py.slice_to j (x g0))
                      (String.append (Py.str Utils.WILDCARD_CODE)
                         (Py.slice_from j (x g0)))));
         Ok (set_x g1 (x g0))) g) as (g' & Hg' & Happ & Hxg').
    + intros j s _ [Hs Hxs].
      destruct (IH (count * Z.of_nat domain_size)
                  (set_x s
                     (String.append (Py.slice_to j (x s))
                        (String.append (Py.str Utils.WILDCARD_CODE)
                           (Py.slice_from j (x s)))))) as (g1 & Hg1 & H1 & Hx1).
      { simpl. rewrite !all_digits_append.
        split; [by apply all_digits_slice_to|].
        split; [by vm_compute|by apply all_digits_slice_from]. }
      rewrite Hg1. simpl. eexists. split; [done|]. split; [|done].
      apply appended_set_x_r. eapply appended_trans; [exact Hs|].
      by apply appended_set_x_l in H1.
    + split; [apply appended_refl|done].
    + exists g'. split; [exact Hg'|done].
Qed.

Lemma gen_nbrhood_2_ok (l sigma alpha : nat) : forall (count : Z) (g : generator),
  all_digits (x g) ->
  exists g', _gen_nbrhood_2 l sigma alpha count g = Ok g'
    /\ appended l g g' /\ all_digits (x g').
Proof.
  induction sigma as [|sigma IH]; intros count g Hx.
  - cbn [_gen_nbrhood_2]. by apply gen_nbrhood_3_ok.
  - cbn [_gen_nbrhood_2]. cbv zeta.
    set (n := Py.len (x g)).
    destruct (for_each_inv
      (fun s => appended l g s /\ all_digits (x s) /\ (n <= Py.len (x s))%nat)
      (Py.range n)
      (fun j g0 =>
         c ← Py.index (x g0) j;
         if Ascii.eqb c "-" then Ok g0
         else
           g1 ← _gen_nbrhood_2 l sigma alpha (count * Z.of_nat domain_size)
                  (set_x g0
                     (String.append (Py.slice_to j (x g0))
                        (String.append (Py.str Utils.WILDCARD_CODE)
                           (Py.slice_from (j + 1) (x g0)))));
           Ok (set_x g1 (x g0))) g) as (g' & Hg' & Happ & Hxg' & _).
    + intros j s Hj (Hs & Hxs & Hn).
      apply elem_of_seq in Hj.
      destruct (index_digit (x s) j Hxs) as (c & -> & Hc); [lia|]. simpl.
      destruct (Ascii.eqb c "-"); [by exists s|].
      destruct (IH (count * Z.of_nat domain_size)
                  (set_x s
                     (String.append (Py.slice_to j (x s))
                        (String.append (Py.str Utils.WILDCARD_CODE)
                           (Py.slice_from (j + 1) (x s)))))) as (g1 & Hg1 & H1 & Hx1).
      { simpl. rewrite !all_digits_append.
        split; [by apply all_digits_slice_to|].
        split; [by vm_compute|by apply all_digits_slice_from]. }
      rewrite Hg1. simpl. eexists. split; [done|]. split; [|done].
      apply appended_set_x_r. eapply appended_trans; [exact Hs|].
      by apply appended_set_x_l in H1.
    + split; [apply appended_refl|]. split; [done|]. unfold n. lia.
    + exists g'. split; [exact Hg'|done].
Qed.

Lemma gen_nbrhood_ok (l delta sigma alpha : nat) :
  forall (count : Z) (g : generator),
    all_digits (x g) ->
    exists g', _gen_nbrhood l delta sigma alpha count g = Ok g'
      /\ appended l g g' /\ all_digits (x g').
Proof.
  induction delta as [|delta IH]; intros count g Hx.
  - cbn [_gen_nbrhood]. by apply gen_nbrhood_2_ok.
  - cbn [_gen_nbrhood]. cbv zeta.
    set (n := Py.len (x g)).
    destruct (for_each_inv
      (fun s => appended l g s /\ all_digits (x s) /\ (n <= Py.len (x s))%nat)
      (Py.range n)
      (fun j g0 =>
         original_char ← Py.index (x g0) j;
         g1 ← _gen_nbrhood l delta sigma alpha count
                (set_x g0
                   (String.append (Py.slice_to j (x g0))
                      (Py.slice_from (j + 1) (x g0))));
         Ok (set_x g1
               (String.append (Py.slice_to j (x g0))
                  (String original_char (Py.slice_from j (x g0)))))) g)
      as (g' & Hg' & Happ & Hxg' & _).
    + intros j s Hj (Hs & Hxs & Hn).
      apply elem_of_seq in Hj.
      destruct (index_digit (x s) j Hxs) as (c & -> & Hc); [lia|]. simpl.
      destruct (IH count
                  (set_x s
                     (String.append (Py.slice_to j (x s))
                        (Py.slice_from (j + 1) (x s))))) as (g1 & Hg1 & H1 & Hx1).
      { simpl. rewrite !all_digits_append.
        split; [by apply all_digits_slice_to|by apply all_digits_slice_from]. }
      rewrite Hg1. simpl. eexists. split; [done|]. split; [|split].
      * apply appended_set_x_r. eapply appended_trans; [exact Hs|].
        by apply appended_set_x_l in H1.
      * unfold set_x. cbn [x]. apply all_digits_append.
        split; [by apply all_digits_slice_to|].
        split; [done|by apply all_digits_slice_from].
      * unfold set_x. cbn [x]. rewrite len_append.
        change (Py.len (String c ?r)) with (S (Py.len r)).
        rewrite len_slice_to, len_slice_from. lia.
    + split; [apply appended_refl|]. split; [done|]. unfold n. lia.
    + exists g'. split; [exact Hg'|done].
Qed.

Lemma generate_ok (l d : nat) (x0 : string) (curr curr_aux : list Z) :
  all_digits x0 ->
  exists g, generate l d x0 curr curr_aux = Ok g
    /\ appended l (Generator x0 curr curr_aux 0) g.
Proof.
  intros Hx. unfold generate. cbv zeta.
  destruct (for_each_inv
    (fun s => appended l (Generator x0 curr curr_aux 0) s /\ all_digits (x s))
    (Py.rangeZ (Z.max 0 (Z.of_nat (Py.len x0) - Z.of_nat l))
       ((Z.of_nat d + (Z.of_nat (Py.len x0) - Z.of_nat l)) / 2 + 1))
    (fun delta g =>
       _gen_nbrhood l (Z.to_nat delta)
         (Z.to_nat (Z.of_nat d - (delta - (Z.of_nat (Py.len x0) - Z.of_nat l)) - delta))
         (Z.to_nat (delta - (Z.of_nat (Py.len x0) - Z.of_nat l))) 1 g)
    (Generator x0 curr curr_aux 0)) as (g' & Hg' & Happ & Hxg').
  - intros delta s _ [Hs Hxs].
    destruct (gen_nbrhood_ok l (Z.to_nat delta)
      (Z.to_nat (Z.of_nat d - (delta - (Z.of_nat (Py.len x0) - Z.of_nat l)) - delta))
      (Z.to_nat (delta - (Z.of_nat (Py.len x0) - Z.of_nat l))) 1 s Hxs)
      as (g1 & Hg1 & H1 & Hx1).
    exists g1. split; [done|]. split; [by eapply appended_trans|done].
  - split; [apply appended_refl|done].
  - exists g'. split; [exact Hg'|done].
Qed.

Lemma for_each_rel {X S1 S2} (R : S1 -> S2 -> Prop) (xs : list X)
    (body1 : X -> S1 -> Py.result S1) (body2 : X -> S2 -> Py.result S2) :
  (forall x s1 s2, x ∈ xs -> R s1 s2 -> Py.result_rel R (body1 x s1) (body2 x s2)) ->
  forall s1 s2, R s1 s2 ->
    Py.result_rel R (Py.for_each xs body1 s1) (Py.for_each xs body2 s2).
Proof.
  induction xs as [|x xs IH]; intros Hbody s1 s2 Hs; simpl; [done|].
  pose proof (Hbody x s1 s2 (list_elem_of_here _ _) Hs) as Hx.
  destruct (body1 x s1) as [a|e1], (body2 x s2) as [b|e2]; simpl in *; try done.
  apply IH; [|done]. intros y t1 t2 Hy. apply Hbody. by right.
Qed.

Lemma framed_set_x (curr curr_aux : list Z) (g1 g2 : generator) (s : string) :
  framed curr curr_aux g1 g2 -> framed curr curr_aux (set_x g1 s) (set_x g2 s).
Proof. intros (? & ? & ? & ?). by repeat split. Qed.

Lemma gen_nbrhood_3_framed (l : nat) (curr curr_aux : list Z) (alpha : nat) :
  forall (count : Z) (g1 g2 : generator),
    framed curr curr_aux g1 g2 ->
    Py.result_rel (framed curr curr_aux)
      (_gen_nbrhood_3 l alpha count g1) (_gen_nbrhood_3 l alpha count g2).
Proof.
  induction alpha as [|alpha IH]; intros count g1 g2 Hg.
  - pose proof Hg as (Hx & Hc & Ha & He).
    cbn [_gen_nbrhood_3]. cbv zeta. rewrite Hx.
    destruct (Py.len (x g2) =? l)%nat; [|done].
    destruct (Py.len (strip_deleted (x g2)) =? l)%nat; [|done].
    destruct (Motif (strip_deleted (x g2))) as [m|e]; simpl; [|done].
    destruct (Auxif (strip_deleted (x g2)) Utils.WILDCARD_CODE) as [a|e];
      simpl; [|done].
    unfold framed. simpl. rewrite Hc, Ha, He, <- !app_assoc. done.
  - pose proof Hg as (Hx & _).
    cbn [_gen_nbrhood_3]. cbv zeta. rewrite Hx.
    apply for_each_rel; [|done].
    intros j s1 s2 _ Hs. pose proof Hs as (Hxs & _). rewrite Hxs.
    match goal with
    | |- Py.result_rel _ (Py.bind (_gen_nbrhood_3 _ _ ?c ?a) _) _ =>
        pose proof (IH c a (set_x s2
          (String.append (Py.slice_to j (x s2))
             (String.append (Py.str Utils.WILDCARD_CODE)
                (Py.slice_from j (x s2)))))) as Hrec
    | |- Py.result_rel _ (mbind _ (_gen_nbrhood_3 _ _ ?c ?a)) _ =>
        pose proof (IH c a (set_x s2
          (String.append (Py.slice_to j (x s2))
             (String.append (Py.str Utils.WILDCARD_CODE)
                (Py.slice_from j (x s2)))))) as Hrec
    end.
    specialize (Hrec ltac:(rewrite <- Hxs; by apply framed_set_x)).
    rewrite <- Hxs in Hrec |- *.
    destruct (_gen_nbrhood_3 l alpha _ (set_x s1 _)) as [a|e1],
             (_gen_nbrhood_3 l alpha _ (set_x s2 _)) as [b|e2];
      simpl in *; try done.
    by apply framed_set_x.
Qed.

Lemma bind_rel {A1 A2 B1 B2} (R : A1 -> A2 -> Prop) (R' : B1 -> B2 -> Prop)
    (r1 : Py.result A1) (r2 : Py.result A2)
    (k1 : A1 -> Py.result B1) (k2 : A2 -> Py.result B2) :
  Py.result_rel R r1 r2 ->
  (forall a b, R a b -> Py.result_rel R' (k1 a) (k2 b)) ->
  Py.result_rel R' (a ← r1; k1 a) (b ← r2; k2 b).
Proof.
  intros Hr Hk. destruct r1 as [a|e1], r2 as [b|e2]; simpl in *; try done.
  by apply Hk.
Qed.

Lemma result_rel_eq {A} (r : Py.result A) : Py.result_rel eq r r.
Proof. by destruct r. Qed.

Lemma gen_nbrhood_2_framed (l : nat) (curr curr_aux : list Z) (sigma alpha : nat) :
  forall (count : Z) (g1 g2 : generator),
    framed curr curr_aux g1 g2 ->
    Py.result_rel (framed curr curr_aux)
      (_gen_nbrhood_2 l sigma alpha count g1) (_gen_nbrhood_2 l sigma alpha count g2).
Proof.
  induction sigma as [|sigma IH]; intros count g1 g2 Hg.
  - cbn [_gen_nbrhood_2]. by apply gen_nbrhood_3_framed.
  - pose proof Hg as (Hx & _).
    cbn [_gen_nbrhood_2]. cbv zeta. rewrite Hx.
    apply for_each_rel; [|done].
    intros j s1 s2 _ Hs. pose proof Hs as (Hxs & _). rewrite Hxs.
    apply (bind_rel eq); [apply result_rel_eq|]. intros c ? <-.
    destruct (Ascii.eqb c "-"); [exact Hs|].
    apply (bind_rel (framed curr curr_aux)).
    + apply IH. by apply framed_set_x.
    + intros a b Hab. by apply framed_set_x.
Qed.

Lemma gen_nbrhood_framed (l : nat) (curr curr_aux : list Z)
    (delta sigma alpha : nat) :
  forall (count : Z) (g1 g2 : generator),
    framed curr curr_aux g1 g2 ->
    Py.result_rel (framed curr curr_aux)
      (_gen_nbrhood l delta sigma alpha count g1)
      (_gen_nbrhood l delta sigma alpha count g2).
Proof.
  induction delta as [|delta IH]; intros count g1 g2 Hg.
  - cbn [_gen_nbrhood]. by apply gen_nbrhood_2_framed.
  - pose proof Hg as (Hx & _).
    cbn [_gen_nbrhood]. cbv zeta. rewrite Hx.
    apply for_each_rel; [|done].
    intros j s1 s2 _ Hs. pose proof Hs as (Hxs & _). rewrite Hxs.
    apply (bind_rel eq); [apply result_rel_eq|]. intros c ? <-.
    apply (bind_rel (framed curr curr_aux)).
    + apply IH. by apply framed_set_x.
    + intros a b Hab. by apply framed_set_x.
Qed.

Lemma generate_framed (l d : nat) (x0 : string) (curr curr_aux : list Z) :
  Py.result_rel (framed curr curr_aux)
    (generate l d x0 curr curr_aux) (generate l d x0 [] []).
Proof.
  unfold generate. cbv zeta. apply for_each_rel.
  - intros delta s1 s2 _ Hs. by apply gen_nbrhood_framed.
  - unfold framed. simpl. by rewrite !app_nil_r.
Qed.

(** [generate()] on a k-mer of digits does not raise; it appends the keys
    [generated l d x0] to [curr_array], whatever the lists held before,
    and as many entries to [curr_aux_array]; the keys are below
    [4 ^ l]. *)
Lemma generate_spec (l d : nat) (x0 : string) (curr curr_aux : list Z) :
  all_digits x0 ->
  exists g, generate l d x0 curr curr_aux = Ok g
    /\ curr_array g = (curr ++ generated l d x0)%list
    /\ List.length (curr_aux_array g)
       = (List.length curr_aux + List.length (generated l d x0))%nat
    /\ Forall (fun m => 0 <= m < 2 ^ (2 * Z.of_nat l)) (generated l d x0).
Proof.
  intros Hx.
  pose proof (generate_framed l d x0 curr curr_aux) as Hf.
  destruct (generate_ok l d x0 curr curr_aux Hx) as (g & Hg & _).
  destruct (generate_ok l d x0 [] [] Hx)
    as (g0 & Hg0 & new & new_aux & Hnew & Haux & Hlen & Hall).
  unfold generated. rewrite Hg, Hg0 in *. simpl in Hf, Hnew, Haux.
  destruct Hf as (_ & Hc & Ha & _).
  exists g. split; [done|]. split; [done|].
  rewrite Ha, length_app, Haux, Hnew, Hlen. split; [done|]. done.
Qed.

(** X18: [generate()] on a k-mer of digits does not raise: it appends to
    [curr_array] the keys a fresh generator produces, whatever the lists
    held before, and as many entries to [curr_aux_array]; every key is
    below [4 ^ l]. *)
Theorem generate_appends_keys (l d : nat) (x0 : string) (curr curr_aux : list Z) :
  all_digits x0 ->
  exists g, generate l d x0 curr curr_aux = Ok g
    /\ curr_array g = (curr ++ generated l d x0)%list
    /\ List.length (curr_aux_array g)
       = (List.length curr_aux + List.length (generated l d x0))%nat
    /\ Forall (fun m => 0 <= m < 2 ^ (2 * Z.of_nat l)) (generated l d x0).
Proof. apply generate_spec. Qed.

Lemma generate_appends_keys_witness :
  exists g, generate 2 1 "012" [7] [0] = Ok g
    /\ curr_array g = ([7] ++ generated 2 1 "012")%list
    /\ List.length (curr_aux_array g)
       = (List.length [0] + List.length (generated 2 1 "012"))%nat
    /\ Forall (fun m => 0 <= m < 2 ^ (2 * Z.of_nat 2)) (generated 2 1 "012").
Proof. apply (generate_appends_keys 2 1 "012" [7] [0]). by vm_compute. Defined.

Lemma segment_candidates_loop (l d : nat) (seq : string) (segment : list (nat * nat)) :
  all_digits seq ->
  forall curr curr_aux : list Z,
    exists aux,
      Py.for_each segment
        (fun '(i, k) '(curr_array, curr_aux_array) =>
           let x := Py.slice i (i + k) seq in
           g ← generate l d x curr_array curr_aux_array;
           Ok (Ems2p.curr_array g, Ems2p.curr_aux_array g))
        (curr, curr_aux)
      = Ok ((curr ++ segment_keys l d seq segment)%list, aux).
Proof.
  intros Hseq. induction segment as [|[i k] segment IH]; intros curr curr_aux.
  - exists curr_aux. simpl. by rewrite app_nil_r.
  - cbn [Py.for_each]. cbv zeta.
    destruct (generate_spec l d (Py.slice i (i + k) seq) curr curr_aux)
      as (g & Hg & Hc & _); [by apply all_digits_slice|].
    rewrite Hg. simpl. rewrite Hc.
    destruct (IH (curr ++ generated l d (Py.slice i (i + k) seq))%list
                (curr_aux_array g)) as (aux & Haux).
    exists aux.
    rewrite <- app_assoc in Haux. exact Haux.
Qed.

Lemma segment_candidates_spec (l d : nat) (seq : string)
    (segment : list (nat * nat)) :
  all_digits seq ->
  exists aux,
    segment_candidates l d seq segment = Ok (segment_keys l d seq segment, aux).
Proof.
  intros Hseq. unfold segment_candidates.
  destruct (segment_candidates_loop l d seq segment Hseq [] []) as (aux & Haux).
  exists aux. exact Haux.
Qed.

Lemma segment_keys_in_range (l d : nat) (seq : string) (segment : list (nat * nat)) :
  all_digits seq ->
  Forall (fun m => 0 <= m < 2 ^ (2 * Z.of_nat l)) (segment_keys l d seq segment).
Proof.
  intros Hseq. unfold segment_keys. apply list.Forall_forall. intros x Hx.
  apply list_elem_of_bind in Hx as ([i k] & Hx & _).
  destruct (generate_spec l d (Py.slice i (i + k) seq) [] [])
    as (_ & _ & _ & _ & Hall); [by apply all_digits_slice|].
  rewrite list.Forall_forall in Hall. by apply Hall.
Qed.

Lemma process_segment_spec (shuffle : list (nat * nat) -> list (nat * nat))
    (l d : nat) (seq : string) (main_array : list Z) (start end_ : nat) :
  all_digits seq -> StronglySorted Z.lt main_array ->
  exists r, process_segment shuffle l d seq main_array start end_ = Ok r
    /\ StronglySorted Z.lt r
    /\ forall x, x ∈ r <->
         x ∈ segment_keys l d seq (take (end_ - start) (drop start (works shuffle l d seq)))
         /\ (main_array = [] \/ x ∈ main_array).
Proof.
  intros Hseq Hmain. unfold process_segment.
  destruct (segment_candidates_spec l d seq
              (take (end_ - start) (drop start (works shuffle l d seq))) Hseq)
    as (aux & ->).
  simpl. eexists. split; [done|].
  destruct (radix_sort_and_intersect_spec main_array
    (segment_keys l d seq (take (end_ - start) (drop start (works shuffle l d seq))))
    (List.length (segment_keys l d seq
       (take (end_ - start) (drop start (works shuffle l d seq)))))) as [Hs Hin];
    [done| |].
  { eapply list.Forall_impl; [by apply segment_keys_in_range|].
    intros; simpl in *; lia. }
  split; [done|]. intros x. rewrite Hin, firstn_all. done.
Qed.

Lemma segment_keys_app (l d : nat) (seq : string) (s1 s2 : list (nat * nat)) :
  segment_keys l d seq (s1 ++ s2)
  = (segment_keys l d seq s1 ++ segment_keys l d seq s2)%list.
Proof. unfold segment_keys. apply bind_app. Qed.

Lemma gen_all_results (shuffle : list (nat * nat) -> list (nat * nat))
    (l d : nat) (seq : string) (main_array : list Z) (ts : list (nat * nat)) :
  all_digits seq -> StronglySorted Z.lt main_array ->
  forall acc : list (list Z),
    exists rs,
      Py.for_each ts
        (fun '(start, end_) results =>
           r ← process_segment shuffle l d seq main_array start end_;
           Ok (results ++ [r])%list)
        acc = Ok (acc ++ rs)%list
      /\ Forall (StronglySorted Z.lt) rs
      /\ forall x, x ∈ concat rs <->
           x ∈ segment_keys l d seq
                 (concat (map (fun t => take (t.2 - t.1)
                                          (drop t.1 (works shuffle l d seq))) ts))
           /\ (main_array = [] \/ x ∈ main_array).
Proof.
  intros Hseq Hmain. induction ts as [|[start end_] ts IH]; intros acc.
  - exists []. simpl. rewrite app_nil_r. split; [done|]. split; [constructor|].
    intros x. split; [by intros ?%elem_of_nil|by intros [?%elem_of_nil _]].
  - cbn [Py.for_each].
    destruct (process_segment_spec shuffle l d seq main_array start end_ Hseq Hmain)
      as (r & Hr & Hs & Hin).
    rewrite Hr. simpl.
    destruct (IH (acc ++ [r])%list) as (rs & Hrs & Hall & Hinrs).
    exists (r :: rs). split; [|split].
    + rewrite Hrs, <- app_assoc. done.
    + by constructor.
    + intros x. cbn [concat map]. rewrite segment_keys_app, !elem_of_app, Hin, Hinrs.
      simpl. tauto.
Qed.

Lemma concat_filter_nonempty (rs : list (list Z)) (x : Z) :
  x ∈ concat (filter (fun r : list Z => r ≠ []) rs) <-> x ∈ concat rs.
Proof.
  induction rs as [|r rs IH]; [done|].
  rewrite filter_cons. cbn [concat]. case_decide as Hr.
  - cbn [concat]. rewrite !elem_of_app, IH. done.
  - subst r. rewrite elem_of_app, IH.
    split; [auto|]. intros [?%elem_of_nil|?]; done.
Qed.

Lemma gen_all_works (shuffle : list (nat * nat) -> list (nat * nat))
    (l d num_threads : nat) (seq : string) (main_array : list Z) :
  (0 < num_threads)%nat -> all_digits seq -> StronglySorted Z.lt main_array ->
  exists r, _gen_all shuffle l d num_threads seq main_array = Ok r
    /\ StronglySorted Z.lt r
    /\ ((forall x, x ∈ r <->
            x ∈ segment_keys l d seq (works shuffle l d seq)
            /\ (main_array = [] \/ x ∈ main_array))
        \/ (r = main_array /\ main_array <> []
            /\ forall x, x ∈ segment_keys l d seq (works shuffle l d seq) ->
                         x ∉ main_array)).
Proof.
  intros Hnt Hseq Hmain. unfold _gen_all. cbv zeta.
  destruct (Nat.eqb_spec num_threads 0) as [?|_]; [lia|].
  set (ws := works shuffle l d seq).
  set (ts := tasks num_threads (List.length ws)
               ((List.length ws + num_threads - 1) / num_threads)).
  destruct (gen_all_results shuffle l d seq main_array ts Hseq Hmain [])
    as (rs & Hrs & Hall & Hin).
  rewrite Hrs. simpl.
  destruct (tasks_cover ws num_threads Hnt) as (Hcover & _).
  cbv zeta in Hcover. fold ts in Hcover. fold ws in Hin. rewrite Hcover in Hin.
  set (current := filter (fun r : list Z => r ≠ []) rs).
  assert (Forall (StronglySorted Z.lt) current) as Hcur.
  { apply list.Forall_forall. intros r [_ Hr]%list_elem_of_filter.
    rewrite list.Forall_forall in Hall. by apply Hall. }
  assert (forall x, x ∈ concat current <->
            x ∈ segment_keys l d seq ws /\ (main_array = [] \/ x ∈ main_array))
    as Hincur.
  { intros x. unfold current. by rewrite concat_filter_nonempty. }
  destruct current as [|c cs] eqn:Hc.
  - assert (forall x, ~ (x ∈ segment_keys l d seq ws
                         /\ (main_array = [] \/ x ∈ main_array))) as Hnone.
    { intros x Hx. apply Hincur in Hx. by apply elem_of_nil in Hx. }
    simpl. destruct main_array as [|m main].
    + exists []. split; [done|]. split; [constructor|]. left.
      intros x. split; [by intros ?%elem_of_nil|]. intros Hx. by apply Hnone in Hx.
    + exists (m :: main). split; [done|]. split; [done|]. right.
      split; [done|]. split; [done|]. intros x Hx Hxm. apply (Hnone x). auto.
  - destruct (merge_tree_spec (List.length (c :: cs)) (c :: cs))
      as (r & Hr & Hsr & Hinr); [done|lia|done|].
    rewrite Hr. exists r. split; [done|]. split; [done|]. left.
    intros x. by rewrite Hinr, Hincur.
Qed.




Lemma get_kmer_ok (data : Z) (k : nat) :
  (k <= MAX_L)%nat ->
  exists s, get_kmer data k = Ok s /\ Py.len s = k /\ Utils.encoded s.
Proof.
  intros Hk. rewrite get_kmer_unfold by done. eexists. split; [done|].
  destruct (join_codes (get_code data k) (seq 0 k) (get_code_range data k)) as [Hl He].
  rewrite length_seq in Hl. done.
Qed.

Lemma unpack_all (l : nat) (main_array : list Z) :
  (l <= MAX_L)%nat ->
  forall acc : list string,
    exists ms,
      Py.for_each main_array (fun m ms => s ← get_kmer m l; Ok (ms ++ [s])%list) acc
      = Ok (acc ++ ms)%list
      /\ List.length ms = List.length main_array
      /\ Forall (fun s => Py.len s = l /\ Utils.encoded s) ms.
Proof.
  intros Hl. induction main_array as [|m main IH]; intros acc; simpl.
  - exists []. rewrite app_nil_r. repeat split. constructor.
  - destruct (get_kmer_ok m l Hl) as (s & -> & Hs). simpl.
    destruct (IH (acc ++ [s])%list) as (ms & -> & Hlen & Hall).
    exists (s :: ms). rewrite <- app_assoc. split; [done|].
    split; [simpl; lia|by constructor].
Qed.

Lemma search_loop_total (shuffle : list (nat * nat) -> list (nat * nat))
    (l d num_threads : nat) (reads : list string) :
  (0 < num_threads)%nat -> (l <= MAX_L)%nat -> Forall all_digits reads ->
  forall (i : nat) (main_array : list Z) (log : list nat),
    StronglySorted Z.lt main_array ->
    exists out,
      search_loop shuffle l d num_threads i reads main_array log = Ok out
      /\ StronglySorted String.le (motifs out)
      /\ Forall (fun s => Py.len s = l /\ Utils.encoded s) (motifs out).
Proof.
  intros Hnt Hl. induction reads as [|seq reads IH]; intros Hreads i main log Hmain.
  - cbn [search_loop].
    destruct (unpack_all l main Hl []) as (ms & -> & _ & Hall). simpl.
    eexists. split; [done|]. simpl. split.
    + apply StronglySorted_merge_sort; apply _.
    + by rewrite merge_sort_Permutation.
  - apply list.Forall_cons in Hreads as [Hseq Hreads].
    cbn [search_loop]. cbv zeta.
    destruct (gen_all_works shuffle l d num_threads seq main Hnt Hseq Hmain)
      as (r & -> & Hr & _).
    simpl. destruct r as [|m r].
    + eexists. split; [done|]. simpl. split; constructor.
    + by apply IH.
Qed.

(** X20: With at least one worker, [l <= 32] and reads of digits, [search] of
    V2P does not raise; its motifs are in increasing order, have length
    [l] and are made of the alphabet codes. *)
Theorem ems2p_search_returns_sorted_motifs
    (shuffle : list (nat * nat) -> list (nat * nat))
    (l d num_threads : nat) (reads : list string) :
  (0 < num_threads)%nat -> (l <= MAX_L)%nat -> Forall all_digits reads ->
  exists out,
    search shuffle l d num_threads reads = Ok out
    /\ StronglySorted String.le (motifs out)
    /\ Forall (fun s => Py.len s = l /\ Utils.encoded s) (motifs out).
Proof.
  intros Hnt Hl Hreads. unfold search.
  apply search_loop_total; [done..|constructor].
Qed.

Lemma ems2p_search_returns_sorted_motifs_witness :
  exists out,
    search (fun ws => ws) 2 0 2 ["012"%string; "120"%string] = Ok out
    /\ StronglySorted String.le (motifs out)
    /\ Forall (fun s => Py.len s = 2%nat /\ Utils.encoded s) (motifs out).
Proof.
  apply (ems2p_search_returns_sorted_motifs (fun ws => ws) 2 0 2
           ["012"%string; "120"%string]).
  - lia.
  - unfold MAX_L. lia.
  - repeat constructor; by vm_compute.
Defined.

End Generation.

(** ** Insertion into MotifTreeSimple (motif_tree.py) *)

Section SimpleInsert.
Import MotifTree MotifTreeSimple.

Lemma index_result (s : string) (i : nat) :
  match Py.index s i with
  | Py.Ok c => String.get i s = Some c /\ (i < Py.len s)%nat
  | Py.Raise e => (Py.len s <= i)%nat /\ e = Py.IndexError
  end.
Proof.
  unfold Py.index. revert i. induction s as [|b s IH]; intros i; simpl.
  - split; [lia|done].
  - destruct i as [|i]; [split; [done|lia]|].
    specialize (IH i). destruct (String.get i s); [|destruct IH; split; [lia|done]].
    destruct IH. split; [done|lia].
Qed.

Lemma char_code_result (motif : string) (depth : nat) :
  match char_code motif depth with
  | Py.Ok ch => (depth < Py.len motif)%nat
  | Py.Raise e => (Py.len motif <= depth)%nat /\ e = Py.IndexError
  end.
Proof.
  unfold char_code. pose proof (index_result motif depth) as Hi.
  destruct (Py.index motif depth) as [c|e]; simpl; [|done].
  unfold Py.isdigit, Py.int. destruct (Py.digit_value c); simpl; tauto.
Qed.

(** The two ways [insert_recursive] goes on below a node: into the first
    child whose mask meets the target, or into a new last child. *)
Lemma insert_recursive_cases (levels : nat) (n n' : node) (motif : string)
    (depth : nat) :
  insert_recursive (S levels) n motif depth = Ok n' ->
  exists ch, char_code motif depth = Ok ch /\
    let target_info := if ch =? Utils.WILDCARD_CODE then mask else Z.shiftl 1 ch in
    (exists pre child post child',
        children n = (pre ++ child :: post)%list
        /\ Forall (fun c => Z.land (sharing_info c) target_info = 0) pre
        /\ Z.land (sharing_info child) target_info <> 0
        /\ insert_recursive levels child motif (depth + 1) = Ok child'
        /\ n' = Node (sharing_info n) (pre ++ child' :: post))
    \/ (Forall (fun c => Z.land (sharing_info c) target_info = 0) (children n)
        /\ exists new_node,
            insert_recursive levels (Node target_info []) motif (depth + 1)
            = Ok new_node
            /\ n' = Node (sharing_info n) (children n ++ [new_node])).
Proof.
  cbn [insert_recursive].
  destruct (char_code motif depth) as [ch|e]; simpl; [|done].
  intros Hins. exists ch. split; [done|]. cbv zeta.
  set (target_info := if ch =? Utils.WILDCARD_CODE then mask else Z.shiftl 1 ch) in *.
  match type of Hins with
  | context [match ?f (children n) with _ => _ end] => set (found := f) in Hins
  end.
  assert (forall cs,
    match found cs with
    | Some r =>
        exists pre child post,
          cs = (pre ++ child :: post)%list
          /\ Forall (fun c => Z.land (sharing_info c) target_info = 0) pre
          /\ Z.land (sharing_info child) target_info <> 0
          /\ r = (child' ← insert_recursive levels child motif (depth + 1);
                  Ok (pre ++ child' :: post)%list)
    | None => Forall (fun c => Z.land (sharing_info c) target_info = 0) cs
    end) as Hfound.
  { induction cs as [|child cs IHcs]; [constructor|].
    cbn [found].
    destruct (Z.eqb_spec (Z.land (sharing_info child) target_info) 0) as [H0|H0];
      cbn [negb].
    - fold found. destruct (found cs) as [r|].
      + destruct IHcs as (pre & child0 & post & -> & Hpre & Hne & ->).
        exists (child :: pre), child0, post. split; [done|].
        split; [by constructor|]. split; [done|].
        by destruct (insert_recursive levels child0 motif (depth + 1)).
      + by constructor.
    - exists [], child, cs. repeat split; try done. }
  specialize (Hfound (children n)).
  destruct (found (children n)) as [r|].
  - destruct Hfound as (pre & child & post & Hcs & Hpre & Hne & ->). left.
    destruct (insert_recursive levels child motif (depth + 1)) as [child'|e] eqn:Hc;
      simpl in Hins; [|done].
    injection Hins as <-. exists pre, child, post, child'. done.
  - right. split; [done|].
    destruct (insert_recursive levels (Node target_info []) motif (depth + 1))
      as [new_node|e]; simpl in Hins; [|done].
    injection Hins as <-. by exists new_node.
Qed.

Lemma insert_recursive_result (levels : nat) :
  forall (n : node) (motif : string) (depth : nat),
    (depth <= Py.len motif)%nat ->
    match insert_recursive levels n motif depth with
    | Py.Ok n' => (depth + levels <= Py.len motif)%nat
    | Py.Raise e => (Py.len motif < depth + levels)%nat /\ e = Py.IndexError
    end.
Proof.
  induction levels as [|levels IH]; intros n motif depth Hdepth.
  - simpl. lia.
  - cbn [insert_recursive].
    pose proof (char_code_result motif depth) as Hch.
    destruct (char_code motif depth) as [ch|e]; simpl;
      [|destruct Hch; split; [lia|done]].
    set (target_info := if ch =? Utils.WILDCARD_CODE then mask else Z.shiftl 1 ch).
    match goal with
    | |- context [match ?f (children n) with _ => _ end] => set (found := f)
    end.
    assert (forall cs,
      match found cs with
      | Some r =>
          match r with
          | Py.Ok _ => (depth + S levels <= Py.len motif)%nat
          | Py.Raise e => (Py.len motif < depth + S levels)%nat /\ e = Py.IndexError
          end
      | None => True
      end) as Hfound.
    { induction cs as [|child cs IHcs]; [done|].
      cbn [found].
      destruct (negb (Z.land (sharing_info child) target_info =? 0)).
      - pose proof (IH child motif (depth + 1)%nat ltac:(lia)) as Hc.
        destruct (insert_recursive levels child motif (depth + 1)); simpl.
        + lia.
        + destruct Hc. split; [lia|done].
      - fold found. destruct (found cs) as [[?|?]|]; simpl; done. }
    specialize (Hfound (children n)).
    destruct (found (children n)) as [[cs|e]|]; simpl; try done.
    pose proof (IH (Node target_info []) motif (depth + 1)%nat ltac:(lia)) as Hc.
    destruct (insert_recursive levels (Node target_info []) motif (depth + 1)); simpl.
    + lia.
    + destruct Hc. split; [lia|done].
Qed.

(** X21: [insert] raises exactly when the motif is shorter than [max_depth],
    and then [IndexError]; otherwise it returns a tree of the same
    depth. *)
Theorem simple_insert_raises_iff_short (t : tree) (motif : string) :
  match insert t motif with
  | Py.Ok t' => (max_depth t <= Py.len motif)%nat /\ max_depth t' = max_depth t
  | Py.Raise e => (Py.len motif < max_depth t)%nat /\ e = Py.IndexError
  end.
Proof.
  unfold insert.
  pose proof (insert_recursive_result (max_depth t) (root t) motif 0 ltac:(lia))
    as Hr.
  destruct (insert_recursive (max_depth t) (root t) motif 0); simpl; [|done].
  split; [lia|done].
Qed.

Lemma insert_recursive_monotone (levels : nat) :
  forall (n n' : node) (motif : string) (depth : nat),
    insert_recursive levels n motif depth = Ok n' ->
    sharing_info n' = sharing_info n
    /\ forall s, s ∈ represented levels n -> s ∈ represented levels n'.
Proof.
  induction levels as [|levels IH]; intros n n' motif depth Hins.
  - simpl in Hins. injection Hins as <-. done.
  - apply insert_recursive_cases in Hins as (ch & _ & Hcases). cbv zeta in Hcases.
    destruct Hcases as [(pre & child & post & child' & Hcs & _ & _ & Hc & ->)
                       |(_ & new_node & _ & ->)].
    + split; [done|]. intros s. rewrite !elem_of_represented_S. cbn [children].
      destruct (IH _ _ _ _ Hc) as [Hinfo Hsub].
      intros (c & j & s' & Hin & Hj & Hb & Hs' & ->). rewrite Hcs in Hin.
      apply elem_of_app in Hin as [Hin|Hin];
        [|apply elem_of_cons in Hin as [->|Hin]].
      * exists c, j, s'. split; [|done]. apply elem_of_app. by left.
      * exists child', j, s'. rewrite Hinfo.
        split; [apply elem_of_app; right; by left|]. auto.
      * exists c, j, s'. split; [|done]. apply elem_of_app. right. by right.
    + split; [done|]. intros s. rewrite !elem_of_represented_S. cbn [children].
      intros (c & j & s' & Hin & Hrest). exists c, j, s'.
      split; [|done]. apply elem_of_app. by left.
Qed.

(** X22: [insert] of [MotifTreeSimple] never removes a string from the
    represented set. *)
Theorem simple_insert_keeps_strings (t t' : tree) (motif : string) :
  insert t motif = Ok t' -> strings t ⊆ strings t'.
Proof.
  unfold insert. intros Hins.
  destruct (insert_recursive (max_depth t) (root t) motif 0) as [r|e] eqn:Hr;
    simpl in Hins; [|done].
  injection Hins as <-. unfold strings. simpl.
  apply insert_recursive_monotone in Hr as [_ Hsub].
  intros s. rewrite !elem_of_list_to_set. apply Hsub.
Qed.

Lemma simple_insert_keeps_strings_witness :
  strings (Tree (Node 0 [Node 15 [Node 1 []]]) 2)
  ⊆ strings (Tree (Node 0 [Node 15 [Node 1 []; Node 2 []]]) 2).
Proof.
  apply (simple_insert_keeps_strings _ _ "01"). reflexivity.
Defined.

Lemma slice_from_get (s : string) : forall (i : nat) (c : ascii),
  String.get i s = Some c ->
  Py.slice_from i s = String c (Py.slice_from (i + 1) s).
Proof.
  induction s as [|b s IH]; intros i c Hc; simpl in *; [done|].
  destruct i as [|i]; simpl.
  - injection Hc as ->. by destruct s.
  - by apply IH.
Qed.

Lemma slice_step (s : string) (i n : nat) (c : ascii) :
  String.get i s = Some c ->
  Py.slice i (i + S n) s = String c (Py.slice (i + 1) (i + 1 + n) s).
Proof.
  intros Hc. unfold Py.slice.
  replace (i + S n - i)%nat with (S n) by lia.
  replace (i + 1 + n - (i + 1))%nat with n by lia.
  by rewrite (slice_from_get s i c Hc).
Qed.

Lemma encoded_get (s : string) : forall (i : nat) (c : ascii),
  Utils.encoded s -> String.get i s = Some c -> Utils.is_code c.
Proof.
  induction s as [|b s IH]; intros i c Hs Hc; simpl in *; [done|].
  destruct Hs as [Hb Hs]. destruct i as [|i]; [by injection Hc as <-|].
  by eapply IH.
Qed.

Lemma has_bit_bit (j k : nat) : has_bit (bit j) k = true <-> j = k.
Proof.
  rewrite has_bit_testbit. unfold bit. rewrite Z.shiftl_1_l, Z.pow2_bits_eqb by lia.
  rewrite Z.eqb_eq. lia.
Qed.

Lemma land_bit_nonzero (info : Z) (k : nat) :
  Z.land info (bit k) <> 0 <-> has_bit info k = true.
Proof.
  unfold has_bit. rewrite negb_true_iff, Z.eqb_neq. done.
Qed.

Lemma land_bit_zero (info : Z) (k : nat) :
  Z.land info (bit k) = 0 <-> has_bit info k = false.
Proof.
  unfold has_bit. rewrite negb_false_iff, Z.eqb_eq. done.
Qed.

(** At a position that holds an alphabet code, [char_code] is the code
    [k], the target mask is that of letter [k], and [str(k)] is the
    character. *)
Lemma char_code_encoded (motif : string) (depth : nat) :
  Utils.encoded motif -> (depth < Py.len motif)%nat ->
  exists (c : ascii) (k : nat),
    String.get depth motif = Some c
    /\ (k < domain_size)%nat
    /\ char_code motif depth = Ok (Z.of_nat k)
    /\ (if Z.of_nat k =? Utils.WILDCARD_CODE then mask else Z.shiftl 1 (Z.of_nat k))
       = bit k
    /\ Py.str (Z.of_nat k) = String c EmptyString.
Proof.
  intros Henc Hlt. unfold char_code.
  pose proof (index_result motif depth) as Hi.
  destruct (Py.index motif depth) as [c|e]; [|destruct Hi; lia].
  destruct Hi as [Hget _]. exists c.
  pose proof (encoded_get motif depth c Henc Hget) as Hcode.
  apply is_code_cases in Hcode.
  destruct Hcode as [->|[->|[->| ->]]];
    [exists 0%nat|exists 1%nat|exists 2%nat|exists 3%nat];
    (split; [done|]); (split; [unfold domain_size, Utils.domain_size; simpl; lia|]);
    by vm_compute.
Qed.

Lemma represented_leaf (levels : nat) (info : Z) (s : string) (motif : string)
    (depth : nat) :
  s ∈ represented levels (Node info []) ->
  s = Py.slice depth (depth + levels) motif.
Proof.
  destruct levels as [|levels]; simpl.
  - intros ->%list_elem_of_singleton. unfold Py.slice.
    replace (depth + 0 - depth)%nat with 0%nat by lia. by destruct (Py.slice_from _ _).
  - by intros ?%elem_of_nil.
Qed.

Lemma insert_recursive_exact (levels : nat) :
  forall (n : node) (motif : string) (depth : nat),
    Utils.encoded motif -> (depth + levels <= Py.len motif)%nat ->
    plain levels n ->
    exists n', insert_recursive levels n motif depth = Ok n'
      /\ sharing_info n' = sharing_info n
      /\ plain levels n'
      /\ forall s, s ∈ represented levels n' <->
           s ∈ represented levels n \/ s = Py.slice depth (depth + levels) motif.
Proof.
  induction levels as [|levels IH]; intros n motif depth Henc Hlen Hplain.
  - exists n. simpl. repeat split; try done.
    + intros Hs. by left.
    + intros [Hs|Hs]; [done|]. apply list_elem_of_singleton. subst s.
      unfold Py.slice. replace (depth + 0 - depth)%nat with 0%nat by lia.
      by destruct (Py.slice_from _ _).
  - pose proof (insert_recursive_result (S levels) n motif depth ltac:(lia)) as Hres.
    destruct (insert_recursive (S levels) n motif depth) as [n'|e] eqn:Hins;
      [|destruct Hres; lia].
    exists n'. split; [done|].
    destruct (insert_recursive_monotone _ _ _ _ _ Hins) as [Hinfo Hmono].
    split; [done|].
    destruct (char_code_encoded motif depth Henc ltac:(lia))
      as (c & k & Hget & Hk & Hch & Htarget & Hstr).
    apply insert_recursive_cases in Hins as (ch & Hch' & Hcases).
    rewrite Hch in Hch'. injection Hch' as <-. cbv zeta in Hcases.
    rewrite Htarget in Hcases.
    rewrite (slice_step motif depth levels c Hget).
    cbn [plain] in Hplain.
    destruct Hcases as [(pre & child & post & child' & Hcs & Hpre & Hne & Hc & ->)
                       |(Hall & new_node & Hnew & ->)].
    + rewrite Hcs in Hplain.
      apply Forall_app in Hplain as [Hppre Hplain].
      apply list.Forall_cons in Hplain as [[(j & Hj & Hchild) Hpchild] Hppost].
      assert (j = k) as ->.
      { apply land_bit_nonzero in Hne. rewrite Hchild in Hne. by apply has_bit_bit. }
      destruct (IH child motif (depth + 1)%nat Henc ltac:(lia) Hpchild)
        as (child'' & Hc'' & Hinfo' & Hplain' & Hrep).
      rewrite Hc in Hc''. injection Hc'' as <-.
      split.
      * cbn [plain children]. apply Forall_app. split; [done|].
        constructor; [|done]. split; [|done]. exists k. by rewrite Hinfo'.
      * intros s. split.
        -- rewrite !elem_of_represented_S. cbn [children].
           intros (c0 & j0 & s' & Hin & Hj0 & Hb & Hs' & ->).
           apply elem_of_app in Hin as [Hin|Hin];
             [|apply elem_of_cons in Hin as [->|Hin]].
           ++ left. exists c0, j0, s'. rewrite Hcs. split; [|done].
              apply elem_of_app. by left.
           ++ rewrite Hinfo', Hchild in Hb. apply has_bit_bit in Hb as <-.
              apply Hrep in Hs' as [Hs'| ->].
              ** left. exists child, k, s'. rewrite Hcs, Hchild.
                 split; [apply elem_of_app; right; by left|].
                 split; [done|]. split; [by apply has_bit_bit|done].
              ** right. by rewrite Hstr.
           ++ left. exists c0, j0, s'. rewrite Hcs. split; [|done].
              apply elem_of_app. right. by right.
        -- intros [Hs| ->]; [by apply Hmono|].
           apply elem_of_represented_S. cbn [children].
           exists child', k, (Py.slice (depth + 1) (depth + 1 + levels) motif).
           split; [apply elem_of_app; right; by left|]. split; [done|].
           rewrite Hinfo', Hchild. split; [by apply has_bit_bit|].
           split; [apply Hrep; by right|by rewrite Hstr].
    + destruct (IH (Node (bit k) []) motif (depth + 1)%nat Henc ltac:(lia))
        as (new' & Hnew' & Hinfo' & Hplain' & Hrep).
      { destruct levels; simpl; [done|constructor]. }
      rewrite Hnew in Hnew'. injection Hnew' as <-.
      split.
      * cbn [plain children]. apply Forall_app. split; [done|].
        constructor; [|constructor]. split; [|done]. exists k. by rewrite Hinfo'.
      * intros s. split.
        -- rewrite !elem_of_represented_S. cbn [children].
           intros (c0 & j0 & s' & Hin & Hj0 & Hb & Hs' & ->).
           apply elem_of_app in Hin as [Hin|Hin].
           ++ left. exists c0, j0, s'. done.
           ++ apply list_elem_of_singleton in Hin as ->.
              rewrite Hinfo' in Hb. cbn [sharing_info] in Hb.
              apply has_bit_bit in Hb as <-. right. rewrite Hstr. simpl. f_equal.
              apply Hrep in Hs' as [Hs'|Hs']; [|done].
              by eapply represented_leaf.
        -- intros [Hs| ->]; [by apply Hmono|].
           apply elem_of_represented_S. cbn [children].
           exists new_node, k, (Py.slice (depth + 1) (depth + 1 + levels) motif).
           split; [apply elem_of_app; right; by left|]. split; [done|].
           rewrite Hinfo'. cbn [sharing_info]. split; [by apply has_bit_bit|].
           split; [apply Hrep; by right|by rewrite Hstr].
Qed.

Lemma simple_insert_adds (t : tree) (motif : string) :
  plain (max_depth t) (root t) -> Utils.encoded motif ->
  (max_depth t <= Py.len motif)%nat ->
  exists t', insert t motif = Ok t'
    /\ max_depth t' = max_depth t
    /\ plain (max_depth t') (root t')
    /\ strings t' = strings t ∪ {[ Py.slice 0 (max_depth t) motif ]}.
Proof.
  intros Hplain Henc Hlen. unfold insert.
  destruct (insert_recursive_exact (max_depth t) (root t) motif 0 Henc
              ltac:(lia) Hplain) as (r & -> & _ & Hp & Hrep).
  simpl. eexists. split; [done|]. simpl. split; [done|]. split; [done|].
  apply set_eq. intros s. unfold strings. simpl.
  rewrite elem_of_union, elem_of_singleton, !elem_of_list_to_set. apply Hrep.
Qed.

(** X23: On a tree without wildcards, [insert] of a motif made of alphabet
    codes adds exactly that motif (its first [max_depth] characters) to
    the represented set, and the tree stays without wildcards. *)
Theorem simple_insert_adds_concrete_motif (t : tree) (motif : string) :
  plain (max_depth t) (root t) -> Utils.encoded motif ->
  (max_depth t <= Py.len motif)%nat ->
  exists t', insert t motif = Ok t'
    /\ max_depth t' = max_depth t
    /\ plain (max_depth t') (root t')
    /\ strings t' = strings t ∪ {[ Py.slice 0 (max_depth t) motif ]}.
Proof. apply simple_insert_adds. Qed.

Lemma simple_insert_adds_concrete_motif_witness :
  exists t', insert (Tree (Node 0 [Node 1 [Node 2 []]]) 2) "03" = Ok t'
    /\ max_depth t' = 2%nat
    /\ plain (max_depth t') (root t')
    /\ strings t' = strings (Tree (Node 0 [Node 1 [Node 2 []]]) 2)
                      ∪ {[ Py.slice 0 2 "03" ]}.
Proof.
  apply (simple_insert_adds_concrete_motif (Tree (Node 0 [Node 1 [Node 2 []]]) 2) "03").
  - simpl. repeat constructor; try done.
    + exists 0%nat. split; [unfold domain_size, Utils.domain_size; simpl; lia|done].
    + exists 1%nat. split; [unfold domain_size, Utils.domain_size; simpl; lia|done].
  - simpl. split; [exists 0|split; [exists 3|done]];
      (split; [reflexivity|unfold Utils.domain_size; simpl; lia]).
  - simpl. lia.
Defined.

Lemma slice_all (s : string) : Py.slice 0 (Py.len s) s = s.
Proof.
  unfold Py.slice. rewrite Nat.sub_0_r.
  replace (Py.slice_from 0 s) with s by (by destruct s).
  induction s as [|c s IH]; simpl; [done|]. by rewrite IH.
Qed.

Lemma simple_build_from (L : nat) (ms : list string) :
  Forall (fun m => Utils.encoded m /\ Py.len m = L) ms ->
  forall t : tree,
    max_depth t = L -> plain L (root t) ->
    exists t', Py.for_each ms (fun motif t => tree_insert t motif) t = Ok t'
      /\ max_depth t' = L /\ plain L (root t')
      /\ strings t' = strings t ∪ list_to_set ms.
Proof.
  induction 1 as [|m ms [Henc Hlen] Hms IH]; intros t Hdepth Hplain.
  - exists t. simpl. split; [done|]. split; [done|]. split; [done|].
    by rewrite (right_id_L ∅ (∪)).
  - cbn [Py.for_each]. change (tree_insert t m) with (insert t m).
    destruct (simple_insert_adds t m) as (t1 & -> & Hd1 & Hp1 & Hs1);
      [by rewrite Hdepth|done|lia|].
    simpl. rewrite Hd1, Hdepth in Hp1.
    destruct (IH t1) as (t' & Ht' & Hd' & Hp' & Hs'); [lia|done|].
    exists t'. split; [done|]. split; [done|]. split; [done|].
    rewrite Hs', Hs1, Hdepth, <- Hlen, slice_all. simpl.
    by rewrite (assoc_L (∪)).
Qed.

(** X24: A [MotifTreeSimple] built by inserting motifs of length [max_depth]
    made of alphabet codes represents exactly those motifs. *)
Theorem simple_build_represents_motifs (max_depth : nat) (ms : list string) :
  (0 < max_depth)%nat ->
  Forall (fun m => Utils.encoded m /\ Py.len m = max_depth) ms ->
  exists t : tree, build max_depth ms = Ok t /\ strings t = list_to_set ms.
Proof.
  intros Hpos Hms. unfold build.
  destruct (simple_build_from max_depth ms Hms (new max_depth))
    as (t & Ht & _ & _ & Hs); [done| |].
  { destruct max_depth; [lia|]. simpl. constructor. }
  exists t. split; [exact Ht|]. rewrite Hs.
  destruct max_depth; [lia|]. unfold strings. simpl.
  by rewrite (left_id_L ∅ (∪)).
Qed.

Lemma simple_build_represents_motifs_witness :
  exists t : tree,
    build 2 ["01"%string; "31"%string; "01"%string] = Ok t
    /\ strings t = list_to_set ["01"%string; "31"%string; "01"%string].
Proof.
  apply (simple_build_represents_motifs 2 ["01"%string; "31"%string; "01"%string]).
  - lia.
  - repeat constructor; simpl;
      first [exists 0; split; [reflexivity|unfold Utils.domain_size; simpl; lia]
            |exists 1; split; [reflexivity|unfold Utils.domain_size; simpl; lia]
            |exists 3; split; [reflexivity|unfold Utils.domain_size; simpl; lia]].
Defined.

End SimpleInsert.

(** ** The enumeration of V2 as a sequence of insertions (ems2.py) *)

Section Ems2Engine.
Import Ems2.

Lemma insert_all_app {T} `{MotifTreeBase T} (ms1 ms2 : list string) (t : T) :
  insert_all (ms1 ++ ms2) t = (t1 ← insert_all ms1 t; insert_all ms2 t1).
Proof.
  unfold insert_all. revert t. induction ms1 as [|m ms1 IH]; intros t; simpl; [done|].
  destruct (tree_insert t m); simpl; [apply IH|done].
Qed.

Lemma inserts_nil (l : nat) (st : @state (list string)) :
  inserts l st (Ok st) (fun T H s => Ok s) [] (kmer st).
Proof.
  split; [|split].
  - destruct st. simpl. by rewrite app_nil_r.
  - constructor.
  - intros T H s Hs. destruct s. simpl in *. by subst.
Qed.

Lemma inserts_wrap (l : nat) (st : @state (list string)) (K : string)
    (g : string -> string)
    (f : forall T, MotifTreeBase T -> @state T -> Py.result (@state T))
    (new : list string) (k' : string) :
  inserts l (set_kmer st K) (f _ recorder (set_kmer st K)) f new k' ->
  inserts l st
    (s1 ← f _ recorder (set_kmer st K); Ok (set_kmer s1 (g (kmer s1))))
    (fun T H s => s1 ← f T H (set_kmer s K); Ok (set_kmer s1 (g (kmer s1))))
    new (g k').
Proof.
  intros (Hr & Hlen & HT). split; [|split; [done|]].
  - rewrite Hr. done.
  - intros T H s Hs. rewrite (HT T H (set_kmer s K)) by done. simpl.
    by destruct (insert_all new (tree s)).
Qed.

Lemma for_each_inserts {X} (l : nat) (xs : list X)
    (body : forall T, MotifTreeBase T -> X -> @state T -> Py.result (@state T)) :
  (forall x st, x ∈ xs ->
     exists new k', inserts l st (body _ recorder x st) (fun T H => body T H x) new k') ->
  forall st,
    exists new k',
      inserts l st (Py.for_each xs (body _ recorder) st)
        (fun T H => Py.for_each xs (body T H)) new k'.
Proof.
  induction xs as [|x xs IH]; intros Hbody st.
  - exists [], (kmer st). apply inserts_nil.
  - destruct (Hbody x st) as (new1 & k1 & Hr1 & Hlen1 & HT1); [by left|].
    destruct (IH (fun y st' Hy => Hbody y st' (list_elem_of_further _ _ _ Hy))
                (State k1 (tree st ++ new1))) as (new2 & k2 & Hr2 & Hlen2 & HT2).
    exists (new1 ++ new2)%list, k2. split; [|split].
    + cbn [Py.for_each]. rewrite Hr1. simpl. rewrite Hr2. simpl.
      by rewrite <- app_assoc.
    + by apply Forall_app.
    + intros T H s Hs. cbn [Py.for_each]. rewrite (HT1 T H s Hs).
      rewrite insert_all_app.
      destruct (insert_all new1 (tree s)) as [t1|e]; simpl; [|done].
      by rewrite (HT2 T H (State k1 t1)).
Qed.

Lemma gen_nbrhood_3_inserts (l alpha : nat) :
  forall st : @state (list string),
    exists new k',
      inserts l st (@_gen_nbrhood_3 _ recorder l alpha st)
        (fun T H => @_gen_nbrhood_3 T H l alpha) new k'.
Proof.
  induction alpha as [|alpha IH]; intros st.
  - cbn [_gen_nbrhood_3]. cbv zeta.
    destruct (Nat.eqb_spec (Py.len (replace_star (strip_deleted (kmer st)))) l)
      as [Hl|Hl].
    + exists [replace_star (strip_deleted (kmer st))], (kmer st).
      split; [done|]. split; [by repeat constructor|].
      intros T H s Hs. cbn [_gen_nbrhood_3]. cbv zeta. rewrite Hs.
      destruct (Nat.eqb_spec (Py.len (replace_star (strip_deleted (kmer st)))) l);
        [|done].
      unfold insert_all. simpl.
      by destruct (tree_insert (tree s) (replace_star (strip_deleted (kmer st)))).
    + exists [], (kmer st).
      destruct (inserts_nil l st) as (Hr & Hlen & HT).
      split; [done|]. split; [done|].
      intros T H s Hs. cbn [_gen_nbrhood_3]. cbv zeta. rewrite Hs.
      destruct (Nat.eqb_spec (Py.len (replace_star (strip_deleted (kmer st)))) l);
        [done|]. by apply HT.
  - set (K := kmer st).
    pose (body := fun T (H : MotifTreeBase T) (j : nat) (s : @state T) =>
      if (j <? Py.len K)%nat && bool_decide (Py.char_at j K = "*"%string)
      then Ok s
      else
        s1 ← @_gen_nbrhood_3 T H l alpha
               (set_kmer s (String.append (Py.slice_to j K)
                              (String "*" (Py.slice_from j K))));
        Ok (set_kmer s1 ((fun _ => K) (kmer s1)))).
    destruct (for_each_inserts l (Py.range (Py.len K + 1)) body) with (st := st)
      as (new & k' & Hr & Hlen & HT).
    { intros j s _. unfold body.
      destruct ((j <? Py.len K)%nat && bool_decide (Py.char_at j K = "*"%string)).
      - exists [], (kmer s). apply inserts_nil.
      - destruct (IH (set_kmer s (String.append (Py.slice_to j K)
                                    (String "*" (Py.slice_from j K)))))
          as (new & k' & Hins).
        exists new, K.
        exact (inserts_wrap l s _ (fun _ => K)
                 (fun T H => @_gen_nbrhood_3 T H l alpha) new k' Hins). }
    exists new, k'. split; [exact Hr|]. split; [exact Hlen|].
    intros T H s Hs. cbn [_gen_nbrhood_3]. cbv zeta. rewrite Hs.
    exact (HT T H s Hs).
Qed.

Lemma gen_nbrhood_2_inserts (l sigma alpha : nat) :
  forall st : @state (list string),
    exists new k',
      inserts l st (@_gen_nbrhood_2 _ recorder l sigma alpha st)
        (fun T H => @_gen_nbrhood_2 T H l sigma alpha) new k'.
Proof.
  induction sigma as [|sigma IH]; intros st.
  - destruct (gen_nbrhood_3_inserts l alpha st) as (new & k' & Hins).
    exists new, k'. exact Hins.
  - set (K := kmer st).
    pose (body := fun T (H : MotifTreeBase T) (j : nat) (s : @state T) =>
      if bool_decide (Py.char_at j K = "-"%string) then Ok s
      else
        s1 ← @_gen_nbrhood_2 T H l sigma alpha
               (set_kmer s (String.append (Py.slice_to j K)
                              (String "*" (Py.slice_from (j + 1) K))));
        Ok (set_kmer s1
              ((fun _ => String.append (Py.slice_to j K)
                           (String.append (Py.char_at j K)
                              (Py.slice_from (j + 1) K))) (kmer s1)))).
    destruct (for_each_inserts l (Py.range (Py.len K)) body) with (st := st)
      as (new & k' & Hr & Hlen & HT).
    { intros j s _. unfold body.
      destruct (bool_decide (Py.char_at j K = "-"%string)).
      - exists [], (kmer s). apply inserts_nil.
      - destruct (IH (set_kmer s (String.append (Py.slice_to j K)
                                    (String "*" (Py.slice_from (j + 1) K)))))
          as (new & k' & Hins).
        eexists new, _.
        exact (inserts_wrap l s _
                 (fun _ => String.append (Py.slice_to j K)
                             (String.append (Py.char_at j K)
                                (Py.slice_from (j + 1) K)))
                 (fun T H => @_gen_nbrhood_2 T H l sigma alpha) new k' Hins). }
    exists new, k'. split; [exact Hr|]. split; [exact Hlen|].
    intros T H s Hs. cbn [_gen_nbrhood_2]. cbv zeta. rewrite Hs.
    exact (HT T H s Hs).
Qed.

Lemma gen_nbrhood_inserts (l delta sigma alpha : nat) :
  forall st : @state (list string),
    exists new k',
      inserts l st (@_gen_nbrhood _ recorder l delta sigma alpha st)
        (fun T H => @_gen_nbrhood T H l delta sigma alpha) new k'.
Proof.
  induction delta as [|delta IH]; intros st.
  - destruct (gen_nbrhood_2_inserts l sigma alpha st) as (new & k' & Hins).
    exists new, k'. exact Hins.
  - set (K := kmer st).
    pose (body := fun T (H : MotifTreeBase T) (j : nat) (s : @state T) =>
      s1 ← @_gen_nbrhood T H l delta sigma alpha
             (set_kmer s (String.append (Py.slice_to j K)
                            (String "-" (Py.slice_from (j + 1) K))));
      Ok (set_kmer s1
            ((fun k => String.append (Py.slice_to j K)
                         (String.append (Py.char_at j K)
                            (Py.slice_from (j + 1) k))) (kmer s1)))).
    destruct (for_each_inserts l (Py.range (Py.len K)) body) with (st := st)
      as (new & k' & Hr & Hlen & HT).
    { intros j s _. unfold body.
      destruct (IH (set_kmer s (String.append (Py.slice_to j K)
                                  (String "-" (Py.slice_from (j + 1) K)))))
        as (new & k' & Hins).
      eexists new, _.
      exact (inserts_wrap l s _
               (fun k => String.append (Py.slice_to j K)
                           (String.append (Py.char_at j K)
                              (Py.slice_from (j + 1) k)))
               (fun T H => @_gen_nbrhood T H l delta sigma alpha) new k' Hins). }
    exists new, k'. split; [exact Hr|]. split; [exact Hlen|].
    intros T H s Hs. cbn [_gen_nbrhood]. cbv zeta. rewrite Hs.
    exact (HT T H s Hs).
Qed.

Lemma gen_all_inserts (l d : nat) (seq : string) :
  forall st : @state (list string),
    exists new k',
      inserts l st (@_gen_all _ recorder l d seq st)
        (fun T H => @_gen_all T H l d seq) new k'.
Proof.
  intros st. unfold _gen_all. cbv zeta.
  apply (for_each_inserts l _
    (fun T H q s =>
       if (Z.of_nat l + q <=? 0) || (Z.of_nat (Py.len seq) <? Z.of_nat l + q)
       then Ok s
       else
         Py.for_each
           (Py.rangeZ (Z.max 0 q) ((Z.of_nat d + q) / 2 + 1))
           (fun delta s =>
              Py.for_each (Py.range (Py.len seq - Z.to_nat (Z.of_nat l + q) + 1))
                (fun i s =>
                   @_gen_nbrhood T H l (Z.to_nat delta)
                     (Z.to_nat (Z.of_nat d - (delta - q) - delta))
                     (Z.to_nat (delta - q))
                     (set_kmer s (Py.slice i (i + Z.to_nat (Z.of_nat l + q)) seq)))
                s)
           s)).
  intros q s _.
  destruct ((Z.of_nat l + q <=? 0) || (Z.of_nat (Py.len seq) <? Z.of_nat l + q)).
  { exists [], (kmer s). apply inserts_nil. }
  apply (for_each_inserts l _
    (fun T H delta s =>
       Py.for_each (Py.range (Py.len seq - Z.to_nat (Z.of_nat l + q) + 1))
         (fun i s =>
            @_gen_nbrhood T H l (Z.to_nat delta)
              (Z.to_nat (Z.of_nat d - (delta - q) - delta))
              (Z.to_nat (delta - q))
              (set_kmer s (Py.slice i (i + Z.to_nat (Z.of_nat l + q)) seq)))
         s)).
  intros delta s' _.
  apply (for_each_inserts l _
    (fun T H i s =>
       @_gen_nbrhood T H l (Z.to_nat delta)
         (Z.to_nat (Z.of_nat d - (delta - q) - delta))
         (Z.to_nat (delta - q))
         (set_kmer s (Py.slice i (i + Z.to_nat (Z.of_nat l + q)) seq)))).
  intros i s'' _.
  destruct (gen_nbrhood_inserts l (Z.to_nat delta)
              (Z.to_nat (Z.of_nat d - (delta - q) - delta))
              (Z.to_nat (delta - q))
              (set_kmer s'' (Py.slice i (i + Z.to_nat (Z.of_nat l + q)) seq)))
    as (new & k' & Hr & Hlen & HT).
  exists new, k'. split; [exact Hr|]. split; [exact Hlen|].
  intros T H s0 Hs.
  by apply (HT T H (set_kmer s0 (Py.slice i (i + Z.to_nat (Z.of_nat l + q)) seq))).
Qed.

Lemma gen_tree_inserts (l d : nat) (seq : string) :
  exists ms : list string,
    @gen_tree _ recorder l d seq [] = Ok ms
    /\ Forall (fun m => Py.len m = l) ms
    /\ forall T (H : MotifTreeBase T),
         (forall t : T, @gen_tree T H l d seq t = insert_all ms t)
         /\ @gen_tree T H l d seq (tree_new l) = build l ms.
Proof.
  destruct (gen_all_inserts l d seq (State EmptyString [])) as (ms & k' & Hr & Hlen & HT).
  exists ms. split; [|split; [done|]].
  - unfold gen_tree. rewrite Hr. done.
  - intros T H.
    assert (forall t : T, @gen_tree T H l d seq t = insert_all ms t) as Hgen.
    { intros t. unfold gen_tree. rewrite (HT T H (State EmptyString t)) by done.
      simpl. by destruct (insert_all ms t). }
    split; [exact Hgen|]. rewrite Hgen. done.
Qed.

(** X25: Whatever the tree class, [_gen_all(seq, tree)] is a fixed sequence of
    [tree.insert] calls: the motifs depend on [l], [d] and [seq] only,
    they all have length [l], and they are what the recording tree
    records.  On a new tree, [_gen_all] is [build] of these motifs. *)
Theorem gen_all_is_a_sequence_of_inserts (l d : nat) (seq : string) :
  exists ms : list string,
    @gen_tree _ recorder l d seq [] = Ok ms
    /\ Forall (fun m => Py.len m = l) ms
    /\ forall T (H : MotifTreeBase T),
         (forall t : T, @gen_tree T H l d seq t = insert_all ms t)
         /\ @gen_tree T H l d seq (tree_new l) = build l ms.
Proof. apply gen_tree_inserts. Qed.

End Ems2Engine.

(** ** Traversal of MotifTreeSimple and the output of V2m (motif_tree.py, ems2.py) *)

Section SimpleTraverse.
Import MotifTree MotifTreeSimple.

Lemma children_map_step (child : node) (js : list nat) :
  forall (m : gmap nat node) (i : nat),
    fold_left
      (fun m j => if has_bit (sharing_info child) j then <[j := child]> m else m)
      js m !! i
    = if bool_decide (i ∈ js) && has_bit (sharing_info child) i
      then Some child else m !! i.
Proof.
  induction js as [|j js IH]; intros m i; cbn [fold_left].
  - rewrite bool_decide_eq_false_2; [done|]. apply not_elem_of_nil.
  - rewrite IH. destruct (decide (i ∈ js)) as [Hin|Hin].
    + rewrite !bool_decide_eq_true_2; [|by right|done]. simpl.
      destruct (has_bit (sharing_info child) i) eqn:Hb; [done|].
      destruct (has_bit (sharing_info child) j) eqn:Hbj; [|done].
      rewrite lookup_insert_ne; [done|]. intros ->. congruence.
    + rewrite (bool_decide_eq_false_2 (i ∈ js)) by done. simpl.
      destruct (decide (i = j)) as [->|Hne].
      * rewrite bool_decide_eq_true_2 by (by left). simpl.
        destruct (has_bit (sharing_info child) j); [|done].
        by rewrite lookup_insert_eq.
      * rewrite bool_decide_eq_false_2.
        2:{ intros [?|?]%elem_of_cons; done. }
        simpl. destruct (has_bit (sharing_info child) j); [|done].
        by rewrite lookup_insert_ne.
Qed.

Lemma children_map_snoc (cs : list node) (c : node) (i : nat) :
  children_map (cs ++ [c]) !! i
  = if bool_decide (i < domain_size)%nat && has_bit (sharing_info c) i
    then Some c else children_map cs !! i.
Proof.
  unfold children_map. rewrite fold_left_app. cbn [fold_left].
  rewrite children_map_step.
  rewrite (bool_decide_ext (i ∈ Py.range domain_size) (i < domain_size)%nat); [done|].
  unfold Py.range. rewrite elem_of_seq. lia.
Qed.

Lemma children_map_Some (cs : list node) (c : node) (i : nat) :
  children_map cs !! i = Some c ->
  c ∈ cs /\ has_bit (sharing_info c) i = true /\ (i < domain_size)%nat.
Proof.
  induction cs as [|c0 cs IH] using rev_ind.
  - unfold children_map. simpl. by rewrite lookup_empty.
  - rewrite children_map_snoc.
    destruct (bool_decide (i < domain_size)%nat) eqn:Hi; simpl.
    + destruct (has_bit (sharing_info c0) i) eqn:Hb.
      * intros [= <-]. apply bool_decide_eq_true_1 in Hi.
        split; [apply elem_of_app; right; by left|done].
      * intros Hc. destruct (IH Hc) as (? & ? & ?).
        split; [apply elem_of_app; by left|done].
    + intros Hc. destruct (IH Hc) as (? & ? & ?).
      split; [apply elem_of_app; by left|done].
Qed.

Lemma disjoint_masks_app (l1 l2 : list Z) :
  disjoint_masks (l1 ++ l2) <->
  disjoint_masks l1 /\ disjoint_masks l2
  /\ forall a b k, a ∈ l1 -> b ∈ l2 -> (k < domain_size)%nat ->
                   has_bit a k = true -> has_bit b k = false.
Proof.
  induction l1 as [|a l1 IH]; simpl.
  - split; [intros ?; repeat split; try done|tauto].
    intros a b k Ha. by apply elem_of_nil in Ha.
  - rewrite IH, Forall_app, !list.Forall_forall. split.
    + intros [[H1 H2] (H3 & H4 & H5)]. repeat split; try done.
      intros a' b k [->|Ha]%elem_of_cons Hb Hk Hbit; [by apply H2|by eapply H5].
    + intros ([H1 H2] & H3 & H4). repeat split; try done.
      * intros b Hb k Hk Hbit. eapply H4; [by left|done..].
      * intros a' b k Ha. apply H4. by right.
Qed.

Lemma children_map_separate (cs : list node) (c : node) (i : nat) :
  disjoint_masks (map sharing_info cs) ->
  c ∈ cs -> has_bit (sharing_info c) i = true -> (i < domain_size)%nat ->
  children_map cs !! i = Some c.
Proof.
  induction cs as [|c0 cs IH] using rev_ind; intros Hd Hc Hb Hi.
  - by apply elem_of_nil in Hc.
  - rewrite map_app in Hd. apply disjoint_masks_app in Hd as (Hd & _ & Hcross).
    rewrite children_map_snoc, bool_decide_eq_true_2 by done. simpl.
    apply elem_of_app in Hc as [Hc|Hc].
    + rewrite (Hcross (sharing_info c) (sharing_info c0) i); [by apply IH| | |done..].
      * apply list_elem_of_fmap. by exists c.
      * simpl. by left.
    + apply list_elem_of_singleton in Hc as ->. by rewrite Hb.
Qed.

Lemma append_nil_r (s : string) : String.append s EmptyString = s.
Proof.
  induction s as [|c s IH]; [done|].
  change (String c (String.append s EmptyString) = String c s). by rewrite IH.
Qed.

Lemma append_assoc (a b c : string) :
  String.append (String.append a b) c = String.append a (String.append b c).
Proof.
  induction a as [|x a IH]; [done|].
  change (String x (String.append (String.append a b) c)
          = String x (String.append a (String.append b c))).
  by rewrite IH.
Qed.

Lemma join_app (xs ys : list string) :
  Py.join (xs ++ ys) = String.append (Py.join xs) (Py.join ys).
Proof.
  unfold Py.join. induction xs as [|x xs IH]; simpl; [done|].
  by rewrite IH, append_assoc.
Qed.

Lemma traverse_recursive_listing (levels : nat) :
  forall (n : node) (depth : nat) (x motifs : list string),
    List.length x = (depth + levels)%nat ->
    traverse_recursive levels n depth x motifs
    = (motifs ++ map (String.append (Py.join (take depth x))) (listing levels n))%list.
Proof.
  induction levels as [|levels IH]; intros n depth x motifs Hx.
  - cbn [traverse_recursive listing map]. rewrite take_ge by lia.
    by rewrite append_nil_r.
  - cbn [traverse_recursive listing]. cbv zeta.
    generalize (Py.range domain_size) as js. intros js. revert motifs.
    induction js as [|j js IHjs]; intros motifs; simpl.
    + by rewrite app_nil_r.
    + rewrite IHjs.
      destruct (children_map (children n) !! j) as [child|]; simpl; [|done].
      rewrite IH by (rewrite length_insert; lia).
      rewrite map_app, app_assoc. f_equal. f_equal.
      rewrite map_map. apply map_ext. intros s.
      replace (depth + 1)%nat with (S depth) by lia.
      rewrite (take_S_r _ _ (Py.str (Z.of_nat j))).
      2:{ apply list_lookup_insert_eq. lia. }
      rewrite take_insert_ge by lia.
      rewrite join_app, append_assoc. by f_equal.
Qed.

Lemma listing_represented (levels : nat) : forall (n : node) (s : string),
  s ∈ listing levels n -> s ∈ represented levels n.
Proof.
  induction levels as [|levels IH]; intros n s; [done|].
  cbn [listing]. rewrite list_elem_of_bind. intros (i & Hs & Hi).
  destruct (children_map (children n) !! i) as [child|] eqn:Hc;
    [|by apply elem_of_nil in Hs].
  apply children_map_Some in Hc as (Hin & Hb & Hlt).
  apply list_elem_of_fmap in Hs as (s' & -> & Hs').
  apply elem_of_represented_S. exists child, i, s'.
  split; [done|]. split; [done|]. split; [done|]. split; [by apply IH|done].
Qed.

Lemma represented_listing (levels : nat) : forall (n : node) (s : string),
  separate levels n -> s ∈ represented levels n -> s ∈ listing levels n.
Proof.
  induction levels as [|levels IH]; intros n s Hsep; [done|].
  destruct Hsep as [Hd Hall]. rewrite elem_of_represented_S.
  intros (child & j & s' & Hin & Hj & Hb & Hs' & ->).
  cbn [listing]. apply list_elem_of_bind. exists j.
  split; [|apply elem_of_seq; lia].
  rewrite (children_map_separate _ child) by done.
  apply list_elem_of_fmap. exists s'. split; [done|].
  apply IH; [|done]. rewrite list.Forall_forall in Hall. by apply Hall.
Qed.

Lemma NoDup_listing (levels : nat) : forall n : node, NoDup (listing levels n).
Proof.
  induction levels as [|levels IH]; intros n.
  - simpl. apply NoDup_singleton.
  - cbn [listing]. apply NoDup_bind.
    + intros i1 i2 s Hi1 Hi2 Hs1 Hs2.
      apply elem_of_seq in Hi1, Hi2.
      destruct (children_map (children n) !! i1); [|by apply elem_of_nil in Hs1].
      destruct (children_map (children n) !! i2); [|by apply elem_of_nil in Hs2].
      apply list_elem_of_fmap in Hs1 as (s1 & -> & _).
      apply list_elem_of_fmap in Hs2 as (s2 & Heq & _).
      apply letter_inj in Heq as [? _]; [done|lia..].
    + intros i Hi. destruct (children_map (children n) !! i); [|constructor].
      apply NoDup_fmap_2; [|apply IH].
      intros s1 s2 Heq. apply elem_of_seq in Hi.
      apply letter_inj in Heq as [_ ?]; [done|lia..].
    + apply NoDup_seq.
Qed.

Lemma simple_traverse_spec (t : tree) :
  exists ms, traverse t = Ok ms
    /\ NoDup ms
    /\ (forall s, s ∈ ms -> s ∈ strings t)
    /\ (separate (max_depth t) (root t) -> forall s, s ∈ strings t -> s ∈ ms).
Proof.
  unfold traverse. eexists. split; [done|].
  rewrite traverse_recursive_listing by (rewrite length_replicate; lia).
  simpl. rewrite map_id. unfold strings.
  split; [apply NoDup_listing|]. split.
  - intros s Hs. apply elem_of_list_to_set. by apply listing_represented.
  - intros Hsep s Hs. apply elem_of_list_to_set in Hs. by apply represented_listing.
Qed.

(** X26: [traverse] of [MotifTreeSimple] does not raise and lists represented
    strings without repetition; when no letter is in the masks of two
    children of a node, it lists all of them. *)
Theorem simple_traverse_lists_strings (t : tree) :
  exists ms, traverse t = Ok ms
    /\ NoDup ms
    /\ (forall s, s ∈ ms -> s ∈ strings t)
    /\ (separate (max_depth t) (root t) -> forall s, s ∈ strings t -> s ∈ ms).
Proof. apply simple_traverse_spec. Qed.

Lemma separate_children (levels : nat) (n n' : node) :
  children n = children n' -> separate levels n -> separate levels n'.
Proof. intros Hc. destruct levels; simpl; [done|]. by rewrite Hc. Qed.

Lemma insert_recursive_separate (levels : nat) :
  forall (n n' : node) (motif : string) (depth : nat),
    separate levels n ->
    insert_recursive levels n motif depth = Ok n' ->
    separate levels n'.
Proof.
  induction levels as [|levels IH]; intros n n' motif depth Hsep Hins; [done|].
  destruct Hsep as [Hd Hall].
  apply insert_recursive_cases in Hins as (ch & _ & Hcases). cbv zeta in Hcases.
  destruct Hcases as [(pre & child & post & child' & Hcs & _ & _ & Hc & ->)
                     |(Hzero & new_node & Hnew & ->)].
  - rewrite Hcs in Hd, Hall.
    destruct (insert_recursive_monotone _ _ _ _ _ Hc) as [Hinfo _].
    apply Forall_app in Hall as [Hpre Hall].
    apply list.Forall_cons in Hall as [Hchild Hpost].
    split.
    + cbn [children]. rewrite map_app in *. simpl in *. by rewrite Hinfo.
    + cbn [children]. apply Forall_app. split; [done|].
      constructor; [|done]. by eapply IH.
  - destruct (insert_recursive_monotone _ _ _ _ _ Hnew) as [Hinfo _].
    simpl in Hinfo. split.
    + cbn [children]. rewrite map_app. apply disjoint_masks_app.
      split; [done|]. split; [simpl; split; [constructor|done]|].
      intros a b k Ha Hb Hk Hbit.
      apply list_elem_of_singleton in Hb as ->. rewrite Hinfo.
      apply list_elem_of_fmap in Ha as (c & -> & Hc).
      rewrite list.Forall_forall in Hzero. specialize (Hzero c Hc).
      assert (has_bit (Z.land (sharing_info c)
                (if ch =? Utils.WILDCARD_CODE then mask else Z.shiftl 1 ch)) k = false)
        as H0.
      { rewrite Hzero. by rewrite has_bit_testbit, Z.bits_0. }
      rewrite has_bit_land, Hbit in H0. done.
    + cbn [children]. apply Forall_app. split; [done|].
      constructor; [|constructor]. eapply IH; [|exact Hnew].
      destruct levels; simpl; [done|]. split; [done|constructor].
Qed.

Lemma new_children_masks (rec : node -> node -> option node)
    (tcs fcs : list node) :
  disjoint_masks (map sharing_info tcs) ->
  disjoint_masks (map sharing_info fcs) ->
  disjoint_masks
    (map sharing_info
       (to_child ← tcs;
        from_child ← fcs;
        let common := Z.land (sharing_info to_child) (sharing_info from_child) in
        if negb (common =? 0) then
          match rec to_child from_child with
          | Some intersected_child => [Node common (children intersected_child)]
          | None => []
          end
        else [])).
Proof.
  intros Ht Hf.
  set (inner := fun to_child : node =>
    from_child ← fcs;
    let common := Z.land (sharing_info to_child) (sharing_info from_child) in
    if negb (common =? 0) then
      match rec to_child from_child with
      | Some intersected_child => [Node common (children intersected_child)]
      | None => []
      end
    else []).
  assert (forall tc b, b ∈ map sharing_info (inner tc) ->
            exists fc, fc ∈ fcs /\ b = Z.land (sharing_info tc) (sharing_info fc))
    as Hinner.
  { intros tc b Hb. apply list_elem_of_fmap in Hb as (nc & -> & Hnc).
    apply list_elem_of_bind in Hnc as (fc & Hnc & Hfc). exists fc. split; [done|].
    cbv zeta in Hnc.
    destruct (negb (Z.land (sharing_info tc) (sharing_info fc) =? 0));
      [|by apply elem_of_nil in Hnc].
    destruct (rec tc fc); [|by apply elem_of_nil in Hnc].
    by apply list_elem_of_singleton in Hnc as ->. }
  assert (forall tc, disjoint_masks (map sharing_info (inner tc))) as Hdinner.
  { intros tc. unfold inner. clear Hinner.
    induction fcs as [|fc fcs IHf]; [done|].
    destruct Hf as [Hfc Hf]. rewrite bind_cons, map_app.
    apply disjoint_masks_app. split; [|split; [by apply IHf|]].
    - cbv zeta.
      destruct (negb (Z.land (sharing_info tc) (sharing_info fc) =? 0)); [|done].
      destruct (rec tc fc); simpl; [|done]. split; [constructor|done].
    - intros a b k Ha Hb Hk Hbit.
      apply list_elem_of_fmap in Hb as (nc & -> & Hnc).
      apply list_elem_of_bind in Hnc as (fc' & Hnc & Hfc').
      assert (sharing_info nc = Z.land (sharing_info tc) (sharing_info fc')) as ->.
      { cbv zeta in Hnc.
        destruct (negb (Z.land (sharing_info tc) (sharing_info fc') =? 0));
          [|by apply elem_of_nil in Hnc].
        destruct (rec tc fc'); [|by apply elem_of_nil in Hnc].
        by apply list_elem_of_singleton in Hnc as ->. }
      assert (a = Z.land (sharing_info tc) (sharing_info fc)) as ->.
      { cbv zeta in Ha.
        destruct (negb (Z.land (sharing_info tc) (sharing_info fc) =? 0));
          [|by apply elem_of_nil in Ha].
        destruct (rec tc fc); [|by apply elem_of_nil in Ha].
        simpl in Ha. by apply list_elem_of_singleton in Ha. }
      rewrite has_bit_land in Hbit |- *. apply andb_true_iff in Hbit as [_ Hbit].
      rewrite list.Forall_forall in Hfc.
      rewrite (Hfc (sharing_info fc')); [by rewrite andb_false_r| |done..].
      apply list_elem_of_fmap. by exists fc'. }
  fold inner. clear Hf.
  induction tcs as [|tc tcs IHt]; [done|].
  destruct Ht as [Htc Ht]. rewrite bind_cons, map_app.
  apply disjoint_masks_app. split; [done|]. split; [by apply IHt|].
  intros a b k Ha Hb Hk Hbit.
  apply Hinner in Ha as (fc & _ & ->).
  apply list_elem_of_fmap in Hb as (nc & -> & Hnc).
  apply list_elem_of_bind in Hnc as (tc' & Hnc & Htc').
  assert (sharing_info nc ∈ map sharing_info (inner tc')) as Hb.
  { apply list_elem_of_fmap. by exists nc. }
  apply Hinner in Hb as (fc' & _ & ->).
  rewrite has_bit_land in Hbit |- *. apply andb_true_iff in Hbit as [Hbit _].
  rewrite list.Forall_forall in Htc.
  rewrite (Htc (sharing_info tc')); [done| |done..].
  apply list_elem_of_fmap. by exists tc'.
Qed.

Lemma intersect_recursive_separate (levels : nat) :
  forall (to_node from_node r : node) (depth : nat),
    separate levels to_node -> separate levels from_node ->
    intersect_recursive levels to_node from_node depth = Some r ->
    separate levels r.
Proof.
  induction levels as [|levels IH]; intros to_node from_node r depth Ht Hf Hr;
    [done|].
  rewrite intersect_recursive_S in Hr.
  destruct (children from_node) as [|fc0 fcs] eqn:Hfrom; [done|].
  cbv zeta in Hr.
  destruct (new_children _ to_node from_node) as [|c cs] eqn:Hnew; [done|].
  injection Hr as <-. destruct Ht as [Htd Htall], Hf as [Hfd Hfall].
  rewrite <- Hnew. split; cbn [children].
  - unfold new_children. rewrite Hfrom. rewrite Hfrom in Hfd.
    by apply new_children_masks.
  - apply list.Forall_forall. intros nc Hnc.
    apply elem_of_new_children in Hnc as (tc & fc & ic & Htc & Hfc & _ & Hrec & ->).
    apply (separate_children levels ic); [done|].
    rewrite list.Forall_forall in Htall, Hfall.
    eapply IH; [by apply Htall|by apply Hfall|exact Hrec].
Qed.

Lemma simple_insert_all_wf (l : nat) (ms : list string) :
  Forall (fun m => Py.len m = l) ms ->
  forall t : tree,
    max_depth t = l -> separate l (root t) ->
    exists t', Ems2.insert_all ms t = Ok t'
      /\ max_depth t' = l /\ separate l (root t').
Proof.
  unfold Ems2.insert_all.
  induction 1 as [|m ms Hm Hms IH]; intros t Hd Hsep.
  - by exists t.
  - cbn [Py.for_each]. change (tree_insert t m) with (insert t m). unfold insert.
    pose proof (insert_recursive_result (max_depth t) (root t) m 0 ltac:(lia)) as Hr.
    destruct (insert_recursive (max_depth t) (root t) m 0) as [r|e] eqn:Hins;
      [|destruct Hr; lia].
    simpl. apply IH; simpl; [done|].
    rewrite <- Hd. eapply insert_recursive_separate; [|exact Hins]. by rewrite Hd.
Qed.

Lemma simple_gen_tree_wf (l d : nat) (seq : string) :
  exists t : tree,
    @Ems2.gen_tree tree _ l d seq (new l) = Ok t
    /\ max_depth t = l /\ separate l (root t).
Proof.
  destruct (gen_tree_inserts l d seq) as (ms & _ & Hlen & HT).
  destruct (HT tree _) as [Hgen _]. rewrite Hgen.
  apply simple_insert_all_wf; [done|done|].
  destruct l; simpl; [done|]. split; [done|constructor].
Qed.

Lemma simple_search_loop_spec (l d : nat) (reads : list string) :
  (0 < l)%nat ->
  forall (i : nat) (main_tree : tree) (log : list nat),
    max_depth main_tree = l -> separate l (root main_tree) ->
    exists out,
      @Ems2.search_loop tree _ l d i reads main_tree log = Ok out
      /\ StronglySorted String.le (motifs out)
      /\ NoDup (motifs out)
      /\ forall s, s ∈ motifs out <->
           s ∈ strings main_tree
           /\ Forall (fun seq => s ∈ Ems2.tree_strings l d seq) reads.
Proof.
  intros Hl. induction reads as [|seq reads IH]; intros i main log Hd Hsep.
  - cbn [Ems2.search_loop]. change (tree_traverse main) with (traverse main).
    destruct (simple_traverse_spec main) as (ms & -> & Hnd & Hsub & Hall).
    simpl. eexists. split; [done|]. simpl.
    split; [apply StronglySorted_merge_sort; apply _|].
    split; [by rewrite merge_sort_Permutation|].
    intros s. rewrite merge_sort_Permutation. split.
    + intros Hs. split; [by apply Hsub|constructor].
    + intros [Hs _]. apply Hall; [by rewrite Hd|done].
  - cbn [Ems2.search_loop]. cbv zeta.
    destruct (simple_gen_tree_wf l d seq) as (tmp & Htmp & Hdtmp & Hseptmp).
    change (@tree_new tree _ l) with (new l). rewrite Htmp. simpl.
    assert (Ems2.tree_strings l d seq = strings tmp) as Hts.
    { unfold Ems2.tree_strings. by rewrite Htmp. }
    change (tree_intersect main tmp) with (intersect main tmp).
    destruct (intersect main tmp) as [main'|e] eqn:Hint;
      [|unfold intersect in Hint;
        by destruct (intersect_recursive (max_depth main) (root main) (root tmp) 0)].
    pose proof (simple_intersect_strings main tmp main' ltac:(congruence) Hint)
      as Hstr.
    assert (max_depth main' = l /\ separate l (root main')) as [Hd' Hsep'].
    { unfold intersect in Hint.
      destruct (intersect_recursive (max_depth main) (root main) (root tmp) 0)
        as [r|] eqn:Hr; injection Hint as <-; simpl; (split; [done|]).
      - rewrite <- Hd. eapply intersect_recursive_separate; [| |exact Hr];
          by rewrite Hd.
      - destruct l; simpl; [done|]. split; [done|constructor]. }
    simpl. change (tree_root_children_truthy main') with (root_children_truthy main').
    unfold root_children_truthy. simpl.
    destruct (children (root main')) as [|c cs] eqn:Hroot; simpl.
    + eexists. split; [done|]. simpl. split; [constructor|]. split; [constructor|].
      intros s. split; [by intros ?%elem_of_nil|].
      intros [Hs Hall]. apply list.Forall_cons in Hall as [Hseq _].
      rewrite Hts in Hseq.
      assert (s ∈ strings main') as Hs' by (rewrite Hstr; by apply elem_of_intersection).
      unfold strings in Hs'. rewrite Hd' in Hs'. apply elem_of_list_to_set in Hs'.
      destruct l; [lia|]. apply elem_of_represented_S in Hs' as (c & _ & _ & Hc & _).
      rewrite Hroot in Hc. by apply elem_of_nil in Hc.
    + destruct (IH (S i) main' (log ++ [i])%list Hd' Hsep')
        as (out & Hout & Hsorted & Hnd & Hin).
      exists out. split; [done|]. split; [done|]. split; [done|].
      intros s. rewrite Hin, Hstr, elem_of_intersection, list.Forall_cons, Hts. tauto.
Qed.

(** X27: For [l >= 1], the engine V2m ([Ems2] with [MotifTreeSimple]) does not
    raise; its motifs are in increasing order without repetition, and they
    are the strings represented by the trees of all the reads. *)
Theorem ems2m_outputs_common_strings (l d : nat) (reads : list string) :
  (0 < l)%nat ->
  exists out,
    Ems2.ems2m l d reads = Ok out
    /\ StronglySorted String.le (motifs out)
    /\ NoDup (motifs out)
    /\ forall s, s ∈ motifs out <->
         reads <> [] /\ Forall (fun seq => s ∈ Ems2.tree_strings l d seq) reads.
Proof.
  intros Hl. unfold Ems2.ems2m, Ems2.search. destruct reads as [|seq0 reads].
  - eexists. split; [done|]. simpl. split; [constructor|]. split; [constructor|].
    intros s. split; [by intros ?%elem_of_nil|]. by intros [? _].
  - destruct (simple_gen_tree_wf l d seq0) as (main & Hmain & Hd & Hsep).
    change (@tree_new tree _ l) with (new l). rewrite Hmain. simpl.
    destruct (simple_search_loop_spec l d reads Hl 1 main [0%nat] Hd Hsep)
      as (out & Hout & Hsorted & Hnd & Hin).
    exists out. split; [done|]. split; [done|]. split; [done|].
    intros s. rewrite Hin, list.Forall_cons. unfold Ems2.tree_strings at 2.
    rewrite Hmain. split; [intros [? ?]; split; [done|tauto]|tauto].
Qed.

Lemma ems2m_outputs_common_strings_witness :
  exists out,
    Ems2.ems2m 2 0 ["012"%string; "120"%string] = Ok out
    /\ StronglySorted String.le (motifs out)
    /\ NoDup (motifs out)
    /\ forall s, s ∈ motifs out <->
         ["012"%string; "120"%string] <> []
         /\ Forall (fun seq => s ∈ Ems2.tree_strings 2 0 seq) ["012"%string; "120"%string].
Proof. apply (ems2m_outputs_common_strings 2 0 ["012"%string; "120"%string]). lia. Defined.

End SimpleTraverse.

(** ** The edit distance (utils.py) *)

Section EditDistance.
Import Utils.

Lemma lev_nil_r (s : list ascii) : lev s [] = List.length s.
Proof. by destruct s. Qed.

Lemma lev_cons (a b : ascii) (s t : list ascii) :
  lev (a :: s) (b :: t)
  = Nat.min (Nat.min (lev s (b :: t) + 1) (lev (a :: s) t + 1))
      (lev s t + (if decide (a = b) then 0 else 1)).
Proof. done. Qed.

Lemma alignment_inserts (t : list ascii) : alignment [] t (List.length t).
Proof. induction t; simpl; by constructor. Qed.

Lemma alignment_deletes (s : list ascii) : alignment s [] (List.length s).
Proof. induction s; simpl; by constructor. Qed.

Lemma lev_alignment (s : list ascii) : forall t, alignment s t (lev s t).
Proof.
  induction s as [|a s IHs]; intros t; [apply alignment_inserts|].
  induction t as [|b t IHt]; [rewrite lev_nil_r; apply alignment_deletes|].
  rewrite lev_cons.
  destruct (Nat.min_spec (lev s (b :: t) + 1) (lev (a :: s) t + 1)) as [[_ ->]|[_ ->]];
    match goal with
    | |- context [Nat.min ?x ?y] => destruct (Nat.min_spec x y) as [[_ ->]|[_ ->]]
    end.
  - rewrite Nat.add_1_r. by constructor.
  - destruct (decide (a = b)) as [->|_].
    + rewrite Nat.add_0_r. by constructor.
    + rewrite Nat.add_1_r. by constructor.
  - rewrite Nat.add_1_r. by constructor.
  - destruct (decide (a = b)) as [->|_].
    + rewrite Nat.add_0_r. by constructor.
    + rewrite Nat.add_1_r. by constructor.
Qed.

Lemma lev_least (s t : list ascii) (n : nat) :
  alignment s t n -> (lev s t <= n)%nat.
Proof.
  induction 1 as [|c s t n _ IH|c c' s t n _ IH|c s t n _ IH|c s t n _ IH].
  - simpl. lia.
  - rewrite lev_cons. destruct (decide (c = c)); [|done]. lia.
  - rewrite lev_cons. destruct (decide (c = c')); lia.
  - destruct t as [|b t]; [rewrite !lev_nil_r in *; simpl; lia|].
    rewrite lev_cons. lia.
  - destruct s as [|a s]; [simpl in *; lia|].
    rewrite lev_cons. lia.
Qed.

Lemma alignment_app (s t s' t' : list ascii) (n n' : nat) :
  alignment s t n -> alignment s' t' n' ->
  alignment (s ++ s') (t ++ t') (n + n').
Proof.
  intros H H'. induction H; simpl; try (by constructor). done.
Qed.

Lemma alignment_rev (s t : list ascii) (n : nat) :
  alignment s t n -> alignment (rev s) (rev t) n.
Proof.
  induction 1 as [|c s t n _ IH|c c' s t n _ IH|c s t n _ IH|c s t n _ IH]; simpl.
  - constructor.
  - rewrite <- (Nat.add_0_r n). apply alignment_app; [done|]. repeat constructor.
  - rewrite <- Nat.add_1_r. apply alignment_app; [done|]. repeat constructor.
  - rewrite <- Nat.add_1_r, <- (app_nil_r (rev t)).
    apply alignment_app; [done|]. repeat constructor.
  - rewrite <- Nat.add_1_r, <- (app_nil_r (rev s)).
    apply alignment_app; [done|]. repeat constructor.
Qed.

Lemma alignment_sym (s t : list ascii) (n : nat) :
  alignment s t n -> alignment t s n.
Proof. induction 1; by constructor. Qed.

Lemma alignment_length (s t : list ascii) (n : nat) :
  alignment s t n ->
  (List.length s <= List.length t + n /\ List.length t <= List.length s + n)%nat.
Proof. induction 1; simpl; lia. Qed.

Lemma alignment_zero (s t : list ascii) : alignment s t 0 -> s = t.
Proof.
  remember 0%nat as n eqn:Hn. induction 1; try done. f_equal. auto.
Qed.

Lemma alignment_refl (s : list ascii) : alignment s s 0.
Proof. induction s; by constructor. Qed.

Lemma fold_seq_inv {A} (P : nat -> A -> Prop) (f : A -> nat -> A) (n : nat) :
  forall (a : nat) (d : A),
    P a d ->
    (forall k d, (a <= k < a + n)%nat -> P k d -> P (S k) (f d k)) ->
    P (a + n)%nat (fold_left f (seq a n) d).
Proof.
  induction n as [|n IH]; intros a d Hd Hstep; cbn [seq fold_left].
  - rewrite Nat.add_0_r. exact Hd.
  - replace (a + S n)%nat with (S a + n)%nat by lia. apply IH.
    + apply Hstep; [lia|done].
    + intros k d' Hk. apply Hstep. lia.
Qed.

Lemma dims_set_cell (d : list (list nat)) (rows cols i j v : nat) :
  dims d rows cols -> dims (set_cell d i j v) rows cols.
Proof.
  intros [Hr Hc]. unfold set_cell. split.
  - by rewrite length_alter.
  - apply list.Forall_forall. intros row Hrow.
    apply list_elem_of_lookup in Hrow as (i' & Hi').
    rewrite list.Forall_forall in Hc.
    destruct (decide (i' = i)) as [->|Hne].
    + rewrite list_lookup_alter_eq in Hi'.
      destruct (d !! i) as [row0|] eqn:H0; simpl in Hi'; [|done].
      injection Hi' as <-.
      rewrite length_insert. apply Hc. by eapply list_elem_of_lookup_2.
    + rewrite list_lookup_alter_ne in Hi' by done.
      apply Hc. by eapply list_elem_of_lookup_2.
Qed.

Lemma cell_set_cell (d : list (list nat)) (rows cols i j v i' j' : nat) :
  dims d rows cols -> (i < rows)%nat -> (j < cols)%nat ->
  cell (set_cell d i j v) i' j'
  = if decide (i' = i /\ j' = j) then v else cell d i' j'.
Proof.
  intros [Hr Hc] Hi Hj. unfold cell, set_cell.
  destruct (decide (i' = i)) as [->|Hne].
  - rewrite list_lookup_alter_eq.
    destruct (d !! i) as [row|] eqn:Hrow.
    2:{ apply lookup_ge_None in Hrow. lia. }
    simpl. rewrite list.Forall_forall in Hc.
    assert (List.length row = cols) as Hlen
      by (apply Hc; by eapply list_elem_of_lookup_2).
    destruct (decide (j' = j)) as [->|Hnej].
    + rewrite list_lookup_insert_eq by lia. by rewrite decide_True.
    + rewrite list_lookup_insert_ne by done. rewrite decide_False; [done|tauto].
  - rewrite list_lookup_alter_ne by done. rewrite decide_False; [done|tauto].
Qed.

Lemma chars_length (s : string) :
  List.length (list_ascii_of_string s) = Py.len s.
Proof. induction s; simpl; auto. Qed.

Lemma chars_lookup (s : string) (i : nat) :
  list_ascii_of_string s !! i = String.get i s.
Proof.
  revert i. induction s as [|c s IH]; intros i; simpl; [done|].
  destruct i as [|i]; simpl; [done|]. apply IH.
Qed.

Lemma char_at_get (s : string) (i : nat) (c : ascii) :
  String.get i s = Some c -> Py.char_at i s = String c EmptyString.
Proof.
  intros Hc. unfold Py.char_at, Py.slice.
  rewrite (slice_from_get s i c Hc). replace (S i - i)%nat with 1%nat by lia.
  simpl. by destruct (Py.slice_from (i + 1) s).
Qed.

Lemma rev_take_S (l : list ascii) (i : nat) (a : ascii) :
  l !! i = Some a -> rev (take (S i) l) = a :: rev (take i l).
Proof.
  intros Ha. rewrite (take_S_r _ _ a Ha), rev_app_distr. done.
Qed.

Lemma lev_prefix_step (l1 l2 : list ascii) (i j : nat) (a b : ascii) :
  l1 !! i = Some a -> l2 !! j = Some b ->
  lev (rev (take (S i) l1)) (rev (take (S j) l2))
  = Nat.min
      (Nat.min (lev (rev (take i l1)) (rev (take (S j) l2)) + 1)
               (lev (rev (take (S i) l1)) (rev (take j l2)) + 1))
      (lev (rev (take i l1)) (rev (take j l2)) + (if decide (a = b) then 0 else 1)).
Proof.
  intros Ha Hb.
  by rewrite (rev_take_S l1 i a Ha), (rev_take_S l2 j b Hb), lev_cons.
Qed.

(** The table after the loops of [edist] holds in [d[i][j]] the value of
    the recurrence on the first [i] characters of [s1] and the first [j]
    of [s2]. *)
Lemma edist_lev (s1 s2 : string) :
  edist s1 s2 = lev (rev (list_ascii_of_string s1)) (rev (list_ascii_of_string s2)).
Proof.
  unfold edist. cbv zeta.
  set (l1 := list_ascii_of_string s1). set (l2 := list_ascii_of_string s2).
  set (len1 := Py.len s1). set (len2 := Py.len s2).
  set (L := fun i j => lev (rev (take i l1)) (rev (take j l2))).
  assert (List.length l1 = len1) as Hl1 by apply chars_length.
  assert (List.length l2 = len2) as Hl2 by apply chars_length.
  assert (forall j, (j <= len2)%nat -> L 0%nat j = j) as HL0.
  { intros j Hj. unfold L. simpl. rewrite length_rev, length_take. lia. }
  assert (forall i, (i <= len1)%nat -> L i 0%nat = i) as HL1.
  { intros i Hi. unfold L. simpl. rewrite lev_nil_r, length_rev, length_take. lia. }
  (* the table before the first loop *)
  set (d0 := replicate (len1 + 1) (replicate (len2 + 1) 0%nat)).
  assert (dims d0 (len1 + 1) (len2 + 1)) as Hd0.
  { split; [apply length_replicate|]. apply Forall_replicate, length_replicate. }
  (* column 0 *)
  set (dA := fold_left (fun d i => set_cell d i 0 i) (Py.range (len1 + 1)) d0).
  assert (dims dA (len1 + 1) (len2 + 1)
          /\ forall i', (i' < len1 + 1)%nat -> cell dA i' 0 = i') as [HdA HA].
  { apply (fold_seq_inv
             (fun k d => dims d (len1 + 1) (len2 + 1)
                         /\ forall i', (i' < k)%nat -> cell d i' 0 = i')
             (fun d i => set_cell d i 0 i) (len1 + 1) 0 d0).
    - split; [done|]. intros; lia.
    - intros k d Hk [Hd Hc]. split; [by apply dims_set_cell|].
      intros i' Hi'. rewrite (cell_set_cell d (len1 + 1) (len2 + 1)) by (done || lia).
      case_decide as Heq; [lia|]. apply Hc. lia. }
  (* row 0 *)
  set (dB := fold_left (fun d j => set_cell d 0 j j) (Py.range (len2 + 1)) dA).
  assert (dims dB (len1 + 1) (len2 + 1)
          /\ (forall i', (i' < len1 + 1)%nat -> cell dB i' 0 = i')
          /\ forall j', (j' < len2 + 1)%nat -> cell dB 0 j' = j') as (HdB & HB1 & HB2).
  { apply (fold_seq_inv
             (fun k d => dims d (len1 + 1) (len2 + 1)
                         /\ (forall i', (i' < len1 + 1)%nat -> cell d i' 0 = i')
                         /\ forall j', (j' < k)%nat -> cell d 0 j' = j')
             (fun d j => set_cell d 0 j j) (len2 + 1) 0 dA).
    - split; [done|]. split; [done|]. intros; lia.
    - intros k d Hk (Hd & Hc & Hr). split; [by apply dims_set_cell|]. split.
      + intros i' Hi'. rewrite (cell_set_cell d (len1 + 1) (len2 + 1)) by (done || lia).
        case_decide as Heq; [lia|]. by apply Hc.
      + intros j' Hj'. rewrite (cell_set_cell d (len1 + 1) (len2 + 1)) by (done || lia).
        case_decide as Heq; [lia|]. apply Hr. lia. }
  (* the rows of the table, in order *)
  pose (filled := fun (i j : nat) (d : list (list nat)) =>
    dims d (len1 + 1) (len2 + 1)
    /\ forall i' j', (i' <= len1)%nat -> (j' <= len2)%nat ->
         (i' = 0 \/ j' = 0 \/ i' < i \/ (i' = i /\ j' < j))%nat ->
         cell d i' j' = L i' j').
  match goal with
  | |- cell (fold_left ?f _ _) _ _ = _ => set (row := f)
  end.
  assert (filled (1 + len1)%nat 1%nat (fold_left row (seq 1 len1) dB)) as [_ Hfinal].
  { apply (fold_seq_inv (fun i d => filled i 1%nat d) row len1 1 dB).
    - split; [done|]. intros i' j' Hi' Hj' Hcase.
      destruct (decide (i' = 0%nat)) as [->|Hi0]; [rewrite HL0 by done; apply HB2; lia|].
      assert (j' = 0%nat) as -> by lia. rewrite HL1 by done. apply HB1. lia.
    - intros i d Hi Hfilled. unfold row.
      match goal with
      | |- filled _ _ (fold_left ?g _ _) => set (step := g)
      end.
      assert (filled i (1 + len2)%nat (fold_left step (seq 1 len2) d)) as [Hd' Hc'].
      { apply (fold_seq_inv (fun j d => filled i j d) step len2 1 d); [done|].
        intros j d' Hj [Hd' Hc']. split; [by apply dims_set_cell|].
        intros i' j' Hi' Hj' Hcase. unfold step.
        rewrite (cell_set_cell d' (len1 + 1) (len2 + 1)) by (done || lia).
        case_decide as Heq; [|apply Hc'; [done..|lia]].
        destruct Heq as [-> ->].
        rewrite !Hc' by lia.
        destruct i as [|i0]; [lia|]. destruct j as [|j0]; [lia|].
        replace (S i0 - 1)%nat with i0 by lia. replace (S j0 - 1)%nat with j0 by lia.
        destruct (lookup_lt_is_Some_2 l1 i0) as [a Ha]; [lia|].
        destruct (lookup_lt_is_Some_2 l2 j0) as [b Hb]; [lia|].
        unfold L. rewrite (lev_prefix_step l1 l2 i0 j0 a b Ha Hb).
        unfold l1, l2 in Ha, Hb. rewrite chars_lookup in Ha, Hb.
        rewrite (char_at_get s1 i0 a Ha), (char_at_get s2 j0 b Hb).
        f_equal. f_equal.
        destruct (decide (a = b)) as [->|Hab].
        - by rewrite decide_True.
        - rewrite decide_False; [done|]. intros [= ?]. done. }
      split; [done|]. intros i' j' Hi' Hj' Hcase. apply Hc'; [done..|lia]. }
  rewrite (Hfinal len1 len2) by lia.
  unfold L. rewrite !take_ge by lia. done.
Qed.

Lemma edist_alignment (s1 s2 : string) :
  alignment (list_ascii_of_string s1) (list_ascii_of_string s2) (edist s1 s2).
Proof.
  rewrite edist_lev.
  rewrite <- (rev_involutive (list_ascii_of_string s1)) at 1.
  rewrite <- (rev_involutive (list_ascii_of_string s2)) at 1.
  apply alignment_rev, lev_alignment.
Qed.

Lemma edist_least (s1 s2 : string) (n : nat) :
  alignment (list_ascii_of_string s1) (list_ascii_of_string s2) n ->
  (edist s1 s2 <= n)%nat.
Proof. intros H. rewrite edist_lev. by apply lev_least, alignment_rev. Qed.

(** X28: [edist s1 s2] is the edit distance: [s2] is [s1] after that many
    single-character deletions, insertions and substitutions, and after
    no fewer. *)
Theorem edist_is_least_alignment (s1 s2 : string) :
  alignment (list_ascii_of_string s1) (list_ascii_of_string s2) (edist s1 s2)
  /\ forall n,
       alignment (list_ascii_of_string s1) (list_ascii_of_string s2) n ->
       (edist s1 s2 <= n)%nat.
Proof. split; [apply edist_alignment|apply edist_least]. Qed.

Lemma alignment_trans (s t : list ascii) (n : nat) :
  alignment s t n ->
  forall u m, alignment t u m -> exists k, (k <= n + m)%nat /\ alignment s u k.
Proof.
  induction 1 as [|c s t n _ IH|c c' s t n _ IH|c s t n _ IH|c s t n _ IH];
    intros u m H2.
  - exists m. split; [lia|done].
  - remember (c :: t) as t0 eqn:Ht0.
    induction H2 as [|c1 t1 u1 m1 H2 _|c1 c2 t1 u1 m1 H2 _|c1 t1 u1 m1 H2 _
                    |c1 t1 u1 m1 H2 IH2]; try done.
    + injection Ht0 as -> ->. destruct (IH _ _ H2) as (k & Hk & Ha).
      exists k. split; [lia|by constructor].
    + injection Ht0 as -> ->. destruct (IH _ _ H2) as (k & Hk & Ha).
      exists (S k). split; [lia|by constructor].
    + injection Ht0 as -> ->. destruct (IH _ _ H2) as (k & Hk & Ha).
      exists (S k). split; [lia|by constructor].
    + destruct (IH2 Ht0) as (k & Hk & Ha).
      exists (S k). split; [lia|by constructor].
  - remember (c' :: t) as t0 eqn:Ht0.
    induction H2 as [|c1 t1 u1 m1 H2 _|c1 c2 t1 u1 m1 H2 _|c1 t1 u1 m1 H2 _
                    |c1 t1 u1 m1 H2 IH2]; try done.
    + injection Ht0 as -> ->. destruct (IH _ _ H2) as (k & Hk & Ha).
      exists (S k). split; [lia|by constructor].
    + injection Ht0 as -> ->. destruct (IH _ _ H2) as (k & Hk & Ha).
      exists (S k). split; [lia|by constructor].
    + injection Ht0 as -> ->. destruct (IH _ _ H2) as (k & Hk & Ha).
      exists (S k). split; [lia|by constructor].
    + destruct (IH2 Ht0) as (k & Hk & Ha).
      exists (S k). split; [lia|by constructor].
  - destruct (IH _ _ H2) as (k & Hk & Ha).
    exists (S k). split; [lia|by constructor].
  - remember (c :: t) as t0 eqn:Ht0.
    induction H2 as [|c1 t1 u1 m1 H2 _|c1 c2 t1 u1 m1 H2 _|c1 t1 u1 m1 H2 _
                    |c1 t1 u1 m1 H2 IH2]; try done.
    + injection Ht0 as -> ->. destruct (IH _ _ H2) as (k & Hk & Ha).
      exists (S k). split; [lia|by constructor].
    + injection Ht0 as -> ->. destruct (IH _ _ H2) as (k & Hk & Ha).
      exists (S k). split; [lia|by constructor].
    + injection Ht0 as -> ->. destruct (IH _ _ H2) as (k & Hk & Ha).
      exists k. split; [lia|done].
    + destruct (IH2 Ht0) as (k & Hk & Ha).
      exists (S k). split; [lia|by constructor].
Qed.

Lemma chars_inj (s1 s2 : string) :
  list_ascii_of_string s1 = list_ascii_of_string s2 -> s1 = s2.
Proof.
  intros H. rewrite <- (string_of_list_ascii_of_string s1),
    <- (string_of_list_ascii_of_string s2). by rewrite H.
Qed.

Lemma edist_length (s1 s2 : string) :
  (Py.len s1 <= Py.len s2 + edist s1 s2
   /\ Py.len s2 <= Py.len s1 + edist s1 s2)%nat.
Proof.
  pose proof (alignment_length _ _ _ (edist_alignment s1 s2)) as H.
  by rewrite !chars_length in H.
Qed.

(** X29: [edist] is a metric on strings: it is symmetric, zero exactly on
    equal strings, and satisfies the triangle inequality; and it is at
    least the difference of the lengths. *)
Theorem edist_is_a_metric (s1 s2 s3 : string) :
  edist s1 s2 = edist s2 s1
  /\ (edist s1 s2 = 0%nat <-> s1 = s2)
  /\ (edist s1 s3 <= edist s1 s2 + edist s2 s3)%nat
  /\ (Py.len s1 <= Py.len s2 + edist s1 s2
      /\ Py.len s2 <= Py.len s1 + edist s1 s2)%nat.
Proof.
  split; [|split; [|split]].
  - apply Nat.le_antisymm; apply edist_least, alignment_sym, edist_alignment.
  - split.
    + intros H0. pose proof (edist_alignment s1 s2) as Ha. rewrite H0 in Ha.
      by apply chars_inj, alignment_zero.
    + intros ->. apply Nat.le_0_r, edist_least, alignment_refl.
  - destruct (alignment_trans _ _ _ (edist_alignment s1 s2) _ _
                (edist_alignment s2 s3)) as (k & Hk & Ha).
    apply edist_least in Ha. lia.
  - apply edist_length.
Qed.

(** X30: [found_in_seq] is true exactly when some non-empty substring of [seq]
    is within edit distance [d] of the candidate: the lengths the loop
    leaves out cannot be that close. *)
Theorem found_in_seq_iff (candidate sq : string) (l d : nat) :
  found_in_seq candidate sq l d = true
  <-> exists i k, (0 < k)%nat /\ (i + k <= Py.len sq)%nat
        /\ (edist (Py.slice i (i + k) sq) candidate <= d)%nat.
Proof.
  unfold found_in_seq. cbv zeta. rewrite existsb_exists. split.
  - intros (q & Hq & Hfound). apply in_map_iff in Hq as (n & <- & Hn).
    destruct (Z.leb_spec (Z.of_nat (Py.len candidate) + (- Z.of_nat d + Z.of_nat n)) 0)
      as [?|Hpos]; [done|].
    destruct (Z.ltb_spec (Z.of_nat (Py.len sq))
                (Z.of_nat (Py.len candidate) + (- Z.of_nat d + Z.of_nat n)))
      as [?|Hle]; [done|].
    simpl in Hfound. apply existsb_exists in Hfound as (i & Hi & Hdist).
    apply in_seq in Hi. apply Nat.leb_le in Hdist.
    eexists i, _. split; [|split; [|exact Hdist]]; lia.
  - intros (i & k & Hk & Hik & Hdist).
    pose proof (edist_length (Py.slice i (i + k) sq) candidate) as Hlen.
    rewrite len_slice in Hlen.
    exists (Z.of_nat k - Z.of_nat (Py.len candidate)). split.
    + apply in_map_iff.
      exists (Z.to_nat (Z.of_nat k - Z.of_nat (Py.len candidate) + Z.of_nat d)).
      split; [lia|]. apply in_seq. lia.
    + replace (Z.of_nat (Py.len candidate)
               + (Z.of_nat k - Z.of_nat (Py.len candidate))) with (Z.of_nat k) by lia.
      destruct (Z.leb_spec (Z.of_nat k) 0) as [?|_]; [lia|].
      destruct (Z.ltb_spec (Z.of_nat (Py.len sq)) (Z.of_nat k)) as [?|_]; [lia|].
      simpl. apply existsb_exists. exists i. rewrite Nat2Z.id.
      split; [apply in_seq; lia|]. by apply Nat.leb_le.
Qed.

End EditDistance.
